(** * NoiseTools: a shallow embedding of [NoiseTools/NoiseTools.py]

    The module is a flat collection of numeric helpers over numpy arrays.
    Arrays of floats are modelled as lists of real numbers ([R]), complex
    arrays as lists of pairs of reals, Python integers as [Z].  Python 2
    integer division [/] on integers is [Z.div], [%] on integers with a
    positive modulus is [Z.modulo].  Messages written by [print] are kept
    in a log next to the result, exceptions are an explicit result. *)

From Stdlib Require Import Reals Lra Lia ZArith List String Sorted Permutation.
From Stdlib Require Floats.
From stdpp Require Import gmap list sorting.

Local Open Scope Z_scope.

(** * Part I: the embedding of the source *)

(** ** Python values and control *)

Module Py.

(** The exceptions the modelled functions can end with. *)
Inductive pyexc : Type :=
| ValueError | ZeroDivisionError | IndexError | TypeError
| RuntimeError | OverflowError.

(** How a call ends.  [NonFinite] marks a call that goes on with [inf] or
    [nan] in an array, values that lists of reals do not hold. *)
Inductive outcome (A : Type) : Type :=
| Returns (v : A)
| Raises (e : pyexc)
| NonFinite.

Arguments Returns {A} v.

Arguments Raises {A} e.

Arguments NonFinite {A}.

Definition is_raise {A} (o : outcome A) : Prop :=
  match o with Raises _ => True | _ => False end.

(** Sequencing: the first exception ends the call. *)
Global Instance outcome_bind : MBind outcome := fun A B f m =>
  match m with
  | Returns v => f v
  | Raises e => Raises e
  | NonFinite => NonFinite
  end.

(** A call's effect on standard output together with how it ends. *)
Definition printed (A : Type) : Type := (list string * outcome A)%type.

(** Bound of a slice, as Python adjusts it: a negative bound counts from
    the end, and every bound is clipped to [[0, len]]. *)
Definition slice_bound (len i : Z) : Z :=
  if i <? 0 then Z.max (i + len) 0 else Z.min i len.

(** [l[lo:hi]] *)
Definition slice {A} (lo hi : Z) (l : list A) : list A :=
  let len := Z.of_nat (length l) in
  let a := slice_bound len lo in
  let b := slice_bound len hi in
  take (Z.to_nat (b - a)) (drop (Z.to_nat a) l).

(** [l[lo:]] *)
Definition slice_from {A} (lo : Z) (l : list A) : list A :=
  slice lo (Z.of_nat (length l)) l.

(** [l[:hi]] *)
Definition slice_to {A} (hi : Z) (l : list A) : list A :=
  slice 0 hi l.

(** [l[i]] with Python's negative indices and its [IndexError]. *)
Definition getitem {A} `{!Inhabited A} (l : list A) (i : Z) : outcome A :=
  let len := Z.of_nat (length l) in
  let j := if i <? 0 then i + len else i in
  if (0 <=? j) && (j <? len) then Returns (l !!! Z.to_nat j)
  else Raises IndexError.

(** [l[-1] = v] *)
Definition set_last {A} (l : list A) (v : A) : outcome (list A) :=
  match l with
  | [] => Raises IndexError
  | _ => Returns (<[(length l - 1)%nat := v]> l)
  end.

End Py.
Import Py.

(** ** [rotate] *)

(** [def rotate(array, n=1)]: the sign of [n] is flipped, the empty array
    is returned as it is, [n] is reduced modulo the length and the two
    slices are concatenated. *)
Definition rotate {A} (array : list A) (n : Z) : list A :=
  let n := - n in
  if (length array =? 0)%nat then array
  else
    let n := n mod Z.of_nat (length array) in
    slice_from n array ++ slice_to n array.

(** Left rotation by a natural number of places, the closed form of
    [rotate] once [n] is normalised. *)
Definition rotl {A} (k : nat) (l : list A) : list A := drop k l ++ take k l.

(** ** Floating-point values as reals *)

Module Np.

Local Open Scope R_scope.

(** A numpy [float64]: a real number or one of the special values that
    [log] and division produce outside their domain. *)
Inductive float : Type :=
| Fin (r : R)
| PosInf
| NegInf
| NaN.

(** [numpy.log] on a real argument: [-inf] at zero and [nan] below it
    (numpy warns and goes on, it does not raise). *)
Definition log (x : R) : float :=
  if Rlt_dec 0 x then Fin (ln x)
  else if Req_dec_T x 0 then NegInf
  else NaN.

(** [a / b] on [float64] values (numpy semantics: no exception). *)
Definition fdiv (a b : float) : float :=
  match a, b with
  | NaN, _ | _, NaN => NaN
  | Fin x, Fin y =>
      if Req_dec_T y 0 then
        (if Req_dec_T x 0 then NaN
         else if Rlt_dec 0 x then PosInf else NegInf)
      else Fin (x / y)
  | Fin _, (PosInf | NegInf) => Fin 0
  | PosInf, Fin y => if Rle_dec 0 y then PosInf else NegInf
  | NegInf, Fin y => if Rle_dec 0 y then NegInf else PosInf
  | (PosInf | NegInf), (PosInf | NegInf) => NaN
  end.

(** Conversion of a real to an integer by truncation toward zero: the C
    cast behind [astype('i')] and Python's [int()]. *)
Definition trunc (r : R) : Z :=
  if Rle_dec 0 r then Int_part r else (- Int_part (- r))%Z.

(** [int(x)] for a [float64] [x]. *)
Definition py_int (x : float) : outcome Z :=
  match x with
  | Fin r => Returns (trunc r)
  | PosInf | NegInf => Raises OverflowError
  | NaN => Raises ValueError
  end.

(** [add.reduce] and [average] of a real array.  The average is taken of
    non-empty arrays only (numpy's average of an empty one is [nan]). *)
Definition add_reduce (l : list R) : R := foldr Rplus 0 l.

Definition average (l : list R) : R := add_reduce l / INR (length l).

(** [numpy.diff]: successive differences [a[i+1] - a[i]]. *)
Fixpoint diff (l : list R) : list R :=
  match l with
  | a :: (b :: _) as t => (b - a) :: diff t
  | _ => []
  end.

(** [numpy.compress(condition, a)]: the entries of [a] at the positions
    where [condition] holds. *)
Fixpoint compress {A} (cond : list bool) (a : list A) : list A :=
  match cond, a with
  | c :: cs, x :: xs => if c then x :: compress cs xs else compress cs xs
  | _, _ => []
  end.

(** The elementwise test [v > 0]. *)
Definition positive_b (v : R) : bool := if Rlt_dec 0 v then true else false.

(** [ndarray.sort()]: the array in ascending order. *)
Fixpoint insert_sorted (x : R) (l : list R) : list R :=
  match l with
  | [] => [x]
  | y :: t => if Rle_dec x y then x :: y :: t else y :: insert_sorted x t
  end.

Definition sort (l : list R) : list R := foldr insert_sorted [] l.

End Np.
Import Np.

(** ** The store of arrays

    numpy arrays are mutable objects handled by reference.  A function that
    sorts or overwrites an array in place is modelled on a store mapping
    references to array contents; [None] stands for a reference that is
    not allocated, which no Python state has. *)

Abbreviation loc := positive.

Abbreviation heap := (gmap loc (list R)).

(** A new array object holding [v]. *)
Definition alloc (h : heap) (v : list R) : loc * heap :=
  let l := fresh (dom h) in (l, <[l := v]> h).

(** ** [unique] and [NumberOfBitsUsed] *)

(** The value [unique] computes from the contents [d] of [data]:
    [compress(diff(copy) > 0, copy[0:-1])] for the sorted copy. *)
Definition unique_of_sorted (copy : list R) : list R :=
  compress (map positive_b (diff copy)) (slice 0 (-1) copy).

(** [def unique(data)]: [copy = 1.*data] is a new array, [copy.sort()]
    sorts that array in place, the result is a third array. *)
Definition unique (h : heap) (data : loc) : option (heap * list R) :=
  d ← h !! data;
  let '(copy, h) := alloc h (map (Rmult 1) d) in
  let h := alter sort copy h in
  c ← h !! copy;
  Some (h, unique_of_sorted c).

(** [def NumberOfBitsUsed(data)]:
    [log(1.*len(unique(data)))/log(2.)] with numpy's [log]. *)
Definition NumberOfBitsUsed (h : heap) (data : loc) : option (heap * float) :=
  '(h, u) ← unique h data;
  Some (h, fdiv (log (1 * INR (length u))) (log 2)).

(** The rule in the words of the description: walking the sorted copy,
    an element is kept when its successor is strictly larger; the last
    element has no successor and is dropped. *)
Fixpoint keep_before_larger (c : list R) : list R :=
  match c with
  | a :: (b :: _) as t =>
      if Rlt_dec a b then a :: keep_before_larger t else keep_before_larger t
  | _ => []
  end.

(** The distinct values of a sorted array, in ascending order. *)
Fixpoint levels (c : list R) : list R :=
  match c with
  | [] => []
  | a :: t =>
      match t with
      | [] => [a]
      | b :: _ => if Rlt_dec a b then a :: levels t else levels t
      end
  end.

(** ** [resamp] and [resample] *)

Global Instance R_inhabited : Inhabited R := populate 0%R.

Module Resampling.

Local Open Scope R_scope.

(** [zeros(N)]: numpy rejects a negative length. *)
Definition zeros (n : Z) : outcome (list R) :=
  if (n <? 0)%Z then Raises ValueError
  else Returns (replicate (Z.to_nat n) 0).

(** [arange(1.*n)]: the floats [0., 1., ..., n-1], none for [n <= 0]. *)
Definition arange (n : Z) : list R :=
  (fun i : nat => INR i) <$> seq 0 (Z.to_nat n).

(** [a / n] for a Python float [a] and a Python integer [n]. *)
Definition float_div_int (a : R) (n : Z) : outcome R :=
  if (n =? 0)%Z then Raises ZeroDivisionError else Returns (a / IZR n).

(** A [float64] that has to be a number for the model to go on. *)
Definition finite (x : float) : outcome R :=
  match x with
  | Fin r => Returns r
  | _ => NonFinite
  end.

(** The bin edges of linear mode:
    [index = arange(1.*(N+1))*dn; index = index.astype('i');
     index[-1] = len].  The products are taken exactly; the code
    truncates the rounded products, which can be one lower where the
    exact product is a whole number ([Binary64.lin_index] below follows
    the rounding). *)
Definition lin_index (len : nat) (N : Z) (dn : R) : outcome (list Z) :=
  let index := (fun v => v * dn) <$> arange (N + 1) in
  let index := trunc <$> index in
  set_last index (Z.of_nat len).

(** The bin edges of logarithmic mode:
    [startlog = log(1.); endlog = log(len+1); dlog = (endlog-startlog)/N;
     logrange = arange(1.*(N+1))*dlog + startlog;
     logindex = exp(logrange).astype('i')-1; logindex[-1] = len].
    Both logarithms have a positive argument.  The exponentials are
    taken exactly; the code truncates their rounded values, which can be
    one lower where the exact value is a whole number. *)
Definition log_index (len : nat) (N : Z) : outcome (list Z) :=
  let startlog := ln 1 in
  let endlog := ln (IZR (Z.of_nat len + 1)) in
  let dlog := (endlog - startlog) / IZR N in
  let logrange := (fun v => v * dlog + startlog) <$> arange (N + 1) in
  let logindex := (fun v => (trunc (exp v) - 1)%Z) <$> logrange in
  set_last logindex (Z.of_nat len).

(** [for i in range(N): result[i] = average(y[index[i]:index[i+1]])] *)
Definition fill_lin (y : list R) (index : list Z) (N : Z)
    (result : list R) : list R :=
  foldl (fun result i =>
           <[i := average (slice (index !!! i) (index !!! S i) y)]> result)
        result (seq 0 (Z.to_nat N)).

(** [for i in range(N):] the average of the bin, or the single sample
    [y[logindex[i]]] where two edges coincide. *)
Definition fill_log (y : list R) (logindex : list Z) (N : Z)
    (result : list R) : outcome (list R) :=
  foldl (fun acc i =>
           result ← acc;
           if Z.eq_dec (logindex !!! i) (logindex !!! S i) then
             v ← getitem y (logindex !!! i);
             Returns (<[i := v]> result)
           else
             Returns (<[i := average
                        (slice (logindex !!! i) (logindex !!! S i) y)]>
                        result))
        (Returns result) (seq 0 (Z.to_nat N)).

(** [def resamp(x, N, type='lin')].  [x] is an array of floats, so
    [zeros(N).astype(x.dtype.char)] is an array of floats too. *)
Definition resamp (x : list R) (N : Z) (type : string)
    : outcome (list R) :=
  if (Z.of_nat (length x) <=? N)%Z then Returns x
  else if String.eqb type "lin" then
    result ← zeros N;
    dn ← float_div_int (1 * INR (length x)) N;
    index ← lin_index (length x) N dn;
    Returns (fill_lin x index N result)
  else if String.eqb type "log" then
    logindex ← log_index (length x) N;
    result ← zeros N;
    fill_log x logindex N result
  else Raises RuntimeError.

(** The x axis of logarithmic mode:
    [dlog = (endlog-startlog)/N;
     resultx = exp(arange(1.*N)*dlog+startlog+dlog/2)].
    With [-inf] or [nan] for a logarithm the axis holds a [nan] as soon as
    it has an entry. *)
Definition log_axis (startlog endlog : float) (N : Z) : outcome (list R) :=
  match startlog, endlog with
  | Fin s, Fin e =>
      let dlog := (e - s) / IZR N in
      Returns ((fun v => exp (v * dlog + s + dlog / 2)) <$> arange N)
  | _, _ => if (N <=? 0)%Z then Returns [] else NonFinite
  end.

(** [def resample(x, y, N, type='lin')].  The result is a Python list of
    arrays: [[]], or [[x, y]], or [[resultx, resulty]]. *)
Definition resample (x y : list R) (N : Z) (type : string)
    : printed (list (list R)) :=
  if negb (length x =? length y)%nat then
    (["x and y need to be equally long"%string], Returns [])
  else if (Z.of_nat (length y) <=? N)%Z then
    ([], Returns [x; y])
  else if String.eqb type "lin" then
    ([],
     xlast ← getitem x (-1);
     x0 ← getitem x 0;
     let dx := (xlast - x0) / IZR N in
     let resultx := (fun v => v * dx + x0 + dx / 2) <$> arange N in
     resulty ← zeros N;
     dn ← float_div_int (1 * INR (length y)) N;
     index ← lin_index (length y) N dn;
     Returns [resultx; fill_lin y index N resulty])
  else if String.eqb type "log" then
    ([],
     logindex ← log_index (length y) N;
     resulty ← zeros N;
     resulty ← fill_log y logindex N resulty;
     x0 ← getitem x 0;
     startlog ← (if Rlt_dec 0 x0 then Returns (log x0)
                 else x1 ← getitem x 1; Returns (log x1));
     xlast ← getitem x (-1);
     resultx ← log_axis startlog (log xlast) N;
     Returns [resultx; resulty])
  else
    (* [print("type unknown!"); return arange([])]: [arange] of a list is
       a [TypeError] *)
    (["type unknown!"%string], Raises TypeError).

End Resampling.
Import Resampling.

(** Edge [i] of the linear bins of [L] samples in [N] bins:
    [floor(i * L/N)]. *)
Definition lin_edge (L : nat) (N : Z) (i : nat) : Z :=
  (Z.of_nat i * Z.of_nat L / N)%Z.

(** The mean of bin [i]: of the samples at the indices from
    [floor(i*L/N)] up to, not including, [floor((i+1)*L/N)]. *)
Definition bin_mean (x : list R) (N : Z) (i : nat) : R :=
  let lo := lin_edge (length x) N i in
  let hi := lin_edge (length x) N (S i) in
  average (take (Z.to_nat (hi - lo)) (drop (Z.to_nat lo) x)).

(** The x axis of linear mode: [N] points spaced by
    [dx = (x[-1]-x[0])/N], the first at [x[0]+dx/2]. *)
Definition lin_axis (x : list R) (N : Z) : list R :=
  let dx := ((x !!! (length x - 1)%nat - x !!! 0%nat) / IZR N)%R in
  (fun v => v * dx + x !!! 0%nat + dx / 2)%R <$> arange N.

(** ** [make_phase_continuous] *)

Module Phase.

Local Open Scope R_scope.

(** [a % b] on floats: the remainder takes the sign of the divisor,
    [a - b*floor(a/b)]. *)
Definition float_mod (a b : R) : R := a - b * IZR (Int_part (a / b)).

(** The body of the loop at index [i], on the contents of the array:
    [dphi = (phi[i+1]-phi[i]) % (2*pi)]; [if dphi > pi: dphi -= 2*pi];
    [phi[i+1] = phi[i] + dphi]. *)
Definition unwrap_step (phi : list R) (i : nat) : list R :=
  let dphi := float_mod (phi !!! S i - phi !!! i) (2 * PI) in
  let dphi := if Rlt_dec PI dphi then dphi - 2 * PI else dphi in
  <[S i := phi !!! i + dphi]> phi.

(** The contents of the array after the first [k] iterations. *)
Definition unwrap_scan (phi : list R) (k : nat) : list R :=
  foldl unwrap_step phi (seq 0 k).

(** [def make_phase_continuous(phi)]: [for i in range(len(phi)-1)], each
    iteration reads and overwrites the caller's array; nothing is
    returned. *)
Definition make_phase_continuous (h : heap) (phi : loc) : option heap :=
  p ← h !! phi;
  Some (foldl (fun h i => alter (fun a => unwrap_step a i) phi h)
              h (seq 0 (length p - 1))).

End Phase.
Import Phase.

(** ** Complex numbers *)

Module Cx.

Local Open Scope R_scope.

(** A complex number, real part first. *)
Definition C : Type := (R * R)%type.

Definition RtoC (r : R) : C := (r, 0).

Definition Cplus (z w : C) : C := (fst z + fst w, snd z + snd w).

Definition Cmult (z w : C) : C :=
  (fst z * fst w - snd z * snd w, fst z * snd w + snd z * fst w).

Definition Cminus (z w : C) : C := (fst z - fst w, snd z - snd w).

(** [z / n] and [z * n] for a complex [z] and a real [n]. *)
Definition Cdiv_real (z : C) (r : R) : C := (fst z / r, snd z / r).

Definition Cmult_real (z : C) (r : R) : C := (fst z * r, snd z * r).

(** [abs(z)] *)
Definition Cmod (z : C) : R := sqrt (fst z * fst z + snd z * snd z).

(** [exp(1j*t)] *)
Definition cis (t : R) : C := (cos t, sin t).

Global Instance C_inhabited : Inhabited C := populate (RtoC 0).

End Cx.
Import Cx.

(** ** [halfwidth] *)

Module Demod.

Local Open Scope R_scope.

(** [numpy.argmax] of a non-empty array [v :: t]: the index of the first
    occurrence of the largest entry. *)
Fixpoint argmax_cons (v : R) (t : list R) : nat :=
  match t with
  | [] => 0%nat
  | w :: t' =>
      let m := argmax_cons w t' in
      if Rlt_dec v ((w :: t') !!! m) then S m else 0%nat
  end.

(** [numpy.argmax]: an empty array is a [ValueError]. *)
Definition argmax (l : list R) : outcome nat :=
  match l with
  | [] => Raises ValueError
  | v :: t => Returns (argmax_cons v t)
  end.

(** [def halfwidth(spec)], with Python 2's integer division:
    [maxpos = argmax(abs(spec[0:(len(spec)+1)/2]))];
    [x = min(maxpos, len(spec)/2-1-maxpos)]; a message when [x == 0];
    [return 2**int(log(x)/log(2))]. *)
Definition halfwidth (spec : list C) : printed Z :=
  let len := Z.of_nat (length spec) in
  match argmax (Cmod <$> slice 0 ((len + 1) / 2) spec) with
  | Returns maxpos =>
      let x := Z.min (Z.of_nat maxpos) (len / 2 - 1 - Z.of_nat maxpos) in
      (if (x =? 0)%Z then ["halfwidth: Error: Maximum is at f=0"%string]
       else [],
       e ← py_int (fdiv (log (IZR x)) (log 2));
       Returns (2 ^ e)%Z)
  | Raises e => ([], Raises e)
  | NonFinite => ([], NonFinite)
  end.

End Demod.
Import Demod.

(** ** [spectrum] and [ispectrum] *)

Module Spectral.

Local Open Scope R_scope.

(** The sum of [f 0], ..., [f (n-1)]. *)
Fixpoint csum (f : nat -> C) (n : nat) : C :=
  match n with
  | O => RtoC 0
  | S n' => Cplus (csum f n') (f n')
  end.

(** The discrete Fourier transform
    [A[k] = sum over m of a[m] * exp(-2j*pi*m*k/n)]. *)
Definition dft (a : list C) : list C :=
  let n := length a in
  (fun k : nat =>
     csum (fun m : nat =>
             Cmult (a !!! m) (cis (- (2 * PI * INR m * INR k / INR n)))) n)
    <$> seq 0 n.

(** The inverse transform
    [a[m] = (1/n) * sum over k of A[k] * exp(2j*pi*m*k/n)]. *)
Definition idft (A : list C) : list C :=
  let n := length A in
  (fun m : nat =>
     Cdiv_real
       (csum (fun k : nat =>
                Cmult (A !!! k) (cis (2 * PI * INR m * INR k / INR n))) n)
       (INR n))
    <$> seq 0 n.

(** [numpy.fft.fft] and [numpy.fft.ifft]: the transforms of a non-empty
    array; numpy rejects a number of data points below 1. *)
Definition fft (a : list C) : outcome (list C) :=
  if (length a =? 0)%nat then Raises ValueError else Returns (dft a).

Definition ifft (A : list C) : outcome (list C) :=
  if (length A =? 0)%nat then Raises ValueError else Returns (idft A).

(** [def spectrum(signal)]: [fft(signal)/len(signal)]. *)
Definition spectrum (signal : list C) : outcome (list C) :=
  A ← fft signal;
  Returns ((fun z => Cdiv_real z (INR (length signal))) <$> (A : list C)).

(** [def ispectrum(spec)]: [ifft(spec)*len(spec)]. *)
Definition ispectrum (spec : list C) : outcome (list C) :=
  a ← ifft spec;
  Returns ((fun z => Cmult_real z (INR (length spec))) <$> (a : list C)).

End Spectral.
Import Spectral.

(** ** [make_f] *)

Module Frequency.

Local Open Scope R_scope.

(** [def make_f(N, fnyquist)], for a float [fnyquist] and Python 2's
    integer division in [-N/2]:
    [df = 2*fnyquist/N]; [rotate(df*arange(N)-fnyquist, -N/2)]. *)
Definition make_f (N : Z) (fnyquist : R) : outcome (list R) :=
  df ← float_div_int (2 * fnyquist) N;
  Returns (rotate ((fun v => df * v - fnyquist) <$> arange N) (- N / 2)%Z).

End Frequency.
Import Frequency.

(** ** [crop2power2] and [centercrop2power2] *)

Module Cropping.

Local Open Scope R_scope.

(** [l = 2**int(log(len(array))/log(2))], with numpy's [log]. *)
Definition pow2_length (len : nat) : outcome Z :=
  e ← py_int (fdiv (log (IZR (Z.of_nat len))) (log 2));
  Returns (2 ^ e)%Z.

(** [def crop2power2(array)]: [array[0:l]]. *)
Definition crop2power2 {A} (array : list A) : outcome (list A) :=
  l ← pow2_length (length array);
  Returns (slice 0 l array).

(** [def centercrop2power2(array)], with Python 2's integer division:
    [l0 = len(array)]; [array[l0/2-l/2:l0/2+l/2]]. *)
Definition centercrop2power2 {A} (array : list A) : outcome (list A) :=
  l ← pow2_length (length array);
  let l0 := Z.of_nat (length array) in
  Returns (slice (l0 / 2 - l / 2) (l0 / 2 + l / 2) array).

End Cropping.
Import Cropping.

(** ** [integrate] *)

Module Integration.

Local Open Scope R_scope.

(** The body of the loop at index [i]: [x[i+1] = x[i]+x[i+1]]. *)
Definition integrate_step (x : list R) (i : nat) : list R :=
  <[S i := x !!! i + x !!! S i]> x.

(** [def integrate(input)]: [x = 1.*input] is a new array, the loop
    [for i in range(len(x)-1)] overwrites it in place and the array is
    returned. *)
Definition integrate (h : heap) (input : loc) : option (heap * loc) :=
  d ← h !! input;
  let '(x, h) := alloc h (map (Rmult 1) d) in
  c ← h !! x;
  Some (foldl (fun h i => alter (fun a => integrate_step a i) x h)
              h (seq 0 (length c - 1)),
        x).

End Integration.
Import Integration.

(** ** Closed forms of the logarithmic bins *)

Module LogBins.

Local Open Scope R_scope.

(** Edge [i] of the logarithmic bins of [L] samples in [N] bins:
    [int(exp(i*dlog + log(1.))) - 1] with [dlog = (log(L+1)-log(1.))/N]. *)
Definition log_edge (L : nat) (N : Z) (i : nat) : Z :=
  (trunc (exp (INR i * ((ln (IZR (Z.of_nat L + 1)) - ln 1) / IZR N) + ln 1))
   - 1)%Z.

(** The value of bin [i] in logarithmic mode: the single sample at the
    edge when the bin is empty, the mean of the bin otherwise. *)
Definition log_bin_value (y : list R) (N : Z) (i : nat) : R :=
  let lo := log_edge (length y) N i in
  let hi := log_edge (length y) N (S i) in
  if Z.eq_dec lo hi then y !!! Z.to_nat lo
  else average (take (Z.to_nat (hi - lo)) (drop (Z.to_nat lo) y)).

End LogBins.
Import LogBins.

(** ** [powerspectrum] and [phasor] *)

Module Analysis.

Local Open Scope R_scope.

(** The complex conjugate. *)
Definition Cconj (z : C) : C := (fst z, - snd z).

(** [def powerspectrum(signal)], with Python 2's integer division:
    [abs(spectrum(signal)[:len(signal)/2])**2]. *)
Definition powerspectrum (signal : list C) : outcome (list R) :=
  spec ← spectrum signal;
  Returns ((fun z => Cmod z ^ 2) <$>
             slice_to (Z.of_nat (length signal) / 2) (spec : list C)).

(** [spec[lo:len(spec)] = 0] for [0 <= lo]. *)
Definition zero_from (lo : Z) (spec : list C) : list C :=
  take (Z.to_nat lo) spec
    ++ replicate (length spec - Z.to_nat lo) (RtoC 0).

(** [def phasor(signal)]: [spec = spectrum(signal)];
    [spec[(len(spec)+1)/2:len(spec)] = 0]; [ifft(len(spec)*spec)]. *)
Definition phasor (signal : list C) : outcome (list C) :=
  spec ← spectrum signal;
  let spec := zero_from ((Z.of_nat (length (spec : list C)) + 1) / 2) spec in
  ifft ((fun z => Cmult_real z (INR (length spec))) <$> spec).

End Analysis.
Import Analysis.

(** ** [phase], [amplitude] *)

Module Polar.

Local Open Scope R_scope.

(** [numpy.sign] *)
Definition sign (r : R) : R :=
  if Rlt_dec 0 r then 1 else if Rlt_dec r 0 then -1 else 0.

(** One entry of [phase]:
    [arctan(imag/real) + 0.5*(sign(real) - 1)*pi].  With a zero real
    part the quotient [imag/real] is [inf] or [nan]. *)
Definition phase_entry (z : C) : outcome R :=
  if Req_dec_T (fst z) 0 then NonFinite
  else Returns (atan (snd z / fst z) + 0.5 * (sign (fst z) - 1) * PI).

(** An entry-wise computation over an array. *)
Fixpoint each {A B} (f : A -> outcome B) (l : list A) : outcome (list B) :=
  match l with
  | [] => Returns []
  | a :: t => b ← f a; bs ← each f t; Returns (b :: bs)
  end.

(** [def phase(phasordata)] *)
Definition phase (phasordata : list C) : outcome (list R) :=
  each phase_entry phasordata.

(** [def amplitude(phasordata)]: [abs(phasordata)]. *)
Definition amplitude (phasordata : list C) : list R :=
  Cmod <$> phasordata.

End Polar.
Import Polar.

(** ** [center_of_gravity], [peak_centered_spectrum] *)

Module Peak.

Local Open Scope R_scope.

(** [def center_of_gravity(array)]: [l = len(array)];
    [cog = add.reduce(abs(array)*arange(l)) / add.reduce(abs(array))];
    [return int(cog)].  The quotient is taken exactly; the code truncates
    the rounded quotient, which can be one lower where the exact quotient
    is a whole number. *)
Definition center_of_gravity (array : list C) : outcome Z :=
  let l := Z.of_nat (length array) in
  let cog :=
    fdiv (Fin (add_reduce (zip_with Rmult (Cmod <$> array) (arange l))))
         (Fin (add_reduce (Cmod <$> array))) in
  py_int cog.

(** [def peak_centered_spectrum(spec, halfwidth)], with Python 2's
    integer division: a message and an empty array when
    [halfwidth > len(spec)/2]; otherwise
    [maxpos = argmax(abs(spec[0:(len(spec)+1)/2]))];
    [spec0 = spec[maxpos-halfwidth:maxpos+halfwidth]];
    [return rotate(spec0, -halfwidth)]. *)
Definition peak_centered_spectrum (spec : list C) (halfwidth : Z)
    : printed (list C) :=
  let len := Z.of_nat (length spec) in
  if (len / 2 <? halfwidth)%Z then
    (["peak_centered_spectrum: halfwidth too large!"%string], Returns [])
  else
    match argmax (Cmod <$> slice 0 ((len + 1) / 2) spec) with
    | Returns maxpos =>
        let spec0 :=
          slice (Z.of_nat maxpos - halfwidth) (Z.of_nat maxpos + halfwidth)
            spec in
        ([], Returns (rotate spec0 (- halfwidth)))
    | Raises e => ([], Raises e)
    | NonFinite => ([], NonFinite)
    end.

End Peak.
Import Peak.

(** ** [rms], [ADC_SNR], [ADC_NoiseFloor], [LP], [HP] *)

Module Levels.

Local Open Scope R_scope.

(** [def rms(signal)]: [sqrt(average((signal - average(signal))**2))].
    The averages of an empty array are [nan], and so is its rms. *)
Definition rms (signal : list R) : outcome R :=
  match signal with
  | [] => NonFinite
  | _ =>
      Returns
        (sqrt (average ((fun v => (v - average signal) ^ 2) <$> signal)))
  end.

(** The quantity under the root in [rms]. *)
Definition mean_square_deviation (l : list R) : R :=
  average ((fun v => (v - average l) ^ 2) <$> l).

(** [def ADC_SNR(Nbits)]: [6.02*Nbits+1.76]. *)
Definition ADC_SNR (Nbits : R) : R := 6.02 * Nbits + 1.76.

(** [numpy.log10] on a real argument. *)
Definition log10 (x : R) : float :=
  if Rlt_dec 0 x then Fin (ln x / ln 10)
  else if Req_dec_T x 0 then NegInf
  else NaN.

(** [a - 10*x] for a real [a] and a [float64] [x]. *)
Definition minus_ten_times (a : R) (x : float) : float :=
  match x with
  | Fin v => Fin (a - 10 * v)
  | PosInf => NegInf
  | NegInf => PosInf
  | NaN => NaN
  end.

(** [def ADC_NoiseFloor(Nbits, fsampling)]:
    [-6.02*Nbits-1.76-10*log10(0.5*fsampling)]. *)
Definition ADC_NoiseFloor (Nbits fsampling : R) : float :=
  minus_ten_times (- 6.02 * Nbits - 1.76) (log10 (0.5 * fsampling)).

(** [a / z] for a real [a] and a complex [z] other than zero. *)
Definition Rdiv_C (a : R) (z : C) : C :=
  (a * fst z / (fst z * fst z + snd z * snd z),
   - (a * snd z) / (fst z * fst z + snd z * snd z)).

(** [def LP(f, f3db)]: [1./(1+f/f3db*1j)], for Python floats [f] and
    [f3db]: the division [f/f3db] by zero raises.  The denominator
    [1+...*1j] is never zero. *)
Definition LP (f f3db : R) : outcome C :=
  if Req_dec_T f3db 0 then Raises ZeroDivisionError
  else Returns (Rdiv_C 1 (1, f / f3db)).

(** [def HP(f, f3db)]: [1./(1-f3db/f*1j)], for Python floats [f] and
    [f3db]: the division [f3db/f] by zero raises. *)
Definition HP (f f3db : R) : outcome C :=
  if Req_dec_T f 0 then Raises ZeroDivisionError
  else Returns (Rdiv_C 1 (1, - (f3db / f))).

End Levels.
Import Levels.

(** ** [pc_hanning] *)

Module Window.

Local Open Scope R_scope.

(** [numpy.hanning(M)]: no point for [M < 1], the single point 1 for
    [M = 1], and otherwise the points
    [0.5 - 0.5*cos(2*pi*n/(M-1))] for [n = 0, ..., M-1]. *)
Definition numpy_hanning (M : Z) : list R :=
  if (M <? 1)%Z then []
  else if (M =? 1)%Z then [1]
  else (fun n : nat => 0.5 - 0.5 * cos (2 * PI * INR n / IZR (M - 1)))
         <$> seq 0 (Z.to_nat M).

(** [def pc_hanning(Npoints)]:
    [1.0/sqrt(0.375)*numpy_hanning(Npoints)]. *)
Definition pc_hanning (Npoints : Z) : list R :=
  (fun w => 1.0 / sqrt 0.375 * w) <$> numpy_hanning Npoints.

End Window.
Import Window.

(** ** The bin edges in binary64, and arrays of integers

    The embedding above takes the arithmetic of float64 as exact.  For
    the bin edges of [resamp] that is not harmless: [int(i*dn)] is one
    lower than [floor(i*len/N)] where the rounded product falls just
    below a whole number.  This module computes the edges as the code
    does, in binary64 (the kernel's primitive floats); the samples and
    their means stay real numbers. *)

Module Binary64.

(** The float64 value of a Python integer [0 <= z < 2**53]. *)
Definition of_int (z : Z) : PrimFloat.float :=
  PrimFloat.of_uint63 (Uint63.of_Z z).

(** [astype('i')] on a float64: truncation toward zero (the value of the
    finite float [(-1)^s * m * 2^e] without its fraction). *)
Definition to_int (f : PrimFloat.float) : Z :=
  match FloatOps.Prim2SF f with
  | SpecFloat.S754_finite s m e =>
      let a := if (0 <=? e)%Z then Z.shiftl (Z.pos m) e
               else Z.shiftr (Z.pos m) (- e) in
      if s then (- a)%Z else a
  | _ => 0%Z
  end.

(** [dn = 1.*len(x)/N; index = arange(1.*(N+1))*dn;
     index = index.astype('i'); index[-1] = len(x)], for [N <> 0]. *)
Definition lin_index (len : nat) (N : Z) : outcome (list Z) :=
  let dn :=
    PrimFloat.div (PrimFloat.mul (of_int 1) (of_int (Z.of_nat len)))
                  (of_int N) in
  let index :=
    (fun i : nat => PrimFloat.mul (of_int (Z.of_nat i)) dn)
      <$> seq 0 (Z.to_nat (N + 1)) in
  let index := to_int <$> index in
  set_last index (Z.of_nat len).


End Binary64.


(** * Part II: properties *)

(** ** Slices and [rotate] *)

Section PyFacts.

Lemma slice_from_drop {A} (k : nat) (l : list A) :
  (k <= length l)%nat -> slice_from (Z.of_nat k) l = drop k l.
Proof.
  intros Hk. unfold slice_from, slice, slice_bound.
  destruct (Z.ltb_spec (Z.of_nat k) 0); [lia|].
  destruct (Z.ltb_spec (Z.of_nat (length l)) 0); [lia|].
  rewrite Z.min_id, (Z.min_l (Z.of_nat k)) by lia.
  rewrite Nat2Z.id.
  apply take_ge. rewrite length_drop. lia.
Qed.

Lemma slice_to_take {A} (k : nat) (l : list A) :
  (k <= length l)%nat -> slice_to (Z.of_nat k) l = take k l.
Proof.
  intros Hk. unfold slice_to, slice, slice_bound.
  destruct (Z.ltb_spec 0 0); [lia|].
  destruct (Z.ltb_spec (Z.of_nat k) 0); [lia|].
  rewrite (Z.min_l 0), (Z.min_l (Z.of_nat k)) by lia.
  rewrite Z.sub_0_r, Nat2Z.id. reflexivity.
Qed.

End PyFacts.

Lemma rotate_rotl {A} (l : list A) (n : Z) :
  l <> [] ->
  rotate l n = rotl (Z.to_nat ((- n) mod Z.of_nat (length l))) l.
Proof.
  intros Hl. unfold rotate, rotl.
  destruct l as [|a l]; [congruence|]. cbn [length Nat.eqb].
  set (L := Z.of_nat (S (length l))).
  assert (HL : 0 < L) by (unfold L; lia).
  pose proof (Z.mod_pos_bound (- n) L HL) as Hb.
  set (k := (- n) mod L) in *.
  rewrite <- (Z2Nat.id k) at 1 2 by lia.
  rewrite slice_from_drop, slice_to_take by (cbn [length]; lia).
  reflexivity.
Qed.

Lemma length_rotl {A} (k : nat) (l : list A) : length (rotl k l) = length l.
Proof.
  unfold rotl. rewrite length_app, length_drop, length_take. lia.
Qed.

Lemma rotl_0 {A} (l : list A) : rotl 0 l = l.
Proof. unfold rotl. cbn. apply app_nil_r. Qed.

Lemma rotl_complement {A} (k k' : nat) (l : list A) :
  (k + k' = length l)%nat -> rotl k' (rotl k l) = l.
Proof.
  intros H. unfold rotl.
  assert (Hd : length (drop k l) = k') by (rewrite length_drop; lia).
  rewrite <- Hd at 1. rewrite drop_app_length.
  rewrite <- Hd. rewrite take_app_length.
  apply take_drop.
Qed.

Lemma length_rotate {A} (l : list A) (n : Z) :
  length (rotate l n) = length l.
Proof.
  destruct l as [|a l]; [reflexivity|].
  rewrite rotate_rotl by discriminate. apply length_rotl.
Qed.

(** Positive [n] moves the last [n] elements to the front; [n] may be
    negative or exceed the length. *)
Example rotate_right_2 : rotate [1; 2; 3; 4; 5] 2 = [4; 5; 1; 2; 3].
Proof. reflexivity. Qed.

Example rotate_left_1 : rotate [1; 2; 3; 4; 5] (-1) = [2; 3; 4; 5; 1].
Proof. reflexivity. Qed.

Example rotate_beyond_length : rotate [1; 2; 3] 7 = [3; 1; 2].
Proof. reflexivity. Qed.

(** C5: rotating by [n] and then by [-n] gives the sequence back, for
    every sequence and every integer [n] (negative, or beyond the length);
    rotating by 0 is the identity; the empty sequence rotates to itself. *)
Theorem rotate_inverse_zero_empty :
  forall (A : Type) (seq : list A) (n : Z),
    rotate (rotate seq n) (- n) = seq
    /\ rotate seq 0 = seq
    /\ rotate (@nil A) n = @nil A.
Proof.
  intros A seq n. split; [|split]; [| |reflexivity].
  - destruct seq as [|a seq]; [reflexivity|].
    assert (Hne : rotate (a :: seq) n <> []).
    { intros E. apply (f_equal length) in E.
      rewrite length_rotate in E. discriminate. }
    rewrite (rotate_rotl _ (- n) Hne), length_rotate.
    rewrite (rotate_rotl (a :: seq) n) by discriminate.
    set (L := Z.of_nat (length (a :: seq))).
    assert (HL : 0 < L) by (unfold L; cbn [length]; lia).
    rewrite Z.opp_involutive.
    destruct (Z.eq_dec (n mod L) 0) as [E0|E0].
    + rewrite (Z.mod_opp_l_z n L) by lia. rewrite E0.
      cbn [Z.to_nat]. rewrite !rotl_0. reflexivity.
    + rewrite (Z.mod_opp_l_nz n L) by lia.
      pose proof (Z.mod_pos_bound n L HL).
      apply rotl_complement. unfold L in *. lia.
  - destruct seq as [|a seq]; [reflexivity|].
    rewrite rotate_rotl by discriminate.
    cbn [Z.opp]. rewrite Z.mod_0_l by (cbn [length]; lia).
    apply rotl_0.
Qed.

(** ** The numeric helpers *)

Section NpFacts.

Local Open Scope R_scope.

Lemma Int_part_spec (r : R) (z : Z) :
  IZR z <= r < IZR z + 1 -> Int_part r = z.
Proof.
  intros [H1 H2]. destruct (base_Int_part r) as [H3 H4].
  assert (Ha : (Int_part r < z + 1)%Z).
  { apply lt_IZR. rewrite plus_IZR. lra. }
  assert (Hb : (z < Int_part r + 1)%Z).
  { apply lt_IZR. rewrite plus_IZR. lra. }
  lia.
Qed.

Lemma Int_part_IZR (z : Z) : Int_part (IZR z) = z.
Proof. apply Int_part_spec. lra. Qed.

Lemma trunc_spec (r : R) (z : Z) :
  0 <= r -> IZR z <= r < IZR z + 1 -> trunc r = z.
Proof.
  intros H0 H. unfold trunc.
  destruct (Rle_dec 0 r); [|contradiction]. now apply Int_part_spec.
Qed.

Lemma map_Rmult_1 (l : list R) : map (Rmult 1) l = l.
Proof.
  induction l as [|a l IH]; [reflexivity|].
  cbn [map]. rewrite IH, Rmult_1_l. reflexivity.
Qed.

Lemma insert_sorted_perm (x : R) (l : list R) :
  Permutation (insert_sorted x l) (x :: l).
Proof.
  induction l as [|y t IH]; [reflexivity|].
  cbn [insert_sorted]. destruct (Rle_dec x y); [reflexivity|].
  rewrite IH. apply perm_swap.
Qed.

Lemma sort_perm (l : list R) : Permutation (sort l) l.
Proof.
  induction l as [|a l IH]; [reflexivity|].
  cbn [sort foldr]. fold (sort l).
  rewrite insert_sorted_perm. now constructor.
Qed.

Lemma insert_sorted_sorted (x : R) (l : list R) :
  StronglySorted Rle l -> StronglySorted Rle (insert_sorted x l).
Proof.
  induction 1 as [|y t Ht IH Hy]; cbn [insert_sorted].
  - repeat constructor.
  - destruct (Rle_dec x y) as [Hxy|Hxy].
    + constructor; [constructor; assumption|].
      constructor; [assumption|].
      eapply Forall_impl; [exact Hy|]. cbn. intros; lra.
    + constructor; [assumption|].
      rewrite (insert_sorted_perm x t).
      constructor; [lra|assumption].
Qed.

Lemma sort_sorted (l : list R) : StronglySorted Rle (sort l).
Proof.
  induction l as [|a l IH]; [constructor|].
  cbn [sort foldr]. fold (sort l). now apply insert_sorted_sorted.
Qed.

End NpFacts.

(** ** [unique] and [NumberOfBitsUsed] *)

Section Unique.

Local Open Scope R_scope.

Lemma slice_drop_last {A} (l : list A) :
  slice 0 (-1) l = take (length l - 1) l.
Proof.
  unfold slice, slice_bound. cbn [Z.ltb Z.compare].
  rewrite (Z.min_l 0) by lia. cbn [Z.to_nat drop].
  rewrite Z.sub_0_r. f_equal. lia.
Qed.

Lemma unique_of_sorted_rec (c : list R) :
  unique_of_sorted c = keep_before_larger c.
Proof.
  unfold unique_of_sorted. rewrite slice_drop_last.
  induction c as [|a c IH]; [reflexivity|].
  destruct c as [|b c]; [reflexivity|].
  change (length (a :: b :: c) - 1)%nat with (S (length c)).
  change (length (b :: c) - 1)%nat with (length c - 0)%nat in IH.
  rewrite Nat.sub_0_r in IH.
  cbn [diff map take compress keep_before_larger].
  cbn [diff map] in IH. rewrite IH. unfold positive_b.
  destruct (Rlt_dec 0 (b - a)), (Rlt_dec a b); try reflexivity; lra.
Qed.

Lemma unique_eq (h : heap) (data : loc) (d : list R) :
  h !! data = Some d ->
  unique h data =
    Some (<[fresh (dom h) := sort (map (Rmult 1) d)]> h,
          unique_of_sorted (sort (map (Rmult 1) d))).
Proof.
  intros Hd. unfold unique, alloc. rewrite Hd. cbn.
  rewrite alter_insert_eq, lookup_insert_eq. cbn.
  reflexivity.
Qed.

Lemma fresh_not_allocated (h : heap) : h !! fresh (dom h) = None.
Proof. apply not_elem_of_dom. apply is_fresh. Qed.

Lemma levels_cons2 (a b : R) (c : list R) :
  levels (a :: b :: c) =
    if Rlt_dec a b then a :: levels (b :: c) else levels (b :: c).
Proof. reflexivity. Qed.

Lemma keep_before_larger_cons2 (a b : R) (c : list R) :
  keep_before_larger (a :: b :: c) =
    if Rlt_dec a b then a :: keep_before_larger (b :: c)
    else keep_before_larger (b :: c).
Proof. reflexivity. Qed.

Lemma levels_keep (c : list R) :
  c <> [] -> levels c = keep_before_larger c ++ [List.last c 0].
Proof.
  induction c as [|a c IH]; [congruence|]. intros _.
  destruct c as [|b c]; [reflexivity|].
  change (List.last (a :: b :: c) 0) with (List.last (b :: c) 0).
  rewrite levels_cons2, keep_before_larger_cons2.
  destruct (Rlt_dec a b); rewrite IH by discriminate; reflexivity.
Qed.

Lemma levels_elem_of (c : list R) (v : R) :
  StronglySorted Rle c -> v ∈ levels c <-> v ∈ c.
Proof.
  induction 1 as [|a c Hc IH Ha]; [reflexivity|].
  destruct c as [|b c]; [reflexivity|].
  rewrite levels_cons2. destruct (Rlt_dec a b) as [Hab|Hab].
  - rewrite !(elem_of_cons _ v a), IH. reflexivity.
  - assert (a = b).
    { apply Forall_cons in Ha as [Ha _]. lra. }
    subst b. rewrite IH, !elem_of_cons. tauto.
Qed.

Lemma levels_sorted (c : list R) :
  StronglySorted Rle c -> StronglySorted Rlt (levels c).
Proof.
  induction 1 as [|a c Hc IH Ha]; [constructor|].
  destruct c as [|b c]; [repeat constructor|].
  rewrite levels_cons2. destruct (Rlt_dec a b) as [Hab|Hab]; [|assumption].
  constructor; [assumption|].
  apply Forall_forall. intros v Hv.
  apply (levels_elem_of _ _ Hc) in Hv.
  apply StronglySorted_inv in Hc as [_ Hbc].
  apply elem_of_cons in Hv as [->|Hv]; [assumption|].
  rewrite Forall_forall in Hbc. specialize (Hbc v Hv). lra.
Qed.

Lemma last_elem_of (c : list R) : c <> [] -> List.last c 0 ∈ c.
Proof.
  induction c as [|a c IH]; [congruence|]. intros _.
  destruct c as [|b c]; [apply list_elem_of_here|].
  change (List.last (a :: b :: c) 0) with (List.last (b :: c) 0).
  apply list_elem_of_further, IH. discriminate.
Qed.

Lemma last_greatest (c : list R) (v : R) :
  StronglySorted Rle c -> v ∈ c -> v <= List.last c 0.
Proof.
  induction 1 as [|a c Hc IH Ha]; intros Hv; [inversion Hv|].
  destruct c as [|b c].
  - apply list_elem_of_singleton in Hv. subst. cbn. lra.
  - change (List.last (a :: b :: c) 0) with (List.last (b :: c) 0).
    apply elem_of_cons in Hv as [->|Hv]; [|now apply IH].
    rewrite Forall_forall in Ha.
    apply Ha, last_elem_of. discriminate.
Qed.

(** On a sorted array the kept elements are strictly increasing, and they
    are the values of the array below its largest one. *)
Lemma keep_before_larger_sorted (c : list R) :
  StronglySorted Rle c -> StronglySorted Rlt (keep_before_larger c).
Proof.
  intros Hc. destruct c as [|a c]; [constructor|].
  apply levels_sorted in Hc. rewrite levels_keep in Hc by discriminate.
  eapply StronglySorted_app_1_l, Hc.
Qed.

Lemma keep_before_larger_elem_of (c : list R) (v : R) :
  StronglySorted Rle c ->
  v ∈ keep_before_larger c <-> v ∈ c /\ exists w, w ∈ c /\ v < w.
Proof.
  intros Hc. destruct c as [|a c].
  { cbn. split; [intros H; inversion H|intros [H _]; inversion H]. }
  pose proof (levels_sorted _ Hc) as Hs.
  pose proof (levels_elem_of _ v Hc) as Hin.
  rewrite levels_keep in Hs, Hin by discriminate.
  set (m := List.last (a :: c) 0) in *.
  assert (Hm : m ∈ a :: c) by (apply last_elem_of; discriminate).
  split.
  - intros Hv. split.
    + apply Hin, elem_of_app. now left.
    + exists m. split; [assumption|].
      eapply (StronglySorted_app_1_elem_of _ _ _ v m) in Hs;
        [assumption|assumption|apply list_elem_of_here].
  - intros [Hv [w [Hw Hvw]]].
    apply Hin, elem_of_app in Hv as [Hv|Hv]; [assumption|].
    apply list_elem_of_singleton in Hv. subst v.
    pose proof (last_greatest _ w Hc Hw). fold m in H. lra.
Qed.

Lemma sort_of_sorted (l : list R) : StronglySorted Rle l -> sort l = l.
Proof.
  induction 1 as [|a l Hl IH Ha]; [reflexivity|].
  cbn [sort foldr]. fold (sort l). rewrite IH.
  destruct l as [|b l]; [reflexivity|]. cbn [insert_sorted].
  apply Forall_cons in Ha as [Hab _].
  destruct (Rle_dec a b); [reflexivity|contradiction].
Qed.

End Unique.

(** Case analysis on the comparisons of concrete reals. *)
Ltac real_cases :=
  repeat match goal with
    | |- context [Rlt_dec ?a ?b] =>
        destruct (Rlt_dec a b); [try (exfalso; lra)|try (exfalso; lra)]
    | |- context [Rle_dec ?a ?b] =>
        destruct (Rle_dec a b); [try (exfalso; lra)|try (exfalso; lra)]
    | |- context [Req_dec_T ?a ?b] =>
        destruct (Req_dec_T a b); [try (exfalso; lra)|try (exfalso; lra)]
    end.

(** C3: [unique] of [[1,1,2,2,2,3]] is [[1,2]].  In general the result is
    read off a sorted copy of the input: an element is kept when its
    successor in the copy is strictly larger, so the members of the final
    run (the largest value) are dropped; the kept values are strictly
    increasing and are the values of the input below its maximum.  The
    copy is a new array: every array that existed before the call, the
    input among them, has the contents it had. *)
Theorem unique_drops_last_run :
  forall (h : heap) (data : loc) (d : list R),
    h !! data = Some d ->
    exists (h' : heap) (copy : list R),
      unique h data = Some (h', keep_before_larger copy)
      /\ copy ≡ₚ d
      /\ StronglySorted Rle copy
      /\ StronglySorted Rlt (keep_before_larger copy)
      /\ (forall v : R, v ∈ keep_before_larger copy <->
                        v ∈ d /\ exists w, w ∈ d /\ (v < w)%R)
      /\ (forall l : loc, is_Some (h !! l) -> h' !! l = h !! l)
      /\ h' !! data = Some d
      /\ (d = [1; 1; 2; 2; 2; 3]%R -> keep_before_larger copy = [1; 2]%R).
Proof.
  intros h data d Hd.
  exists (<[fresh (dom h) := sort (map (Rmult 1) d)]> h), (sort d).
  rewrite (unique_eq h data d Hd), unique_of_sorted_rec, map_Rmult_1.
  assert (Hfr : forall l, is_Some (h !! l) ->
            <[fresh (dom h) := sort d]> h !! l = h !! l).
  { intros l [x Hx]. apply lookup_insert_ne. intros E. subst l.
    rewrite fresh_not_allocated in Hx. discriminate. }
  split; [reflexivity|].
  split; [apply sort_perm|].
  split; [apply sort_sorted|].
  split; [apply keep_before_larger_sorted, sort_sorted|].
  split.
  { intros v. rewrite keep_before_larger_elem_of by apply sort_sorted.
    pose proof (sort_perm d) as Hp.
    split; intros [Hv [w [Hw Hvw]]]; (split; [|exists w; split; [|exact Hvw]]).
    - now rewrite <- Hp.
    - now rewrite <- Hp.
    - now rewrite Hp.
    - now rewrite Hp. }
  split; [exact Hfr|].
  split; [rewrite Hfr by (rewrite Hd; eauto); exact Hd|].
  intros ->. rewrite sort_of_sorted.
  - cbn [keep_before_larger]. real_cases. reflexivity.
  - repeat (constructor; [|repeat (constructor; try lra)]). constructor.
Qed.

(** The call of C3 on a store holding only the input array. *)
Lemma unique_drops_last_run_witness :
  exists h' : heap,
    unique {[1%positive := [1; 1; 2; 2; 2; 3]%R]} 1%positive
      = Some (h', [1; 2]%R)
    /\ h' !! 1%positive = Some [1; 1; 2; 2; 2; 3]%R.
Proof.
  destruct (unique_drops_last_run
              {[1%positive := [1; 1; 2; 2; 2; 3]%R]} 1%positive
              [1; 1; 2; 2; 2; 3]%R (lookup_singleton_eq _ _))
    as (h' & copy & Hu & _ & _ & _ & _ & _ & Hd & Hex).
  exists h'. rewrite <- (Hex eq_refl). split; assumption.
Defined.

Section Bits.

Local Open Scope R_scope.

Lemma strictly_sorted_NoDup (l : list R) : StronglySorted Rlt l -> NoDup l.
Proof.
  induction 1 as [|a l Hl IH Ha]; constructor; [|assumption].
  intros Hin. rewrite Forall_forall in Ha. specialize (Ha a Hin). lra.
Qed.

(** [unique] returns one value less than the input has. *)
Lemma unique_count (d vs : list R) :
  d <> [] -> NoDup vs -> (forall v, v ∈ d <-> v ∈ vs) ->
  (length (keep_before_larger (sort d)) + 1 = length vs)%nat.
Proof.
  intros Hd Hvs Hiff.
  assert (Hs : sort d <> []).
  { intros E. pose proof (sort_perm d) as Hp. rewrite E in Hp.
    apply Permutation_nil in Hp. contradiction. }
  pose proof (levels_keep _ Hs) as Hk.
  assert (Hp : levels (sort d) ≡ₚ vs).
  { apply NoDup_Permutation; [|assumption|].
    - apply strictly_sorted_NoDup, levels_sorted, sort_sorted.
    - intros v. rewrite levels_elem_of by apply sort_sorted.
      rewrite <- Hiff. now rewrite (sort_perm d). }
  apply Permutation_length in Hp. rewrite Hk, length_app in Hp.
  exact Hp.
Qed.

Lemma ln_2_pos : 0 < ln 2.
Proof. pose proof ln_lt_2. lra. Qed.

Lemma log_of_pos (x : R) : 0 < x -> log x = Fin (ln x).
Proof. intros Hx. unfold log. destruct (Rlt_dec 0 x); [reflexivity|lra]. Qed.

Lemma log_ratio (x : R) :
  0 < x -> fdiv (log x) (log 2) = Fin (ln x / ln 2).
Proof.
  intros Hx. rewrite !log_of_pos by lra. cbn [fdiv].
  pose proof ln_2_pos.
  destruct (Req_dec_T (ln 2) 0); [lra|reflexivity].
Qed.

Lemma ln_3_not_two_bits : ln 3 / ln 2 <> 2.
Proof.
  intros E. pose proof ln_2_pos as H2.
  assert (E' : ln 3 = ln (2 * 2)).
  { rewrite ln_mult by lra.
    apply (Rmult_eq_compat_r (ln 2)) in E.
    unfold Rdiv in E. rewrite Rmult_assoc, Rinv_l, Rmult_1_r in E by lra.
    lra. }
  apply ln_inv in E'; lra.
Qed.

Lemma NumberOfBitsUsed_eq (h : heap) (data : loc) (d : list R) :
  h !! data = Some d ->
  NumberOfBitsUsed h data =
    Some (<[fresh (dom h) := sort (map (Rmult 1) d)]> h,
          fdiv (log (1 * INR (length (keep_before_larger (sort d)))))
               (log 2)).
Proof.
  intros Hd. unfold NumberOfBitsUsed.
  rewrite (unique_eq h data d Hd). cbn.
  rewrite unique_of_sorted_rec, map_Rmult_1. reflexivity.
Qed.

End Bits.

(** C2, as the code behaves: on data with exactly four distinct values
    [unique] returns three of them (all but the largest), so
    [NumberOfBitsUsed] is [log(3)/log(2)], which is not 2. *)
Theorem NumberOfBitsUsed_four_levels :
  forall (h : heap) (data : loc) (d vs : list R),
    h !! data = Some d ->
    NoDup vs -> length vs = 4%nat -> (forall v : R, v ∈ d <-> v ∈ vs) ->
    exists h' : heap,
      NumberOfBitsUsed h data = Some (h', Fin (ln 3 / ln 2)%R)
      /\ Fin (ln 3 / ln 2)%R <> Fin 2%R.
Proof.
  intros h data d vs Hd Hnd Hlen Hiff.
  eexists. split.
  - rewrite (NumberOfBitsUsed_eq h data d Hd).
    assert (Hne : d <> []).
    { intros ->. destruct vs as [|v vs]; [discriminate|].
      specialize (Hiff v). rewrite elem_of_nil in Hiff.
      apply Hiff, list_elem_of_here. }
    pose proof (unique_count d vs Hne Hnd Hiff) as Hc.
    assert (Hk : length (keep_before_larger (sort d)) = 3%nat) by lia.
    rewrite Hk.
    replace (1 * INR 3)%R with 3%R by (cbn; lra).
    rewrite log_ratio by lra. reflexivity.
  - intros E. injection E. apply ln_3_not_two_bits.
Qed.

(** The failing input of C2: the four levels 1, 2, 3, 4. *)
Lemma NumberOfBitsUsed_four_levels_witness :
  exists h' : heap,
    NumberOfBitsUsed {[1%positive := [1; 2; 3; 4]%R]} 1%positive
      = Some (h', Fin (ln 3 / ln 2)%R)
    /\ Fin (ln 3 / ln 2)%R <> Fin 2%R.
Proof.
  apply (NumberOfBitsUsed_four_levels
           {[1%positive := [1; 2; 3; 4]%R]} 1%positive
           [1; 2; 3; 4]%R [1; 2; 3; 4]%R (lookup_singleton_eq _ _)).
  - repeat (constructor;
            [rewrite ?elem_of_cons, elem_of_nil; intros H;
             repeat destruct H as [H|H]; try lra; exact H|]).
    constructor.
  - reflexivity.
  - intros v. reflexivity.
Defined.

(** ** [resamp] and [resample] *)

Section ResampLin.

Local Open Scope R_scope.

(** The loop that fills [result] writes each of its cells once. *)
Lemma foldl_insert_seq (f : nat -> R) (r0 : list R) (k : nat) :
  (k <= length r0)%nat ->
  foldl (fun r i => <[i := f i]> r) r0 (seq 0 k)
    = (f <$> seq 0 k) ++ drop k r0.
Proof.
  induction k as [|k IH]; intros Hk; [reflexivity|].
  rewrite seq_S, foldl_app, fmap_app. cbn [foldl fmap list_fmap Nat.add].
  rewrite IH by lia.
  assert (Hlen : length (f <$> seq 0 k) = k)
    by now rewrite length_fmap, length_seq.
  rewrite <- Hlen at 1. rewrite <- (Nat.add_0_r (length _)).
  rewrite insert_app_r.
  destruct (drop k r0) as [|a t] eqn:Hd.
  - apply (f_equal length) in Hd. rewrite length_drop in Hd.
    cbn in Hd. lia.
  - cbn. rewrite <- app_assoc. cbn. do 2 f_equal.
    change t with (drop 1 (a :: t)). rewrite <- Hd, drop_drop.
    f_equal. lia.
Qed.

Lemma getitem_nat {A} `{!Inhabited A} (l : list A) (i : nat) :
  (i < length l)%nat -> getitem l (Z.of_nat i) = Returns (l !!! i).
Proof.
  intros Hi. unfold getitem.
  destruct (Z.ltb_spec (Z.of_nat i) 0); [lia|].
  destruct (Z.leb_spec 0 (Z.of_nat i)); [|lia].
  destruct (Z.ltb_spec (Z.of_nat i) (Z.of_nat (length l))); [|lia].
  cbn. now rewrite Nat2Z.id.
Qed.

Lemma slice_take_drop {A} (lo hi : Z) (l : list A) :
  (0 <= lo <= hi)%Z -> (hi <= Z.of_nat (length l))%Z ->
  slice lo hi l = take (Z.to_nat (hi - lo)) (drop (Z.to_nat lo) l).
Proof.
  intros H1 H2. unfold slice, slice_bound.
  destruct (Z.ltb_spec lo 0); [lia|].
  destruct (Z.ltb_spec hi 0); [lia|].
  rewrite !Z.min_l by lia. reflexivity.
Qed.

(** Truncation of [i * (len/N)] is the integer quotient [i*len / N]. *)
Lemma trunc_lin_edge (i L : nat) (N : Z) :
  (0 < N)%Z ->
  trunc (INR i * (1 * INR L / IZR N))
    = (Z.of_nat i * Z.of_nat L / N)%Z.
Proof.
  intros HN.
  set (p := (Z.of_nat i * Z.of_nat L)%Z).
  assert (Hp : INR i * (1 * INR L / IZR N) = IZR p / IZR N).
  { unfold p. rewrite mult_IZR, <- !INR_IZR_INZ. field.
    apply not_0_IZR. lia. }
  rewrite Hp.
  assert (HNr : 0 < IZR N) by (apply IZR_lt; lia).
  assert (H0 : (0 <= p)%Z) by (unfold p; lia).
  pose proof (Z.div_mod p N ltac:(lia)) as Hdm.
  pose proof (Z.mod_pos_bound p N HN) as [Hm1 Hm2].
  assert (Hreal : IZR p = IZR N * IZR (p / N) + IZR (p mod N)).
  { rewrite <- mult_IZR, <- plus_IZR. now f_equal. }
  apply IZR_le in Hm1. apply IZR_lt in Hm2.
  assert (Hq : IZR p / IZR N = IZR (p / N) + IZR (p mod N) / IZR N).
  { rewrite Hreal. field. lra. }
  assert (Hf1 : 0 <= IZR (p mod N) / IZR N).
  { apply Rmult_le_pos; [lra|]. left. now apply Rinv_0_lt_compat. }
  assert (Hf2 : IZR (p mod N) / IZR N < 1).
  { apply (Rmult_lt_reg_r (IZR N)); [lra|].
    unfold Rdiv. rewrite Rmult_assoc, Rinv_l by lra. lra. }
  apply trunc_spec.
  - rewrite Hq. apply Rplus_le_le_0_compat; [|lra].
    apply IZR_le. apply Z.div_pos; lia.
  - rewrite Hq. lra.
Qed.

Lemma set_last_nonempty {A} (l : list A) (v : A) :
  l <> [] -> set_last l v = Returns (<[(length l - 1)%nat := v]> l).
Proof. destruct l; [congruence|reflexivity]. Qed.

Lemma lin_edge_last (L : nat) (N : Z) :
  (0 < N)%Z -> lin_edge L N (Z.to_nat N) = Z.of_nat L.
Proof.
  intros HN. unfold lin_edge. rewrite Z2Nat.id by lia.
  rewrite Z.mul_comm. apply Z.div_mul. lia.
Qed.

Lemma lin_edge_mono (L : nat) (N : Z) (i j : nat) :
  (0 < N)%Z -> (i <= j)%nat -> (lin_edge L N i <= lin_edge L N j)%Z.
Proof.
  intros HN Hij. unfold lin_edge. apply Z.div_le_mono; [lia|].
  apply Z.mul_le_mono_nonneg_r; lia.
Qed.

(** With fewer bins than samples every bin holds at least one sample. *)
Lemma lin_edge_step (L : nat) (N : Z) (i : nat) :
  (0 < N < Z.of_nat L)%Z -> (lin_edge L N i < lin_edge L N (S i))%Z.
Proof.
  intros HN. unfold lin_edge.
  set (p := (Z.of_nat i * Z.of_nat L)%Z).
  replace (Z.of_nat (S i) * Z.of_nat L)%Z with (p + Z.of_nat L)%Z
    by (unfold p; lia).
  assert (H : (p / N + 1 <= (p + Z.of_nat L) / N)%Z).
  { rewrite <- (Z.div_add p 1 N) by lia.
    apply Z.div_le_mono; lia. }
  lia.
Qed.

Lemma lin_edge_0 (L : nat) (N : Z) : lin_edge L N 0 = 0%Z.
Proof. unfold lin_edge. rewrite Z.mul_0_l. apply Zdiv_0_l. Qed.

Lemma lin_index_eq (L : nat) (N : Z) :
  (0 < N)%Z ->
  lin_index L N (1 * INR L / IZR N)
    = Returns (lin_edge L N <$> seq 0 (Z.to_nat (N + 1))).
Proof.
  intros HN. unfold lin_index, arange.
  assert (Hext : trunc <$> ((fun v => v * (1 * INR L / IZR N)) <$>
                   ((fun i : nat => INR i) <$> seq 0 (Z.to_nat (N + 1))))
                 = lin_edge L N <$> seq 0 (Z.to_nat (N + 1))).
  { rewrite <- !list_fmap_compose.
    apply list_fmap_ext. intros _ i _. cbn.
    now apply trunc_lin_edge. }
  rewrite Hext.
  rewrite set_last_nonempty.
  - f_equal. apply list_insert_id.
    rewrite length_fmap, length_seq, list_lookup_fmap.
    replace (Z.to_nat (N + 1) - 1)%nat with (Z.to_nat N) by lia.
    rewrite lookup_seq_lt by lia. cbn.
    now rewrite lin_edge_last.
  - intros E. apply (f_equal length) in E.
    rewrite length_fmap, length_seq in E. cbn in E. lia.
Qed.

Lemma lookup_total_fmap_seq (f : nat -> Z) (n i : nat) :
  (i < n)%nat -> (f <$> seq 0 n) !!! i = f i.
Proof.
  intros Hi. apply list_lookup_total_correct.
  rewrite list_lookup_fmap, lookup_seq_lt by lia. reflexivity.
Qed.

Lemma fill_lin_eq (y : list R) (N : Z) :
  (0 < N < Z.of_nat (length y))%Z ->
  fill_lin y (lin_edge (length y) N <$> seq 0 (Z.to_nat (N + 1))) N
           (replicate (Z.to_nat N) 0)
    = bin_mean y N <$> seq 0 (Z.to_nat N).
Proof.
  intros HN. unfold fill_lin.
  rewrite (foldl_insert_seq
             (fun i => average (slice
                ((lin_edge (length y) N <$> seq 0 (Z.to_nat (N + 1))) !!! i)
                ((lin_edge (length y) N <$> seq 0 (Z.to_nat (N + 1))) !!! S i)
                y)))
    by (rewrite length_replicate; lia).
  rewrite drop_ge by (rewrite length_replicate; lia).
  rewrite app_nil_r.
  apply list_fmap_ext. intros j i Hi.
  apply lookup_seq in Hi as [-> Hi]. cbn [Nat.add].
  rewrite !lookup_total_fmap_seq by lia.
  unfold bin_mean. f_equal. apply slice_take_drop.
  - split.
    + rewrite <- (lin_edge_0 (length y) N).
      apply lin_edge_mono; lia.
    + apply lin_edge_mono; lia.
  - rewrite <- (lin_edge_last (length y) N) by lia.
    apply lin_edge_mono; lia.
Qed.

Lemma resamp_lin_eq (x : list R) (N : Z) :
  (0 < N < Z.of_nat (length x))%Z ->
  resamp x N "lin" = Returns (bin_mean x N <$> seq 0 (Z.to_nat N)).
Proof.
  intros HN. unfold resamp.
  destruct (Z.leb_spec (Z.of_nat (length x)) N); [lia|].
  cbn [String.eqb Ascii.eqb Bool.eqb]. unfold zeros, float_div_int.
  destruct (Z.ltb_spec N 0); [lia|].
  destruct (Z.eqb_spec N 0); [lia|]. cbn [mbind outcome_bind].
  rewrite lin_index_eq by lia. cbn [mbind outcome_bind].
  now rewrite fill_lin_eq.
Qed.

Lemma getitem_last {A} `{!Inhabited A} (l : list A) :
  l <> [] -> getitem l (-1) = Returns (l !!! (length l - 1)%nat).
Proof.
  intros Hl. unfold getitem.
  assert (0 < length l)%nat by (destruct l; [congruence|cbn; lia]).
  cbn [Z.ltb Z.compare].
  destruct (Z.leb_spec 0 (-1 + Z.of_nat (length l))); [|lia].
  destruct (Z.ltb_spec (-1 + Z.of_nat (length l)) (Z.of_nat (length l)));
    [|lia].
  cbn [andb]. do 2 f_equal. lia.
Qed.

Lemma resample_lin_eq (x y : list R) (N : Z) :
  length x = length y ->
  (0 < N < Z.of_nat (length y))%Z ->
  resample x y N "lin"
    = ([], Returns [lin_axis x N; bin_mean y N <$> seq 0 (Z.to_nat N)]).
Proof.
  intros Hxy HN. unfold resample.
  rewrite Hxy, Nat.eqb_refl. cbn [negb].
  destruct (Z.leb_spec (Z.of_nat (length y)) N); [lia|].
  cbn [String.eqb Ascii.eqb Bool.eqb]. f_equal.
  assert (Hx : x <> []) by (intros ->; cbn in Hxy; lia).
  rewrite getitem_last by assumption.
  rewrite (getitem_nat x 0) by lia.
  unfold zeros, float_div_int.
  destruct (Z.ltb_spec N 0); [lia|].
  destruct (Z.eqb_spec N 0); [lia|]. cbn [mbind outcome_bind].
  rewrite lin_index_eq by lia. cbn [mbind outcome_bind].
  now rewrite fill_lin_eq.
Qed.

End ResampLin.

(** Evaluation of the closed integer expressions that index an array. *)
Ltac eval_indices :=
  repeat match goal with
    | |- context [Z.to_nat ?e] =>
        let v := eval vm_compute in (Z.to_nat e) in
        progress change (Z.to_nat e) with v
    end.









Lemma resamp_passthrough (x : list R) (N : Z) (type : string) :
  Z.of_nat (length x) <= N -> resamp x N type = Returns x.
Proof.
  intros H. unfold resamp.
  destruct (Z.leb_spec (Z.of_nat (length x)) N); [reflexivity|lia].
Qed.

Lemma resample_passthrough (x y : list R) (N : Z) (type : string) :
  length x = length y -> Z.of_nat (length y) <= N ->
  resample x y N type = ([], Returns [x; y]).
Proof.
  intros Hxy H. unfold resample.
  rewrite Hxy, Nat.eqb_refl. cbn [negb].
  destruct (Z.leb_spec (Z.of_nat (length y)) N); [reflexivity|lia].
Qed.

(** C9: a source no longer than the target length is returned unchanged,
    whatever the mode: [resamp] returns [x], and [resample], for paired
    inputs of equal length, returns [[x, y]] without printing. *)
Theorem resamp_resample_identity :
  forall (x y : list R) (N : Z) (type : string),
    (Z.of_nat (length x) <= N -> resamp x N type = Returns x)
    /\ (length x = length y -> Z.of_nat (length y) <= N ->
        resample x y N type = ([], Returns [x; y])).
Proof.
  intros x y N type. split.
  - apply resamp_passthrough.
  - apply resample_passthrough.
Qed.

(** C9 at three samples and a target length of 5, for a mode that does
    not exist. *)
Lemma resamp_resample_identity_witness :
  resamp [1; 2; 3]%R 5 "cubic" = Returns [1; 2; 3]%R
  /\ resample [1; 2; 3]%R [4; 5; 6]%R 5 "cubic"
      = ([], Returns [[1; 2; 3]%R; [4; 5; 6]%R]).
Proof.
  destruct (resamp_resample_identity [1; 2; 3]%R [4; 5; 6]%R 5 "cubic")
    as [H1 H2].
  split; [apply H1; cbn; lia|apply H2; [reflexivity|cbn; lia]].
Defined.

(** C7 as stated fails: with arrays of different lengths [resample]
    prints its message and returns the empty list, it does not fail.
    Nor are a length mismatch and an unknown mode the only ways to make it
    fail: a target length of 0 raises in linear mode. *)
Lemma resample_mismatch_returns_sentinel :
  resample [1]%R [1; 2]%R 5 "lin"
    = (["x and y need to be equally long"%string], Returns [])
  /\ ~ is_raise (snd (resample [1]%R [1; 2]%R 5 "lin"))
  /\ resample [1]%R [1]%R 0 "lin" = ([], Raises ZeroDivisionError).
Proof.
  split; [reflexivity|]. split; [|reflexivity].
  cbn. tauto.
Qed.

(** C7 as the code has it: arrays of different lengths make [resample]
    print 'x and y need to be equally long' and return the empty list,
    for every [N] and mode.  With equal lengths the mode is looked at only
    when [len(y) > N]: an unknown mode then prints 'type unknown!' and no
    resampled pair is returned, while for [len(y) <= N] the inputs come
    back as [[x, y]] whatever the mode.  With equal lengths, mode 'lin'
    and [1 <= N < len(y)] the call prints nothing and returns two arrays
    of [N] entries. *)
Theorem resample_error_reporting :
  forall (x y : list R) (N : Z) (type : string),
    (length x <> length y ->
       resample x y N type
         = (["x and y need to be equally long"%string], Returns []))
    /\ (length x = length y -> Z.of_nat (length y) <= N ->
        resample x y N type = ([], Returns [x; y]))
    /\ (length x = length y -> N < Z.of_nat (length y) ->
        type <> "lin"%string -> type <> "log"%string ->
        fst (resample x y N type) = ["type unknown!"%string]
        /\ forall rx ry : list R,
             snd (resample x y N type) <> Returns [rx; ry])
    /\ (length x = length y -> 1 <= N < Z.of_nat (length y) ->
        exists rx ry : list R,
          resample x y N "lin" = ([], Returns [rx; ry])
          /\ length rx = Z.to_nat N /\ length ry = Z.to_nat N).
Proof.
  intros x y N type. split; [|split; [|split]].
  - intros Hne. unfold resample.
    destruct (Nat.eqb_spec (length x) (length y)); [contradiction|].
    reflexivity.
  - intros Hxy HN.
    now apply resample_passthrough.
  - intros Hxy HN Hlin Hlog. unfold resample.
    rewrite Hxy, Nat.eqb_refl. cbn [negb].
    destruct (Z.leb_spec (Z.of_nat (length y)) N); [lia|].
    destruct (String.eqb_spec type "lin"); [contradiction|].
    destruct (String.eqb_spec type "log"); [contradiction|].
    split; [reflexivity|]. intros rx ry. discriminate.
  - intros Hxy HN.
    exists (lin_axis x N), (bin_mean y N <$> seq 0 (Z.to_nat N)).
    split; [apply resample_lin_eq; [assumption|lia]|].
    unfold lin_axis, arange.
    rewrite !length_fmap, !length_seq. split; reflexivity.
Qed.

(** C7 at arrays of one and two samples. *)
Lemma resample_error_reporting_witness :
  resample [1]%R [1; 2]%R 5 "lin"
    = (["x and y need to be equally long"%string], Returns []).
Proof.
  apply (resample_error_reporting [1]%R [1; 2]%R 5 "lin").
  cbn [length]. lia.
Defined.

(** ** [make_phase_continuous] *)

Section PhaseFacts.

Local Open Scope R_scope.

Lemma alter_allocated (f : list R -> list R) (h : heap) (l : loc)
    (p : list R) :
  h !! l = Some p -> alter f l h = <[l := f p]> h.
Proof.
  intros Hp. apply map_eq. intros j.
  destruct (decide (l = j)) as [->|Hne].
  - now rewrite lookup_alter_eq, lookup_insert_eq, Hp.
  - now rewrite lookup_alter_ne, lookup_insert_ne.
Qed.

Lemma foldl_alter (h : heap) (l : loc) (p : list R) (idx : list nat) :
  h !! l = Some p ->
  foldl (fun h i => alter (fun a => unwrap_step a i) l h) h idx
    = <[l := foldl unwrap_step p idx]> h.
Proof.
  revert h p. induction idx as [|i idx IH]; intros h p Hp.
  - cbn. symmetry. now apply insert_id.
  - cbn [foldl]. rewrite (alter_allocated _ h l p Hp).
    rewrite (IH _ (unwrap_step p i)) by apply lookup_insert_eq.
    apply insert_insert_eq.
Qed.

Lemma make_phase_continuous_eq (h : heap) (phi : loc) (p : list R) :
  h !! phi = Some p ->
  make_phase_continuous h phi
    = Some (<[phi := unwrap_scan p (length p - 1)]> h).
Proof.
  intros Hp. unfold make_phase_continuous. rewrite Hp. cbn.
  now rewrite (foldl_alter h phi p _ Hp).
Qed.

Lemma unwrap_scan_S (p : list R) (k : nat) :
  unwrap_scan p (S k) = unwrap_step (unwrap_scan p k) k.
Proof. unfold unwrap_scan. now rewrite seq_S, foldl_app. Qed.

Lemma length_unwrap_step (p : list R) (i : nat) :
  length (unwrap_step p i) = length p.
Proof. apply length_insert. Qed.

Lemma length_unwrap_scan (p : list R) (k : nat) :
  length (unwrap_scan p k) = length p.
Proof.
  induction k as [|k IH]; [reflexivity|].
  now rewrite unwrap_scan_S, length_unwrap_step.
Qed.

(** An iteration writes the cell after its index and no other. *)
Lemma unwrap_step_other (p : list R) (i j : nat) :
  j <> S i -> unwrap_step p i !! j = p !! j.
Proof. intros Hj. apply list_lookup_insert_ne. congruence. Qed.

Lemma unwrap_scan_first (p : list R) (k : nat) :
  unwrap_scan p k !! 0%nat = p !! 0%nat.
Proof.
  induction k as [|k IH]; [reflexivity|].
  rewrite unwrap_scan_S, unwrap_step_other by discriminate. exact IH.
Qed.

(** The remainder lies in [[0, b)]. *)
Lemma float_mod_range (a b : R) : 0 < b -> 0 <= float_mod a b < b.
Proof.
  intros Hb. unfold float_mod.
  destruct (base_Int_part (a / b)) as [H1 H2].
  assert (Ha : a = b * (a / b)) by (field; lra).
  set (q := IZR (Int_part (a / b))) in *.
  assert (Hlo : b * q <= b * (a / b))
    by (apply Rmult_le_compat_l; lra).
  assert (Hhi : b * (a / b) < b * (q + 1))
    by (apply Rmult_lt_compat_l; lra).
  rewrite <- Ha in Hlo, Hhi. lra.
Qed.

(** The step added to [phi[i]] lies in [(-pi, pi]]. *)
Lemma wrapped_step_range (r : R) :
  let dphi := float_mod r (2 * PI) in
  let dphi := if Rlt_dec PI dphi then dphi - 2 * PI else dphi in
  - PI < dphi <= PI.
Proof.
  pose proof PI_RGT_0 as Hpi.
  pose proof (float_mod_range r (2 * PI) ltac:(lra)) as Hm.
  cbv zeta. destruct (Rlt_dec PI (float_mod r (2 * PI))); lra.
Qed.

Lemma unwrap_step_diff (p : list R) (i : nat) :
  (S i < length p)%nat ->
  - PI < unwrap_step p i !!! S i - unwrap_step p i !!! i <= PI.
Proof.
  intros Hi. unfold unwrap_step.
  rewrite list_lookup_total_insert_eq by lia.
  rewrite list_lookup_total_insert_ne by lia.
  pose proof (wrapped_step_range (p !!! S i - p !!! i)) as H.
  cbv zeta in H. lra.
Qed.

Lemma unwrap_step_total_other (p : list R) (i j : nat) :
  j <> S i -> unwrap_step p i !!! j = p !!! j.
Proof. intros Hj. apply list_lookup_total_insert_ne. congruence. Qed.

(** After [k] iterations the first [k] differences are in range. *)
Lemma unwrap_scan_diffs (p : list R) (k i : nat) :
  (k < length p)%nat -> (i < k)%nat ->
  - PI < unwrap_scan p k !!! S i - unwrap_scan p k !!! i <= PI.
Proof.
  induction k as [|k IH]; intros Hk Hi; [lia|].
  rewrite unwrap_scan_S.
  destruct (decide (i = k)) as [->|Hne].
  - apply unwrap_step_diff. rewrite length_unwrap_scan. lia.
  - rewrite !unwrap_step_total_other by lia. apply IH; lia.
Qed.

End PhaseFacts.

Section PhaseExample.

Local Open Scope R_scope.

Lemma float_mod_small (a b : R) : 0 <= a < b -> float_mod a b = a.
Proof.
  intros [H0 Hb]. unfold float_mod.
  assert (Hq : Int_part (a / b) = 0%Z).
  { apply Int_part_spec. split.
    - apply Rmult_le_pos; [lra|]. left. apply Rinv_0_lt_compat. lra.
    - apply (Rmult_lt_reg_r b); [lra|].
      unfold Rdiv. rewrite Rmult_assoc, Rinv_l by lra. lra. }
  rewrite Hq. lra.
Qed.

Lemma PI_gt_3 : 3 < PI.
Proof. pose proof PI2_3_2. lra. Qed.

(** Both steps of [[0, 3, 6]] are 3, which is below [pi]: the scan
    writes back the values it finds. *)
Lemma unwrap_scan_0_3_6 : unwrap_scan [0; 3; 6] 2 = [0; 3; 6].
Proof.
  pose proof PI_gt_3 as Hpi.
  unfold unwrap_scan. cbn [seq foldl].
  assert (H0 : unwrap_step [0; 3; 6] 0 = [0; 3; 6]).
  { unfold unwrap_step. cbn [lookup_total list_lookup_total].
    rewrite float_mod_small by lra.
    destruct (Rlt_dec PI (3 - 0)); [lra|].
    cbn. do 2 f_equal. lra. }
  rewrite H0.
  unfold unwrap_step. cbn [lookup_total list_lookup_total].
  rewrite float_mod_small by lra.
  destruct (Rlt_dec PI (6 - 3)); [lra|].
  cbn. do 3 f_equal. lra.
Qed.

End PhaseExample.

(** C8: for an array of at least two phases, after
    [make_phase_continuous] every difference [phi[i+1]-phi[i]] of the
    array lies in [(-pi, pi]]; on [[0, 3.0, 6.0]] both differences are 3
    and the array keeps its values. *)
Theorem make_phase_continuous_steps_in_range :
  forall (h : heap) (phi : loc) (p : list R),
    h !! phi = Some p -> (2 <= length p)%nat ->
    exists (h' : heap) (p' : list R),
      make_phase_continuous h phi = Some h'
      /\ h' !! phi = Some p'
      /\ length p' = length p
      /\ (forall i : nat, (S i < length p')%nat ->
            (- PI < p' !!! S i - p' !!! i <= PI)%R)
      /\ (p = [0; 3; 6]%R -> p' = [0; 3; 6]%R).
Proof.
  intros h phi p Hp Hlen.
  exists (<[phi := unwrap_scan p (length p - 1)]> h),
         (unwrap_scan p (length p - 1)).
  split; [now apply make_phase_continuous_eq|].
  split; [apply lookup_insert_eq|].
  split; [apply length_unwrap_scan|].
  split.
  - intros i Hi. rewrite length_unwrap_scan in Hi.
    apply unwrap_scan_diffs; lia.
  - intros ->. apply unwrap_scan_0_3_6.
Qed.

(** C8 on the array [[0, 3.0, 6.0]]. *)
Lemma make_phase_continuous_steps_in_range_witness :
  exists (h' : heap) (p' : list R),
    make_phase_continuous {[1%positive := [0; 3; 6]%R]} 1%positive = Some h'
    /\ h' !! 1%positive = Some p'
    /\ (forall i : nat, (S i < length p')%nat ->
          (- PI < p' !!! S i - p' !!! i <= PI)%R).
Proof.
  destruct (make_phase_continuous_steps_in_range
              {[1%positive := [0; 3; 6]%R]} 1%positive [0; 3; 6]%R
              (lookup_singleton_eq _ _))
    as (h' & p' & H1 & H2 & _ & H3 & _).
  - cbn [length]. lia.
  - exists h', p'. repeat split; try assumption; now apply H3.
Defined.

(** C10: [make_phase_continuous] never writes [phi[0]].  Iteration [k]
    of the loop, [k = 0 .. len(phi)-2], changes cell [k+1] and no other,
    so the first cell holds its original value after every iteration and
    at the end; the length of the array and all other arrays are
    untouched. *)
Theorem make_phase_continuous_keeps_first :
  forall (h : heap) (phi : loc) (p : list R),
    h !! phi = Some p ->
    exists (h' : heap) (p' : list R),
      make_phase_continuous h phi = Some h'
      /\ h' !! phi = Some p'
      /\ p' = unwrap_scan p (length p - 1)
      /\ p' !! 0%nat = p !! 0%nat
      /\ length p' = length p
      /\ (forall k : nat, unwrap_scan p k !! 0%nat = p !! 0%nat)
      /\ (forall (a : list R) (k j : nat),
            j <> S k -> unwrap_step a k !! j = a !! j)
      /\ (forall l : loc, l <> phi -> h' !! l = h !! l).
Proof.
  intros h phi p Hp.
  exists (<[phi := unwrap_scan p (length p - 1)]> h),
         (unwrap_scan p (length p - 1)).
  split; [now apply make_phase_continuous_eq|].
  split; [apply lookup_insert_eq|].
  split; [reflexivity|].
  split; [apply unwrap_scan_first|].
  split; [apply length_unwrap_scan|].
  split; [apply unwrap_scan_first|].
  split; [apply unwrap_step_other|].
  intros l Hl. apply lookup_insert_ne. congruence.
Qed.

(** C10 on an array whose second phase is rewritten. *)
Lemma make_phase_continuous_keeps_first_witness :
  exists (h' : heap) (p' : list R),
    make_phase_continuous {[1%positive := [1; 5; 2]%R]} 1%positive = Some h'
    /\ h' !! 1%positive = Some p'
    /\ p' !! 0%nat = Some 1%R.
Proof.
  destruct (make_phase_continuous_keeps_first
              {[1%positive := [1; 5; 2]%R]} 1%positive [1; 5; 2]%R
              (lookup_singleton_eq _ _))
    as (h' & p' & H1 & H2 & _ & H3 & _).
  exists h', p'. repeat split; assumption.
Defined.

(** ** [halfwidth] *)

Section CxFacts.

Local Open Scope R_scope.

Lemma Cmod_RtoC (r : R) : 0 <= r -> Cmod (RtoC r) = r.
Proof.
  intros Hr. unfold Cmod, RtoC. cbn [fst snd].
  replace (r * r + 0 * 0) with (r * r) by lra. now apply sqrt_square.
Qed.

End CxFacts.

Section DemodFacts.

Local Open Scope R_scope.

Lemma argmax_cons_spec (v : R) (t : list R) :
  let l := v :: t in
  let m := argmax_cons v t in
  (m < length l)%nat
  /\ (forall (j : nat) (w : R), l !! j = Some w -> w <= l !!! m)
  /\ (forall (j : nat) (w : R), (j < m)%nat -> l !! j = Some w ->
        w < l !!! m).
Proof.
  revert v. induction t as [|w t IH]; intros v; cbv zeta.
  - cbn [argmax_cons length]. split; [lia|]. split.
    + intros [|j] u Hj; cbn in Hj; [|discriminate].
      injection Hj as <-. cbn. lra.
    + intros j u Hj. lia.
  - specialize (IH w). cbv zeta in IH. destruct IH as (Hm & Hmax & Hfirst).
    cbn [argmax_cons].
    set (m := argmax_cons w t) in *.
    destruct (Rlt_dec v ((w :: t) !!! m)) as [Hlt|Hge].
    + change ((v :: w :: t) !!! S m) with ((w :: t) !!! m).
      split; [cbn [length] in *; lia|]. split.
      * intros [|j] u Hj; cbn in Hj.
        -- injection Hj as <-. lra.
        -- apply (Hmax j u Hj).
      * intros [|j] u Hjm Hj; cbn in Hj.
        -- injection Hj as <-. exact Hlt.
        -- apply (Hfirst j u); [lia|exact Hj].
    + change ((v :: w :: t) !!! 0%nat) with v.
      split; [cbn [length]; lia|]. split.
      * intros [|j] u Hj; cbn in Hj.
        -- injection Hj as <-. lra.
        -- specialize (Hmax j u Hj). lra.
      * intros j u Hj. lia.
Qed.

(** For [x >= 1] the integer part of [log(x)/log(2)] is the binary
    logarithm of [x]. *)
Lemma trunc_log2 (x : Z) :
  (0 < x)%Z -> trunc (ln (IZR x) / ln 2) = Z.log2 x.
Proof.
  intros Hx.
  pose proof (Z.log2_spec x Hx) as [Hlo Hhi].
  pose proof (Z.log2_nonneg x) as Hk.
  set (k := Z.log2 x) in *.
  pose proof ln_2_pos as H2.
  assert (Hpow : forall n : nat, ln (IZR (2 ^ Z.of_nat n)) = INR n * ln 2).
  { intros n. rewrite <- pow_IZR. apply ln_pow. lra. }
  assert (Hxr : 0 < IZR x) by (apply IZR_lt; lia).
  assert (Hlo' : IZR k * ln 2 <= ln (IZR x)).
  { rewrite <- (Z2Nat.id k) at 1 by lia.
    rewrite <- INR_IZR_INZ, <- Hpow, Z2Nat.id by lia.
    assert (Hp : 0 < IZR (2 ^ k))
      by (apply IZR_lt; apply Z.pow_pos_nonneg; lia).
    apply IZR_le in Hlo. destruct Hlo as [Hlt|Heq].
    - left. now apply ln_increasing.
    - rewrite Heq. lra. }
  assert (Hhi' : ln (IZR x) < (IZR k + 1) * ln 2).
  { replace (IZR k + 1) with (IZR (Z.succ k))
      by (rewrite succ_IZR; reflexivity).
    rewrite <- (Z2Nat.id (Z.succ k)) by lia.
    rewrite <- INR_IZR_INZ, <- Hpow, Z2Nat.id by lia.
    apply ln_increasing; [assumption|]. apply IZR_lt. lia. }
  assert (Hq1 : IZR k <= ln (IZR x) / ln 2).
  { apply (Rmult_le_reg_r (ln 2)); [assumption|].
    unfold Rdiv. rewrite Rmult_assoc, Rinv_l by lra. lra. }
  assert (Hq2 : ln (IZR x) / ln 2 < IZR k + 1).
  { apply (Rmult_lt_reg_r (ln 2)); [assumption|].
    unfold Rdiv. rewrite Rmult_assoc, Rinv_l by lra. lra. }
  apply trunc_spec; [|split; assumption].
  apply Rle_trans with (IZR k); [apply IZR_le; lia|assumption].
Qed.

Lemma log_ratio_zero : fdiv (log 0) (log 2) = NegInf.
Proof.
  unfold log. destruct (Rlt_dec 0 0); [lra|].
  destruct (Req_dec_T 0 0); [|lra].
  pose proof ln_2_pos.
  destruct (Rlt_dec 0 2); [|lra]. cbn [fdiv].
  destruct (Rle_dec 0 (ln 2)); [reflexivity|lra].
Qed.

Lemma log_ratio_negative (x : R) : x < 0 -> fdiv (log x) (log 2) = NaN.
Proof.
  intros Hx. unfold log. destruct (Rlt_dec 0 x); [lra|].
  destruct (Req_dec_T x 0); [lra|]. reflexivity.
Qed.

End DemodFacts.

Section Halfwidth.

Local Open Scope R_scope.

(** [halfwidth] once the position of the peak is known. *)
Lemma halfwidth_eq (spec : list C) (maxpos : nat) :
  argmax (Cmod <$> slice 0 ((Z.of_nat (length spec) + 1) / 2) spec)
    = Returns maxpos ->
  let x := Z.min (Z.of_nat maxpos)
                 (Z.of_nat (length spec) / 2 - 1 - Z.of_nat maxpos) in
  halfwidth spec =
    (if (x =? 0)%Z then ["halfwidth: Error: Maximum is at f=0"%string]
     else [],
     e ← py_int (fdiv (log (IZR x)) (log 2)); Returns (2 ^ e)%Z).
Proof. intros H. unfold halfwidth. rewrite H. reflexivity. Qed.

(** The magnitudes searched for the peak are the first [(N+1)/2]. *)
Lemma searched_half (spec : list C) :
  slice 0 ((Z.of_nat (length spec) + 1) / 2) spec
    = take (Z.to_nat ((Z.of_nat (length spec) + 1) / 2)) spec.
Proof.
  set (len := Z.of_nat (length spec)).
  assert (H : (0 <= (len + 1) / 2 <= len)%Z).
  { unfold len. split; [apply Z.div_pos; lia|].
    apply Z.lt_succ_r. apply Z.div_lt_upper_bound; lia. }
  rewrite slice_take_drop by (unfold len in *; lia).
  rewrite Z.sub_0_r. reflexivity.
Qed.

End Halfwidth.

(** C6 as stated fails: the spectrum of five bins with its peak at bin 2
    has [x = min(2, 5/2-1-2) = -1], which is not 0, and [halfwidth] does
    not return a power of two: [log(-1)] is [nan] and [int(nan)] raises. *)
Lemma halfwidth_peak_past_half_raises :
  argmax (Cmod <$> slice 0 ((5 + 1) / 2) (RtoC <$> [0; 0; 1; 0; 0]%R))
    = Returns 2%nat
  /\ Z.min 2 (5 / 2 - 1 - 2) = -1
  /\ halfwidth (RtoC <$> [0; 0; 1; 0; 0]%R) = ([], Raises ValueError)
  /\ ~ (exists p : Z,
          snd (halfwidth (RtoC <$> [0; 0; 1; 0; 0]%R)) = Returns p).
Proof.
  assert (Ha : argmax (Cmod <$> slice 0
                 ((Z.of_nat (length (RtoC <$> [0; 0; 1; 0; 0]%R)) + 1) / 2)
                 (RtoC <$> [0; 0; 1; 0; 0]%R)) = Returns 2%nat).
  { rewrite searched_half. cbn [fmap list_fmap length].
    eval_indices. cbn [take firstn fmap list_fmap].
    rewrite !Cmod_RtoC by lra.
    cbn [argmax argmax_cons lookup_total list_lookup_total].
    destruct (Rlt_dec 0 1) as [H01|H01]; [|lra].
    cbn [lookup_total list_lookup_total].
    destruct (Rlt_dec 0 1); [reflexivity|lra]. }
  assert (Hh : halfwidth (RtoC <$> [0; 0; 1; 0; 0]%R)
               = ([], Raises ValueError)).
  { rewrite (halfwidth_eq _ _ Ha). cbn [fmap list_fmap length].
    change (Z.min (Z.of_nat 2) (Z.of_nat 5 / 2 - 1 - Z.of_nat 2)) with (-1).
    cbn [Z.eqb]. rewrite log_ratio_negative by lra. reflexivity. }
  split; [exact Ha|]. split; [reflexivity|]. split; [exact Hh|].
  rewrite Hh. intros [p Hp]. discriminate Hp.
Qed.

(** The message for [x = 0] does not need the peak at bin 0: with four
    bins and the peak at bin 1, [x = min(1, 4/2-1-1) = 0]. *)
Example halfwidth_peak_at_bin_1_of_4 :
  halfwidth (RtoC <$> [0; 1; 0; 0]%R)
    = (["halfwidth: Error: Maximum is at f=0"%string], Raises OverflowError).
Proof.
  assert (Ha : argmax (Cmod <$> slice 0
                 ((Z.of_nat (length (RtoC <$> [0; 1; 0; 0]%R)) + 1) / 2)
                 (RtoC <$> [0; 1; 0; 0]%R)) = Returns 1%nat).
  { rewrite searched_half. cbn [fmap list_fmap length].
    eval_indices. cbn [take firstn fmap list_fmap].
    rewrite !Cmod_RtoC by lra.
    cbn [argmax argmax_cons lookup_total list_lookup_total].
    destruct (Rlt_dec 0 1); [reflexivity|lra]. }
  rewrite (halfwidth_eq _ _ Ha). cbn [fmap list_fmap length].
  change (Z.min (Z.of_nat 1) (Z.of_nat 4 / 2 - 1 - Z.of_nat 1)) with 0.
  cbn [Z.eqb]. now rewrite log_ratio_zero.
Qed.

(** C6 as the code has it: for a non-empty spectrum of [N] bins,
    [maxpos] is the first position of the largest magnitude among
    [spec[0:(N+1)/2]] and [x = min(maxpos, N/2-1-maxpos)].  For [x = 0]
    (the peak at bin 0 of at least two bins, or at bin [N/2-1]) the
    message is printed and the call goes on into [int(-inf)], which
    raises; for [x < 0] (the peak past bin [N/2-1]) it raises without a
    message; for [x >= 1] it prints nothing and returns the largest power
    of two that is at most [x]. *)
Theorem halfwidth_power_of_two :
  forall spec : list C,
    spec <> [] ->
    let len := Z.of_nat (length spec) in
    let mags := Cmod <$> slice 0 ((len + 1) / 2) spec in
    exists maxpos : nat,
      argmax mags = Returns maxpos
      /\ Z.of_nat maxpos < (len + 1) / 2
      /\ (forall (j : nat) (w : R),
            mags !! j = Some w -> (w <= mags !!! maxpos)%R)
      /\ (forall (j : nat) (w : R), (j < maxpos)%nat ->
            mags !! j = Some w -> (w < mags !!! maxpos)%R)
      /\ let x := Z.min (Z.of_nat maxpos)
                        (len / 2 - 1 - Z.of_nat maxpos) in
         (x = 0 <-> (maxpos = 0%nat /\ 2 <= len)
                    \/ Z.of_nat maxpos = len / 2 - 1)
         /\ (x < 0 <-> len / 2 - 1 < Z.of_nat maxpos)
         /\ (x = 0 ->
            halfwidth spec =
              (["halfwidth: Error: Maximum is at f=0"%string],
               Raises OverflowError))
         /\ (x < 0 -> halfwidth spec = ([], Raises ValueError))
         /\ (0 < x ->
             exists k : Z,
               0 <= k
               /\ halfwidth spec = ([], Returns (2 ^ k))
               /\ 2 ^ k <= x < 2 ^ (k + 1)).
Proof.
  intros spec Hne len mags.
  assert (Hlen : 0 < len).
  { unfold len. destruct spec; [congruence|]. cbn [length]. lia. }
  assert (Hh : 1 <= (len + 1) / 2 <= len).
  { split; [apply Z.div_le_lower_bound; lia|].
    apply Z.div_le_upper_bound; lia. }
  assert (Hmags : length mags = Z.to_nat ((len + 1) / 2)).
  { unfold mags, len in *. rewrite searched_half, length_fmap, length_take.
    lia. }
  destruct mags as [|v t] eqn:Em; [cbn in Hmags; lia|].
  exists (argmax_cons v t).
  destruct (argmax_cons_spec v t) as (Hm & Hmax & Hfirst).
  split; [reflexivity|].
  split; [rewrite Hmags in Hm; lia|].
  split; [exact Hmax|]. split; [exact Hfirst|].
  assert (Ha : argmax (Cmod <$> slice 0
             ((Z.of_nat (length spec) + 1) / 2) spec)
           = Returns (argmax_cons v t)).
  { fold len. fold mags in Em. unfold mags in Em. now rewrite Em. }
  pose proof (halfwidth_eq spec _ Ha) as He. cbv zeta in He.
  fold len in He. cbv zeta.
  set (x := Z.min (Z.of_nat (argmax_cons v t))
                  (len / 2 - 1 - Z.of_nat (argmax_cons v t))) in *.
  pose proof (Z.mul_div_le len 2 ltac:(lia)) as Hq1.
  pose proof (Z.mul_succ_div_gt len 2 ltac:(lia)) as Hq2.
  rewrite He. split; [|split; [|split; [|split]]].
  - unfold x. lia.
  - unfold x. lia.
  - intros ->. cbn [Z.eqb]. now rewrite log_ratio_zero.
  - intros Hx. destruct (Z.eqb_spec x 0); [lia|].
    rewrite log_ratio_negative by (apply IZR_lt; lia). reflexivity.
  - intros Hx. destruct (Z.eqb_spec x 0); [lia|].
    exists (Z.log2 x). split; [apply Z.log2_nonneg|].
    rewrite log_ratio by (apply IZR_lt; lia).
    cbn [py_int mbind outcome_bind]. rewrite trunc_log2 by lia.
    split; [reflexivity|].
    pose proof (Z.log2_spec x Hx). now rewrite <- Z.add_1_r in *.
Qed.

(** C6 on a spectrum of eight bins with its peak at bin 2: [x = 1] and
    the half width is 1. *)
Lemma halfwidth_power_of_two_witness :
  exists maxpos : nat,
    argmax (Cmod <$> slice 0 ((8 + 1) / 2)
              (RtoC <$> [0; 0; 1; 0; 0; 0; 0; 0]%R)) = Returns maxpos
    /\ Z.of_nat maxpos < (8 + 1) / 2.
Proof.
  destruct (halfwidth_power_of_two (RtoC <$> [0; 0; 1; 0; 0; 0; 0; 0]%R))
    as (maxpos & H1 & H2 & _).
  - discriminate.
  - exists maxpos. split; [exact H1|exact H2].
Defined.

(** ** [spectrum] and [ispectrum] *)

Section SpectralFacts.

Local Open Scope R_scope.

(** *** Complex arithmetic *)

Ltac by_components :=
  apply injective_projections; cbn [fst snd Cplus Cmult Cminus RtoC
    Cdiv_real Cmult_real cis]; try (field; assumption); try ring.

Lemma Cplus_0_l (z : C) : Cplus (RtoC 0) z = z.
Proof. destruct z. by_components. Qed.

Lemma Cplus_0_r (z : C) : Cplus z (RtoC 0) = z.
Proof. destruct z. by_components. Qed.

Lemma Cplus_comm (z w : C) : Cplus z w = Cplus w z.
Proof. by_components. Qed.

Lemma Cplus_assoc (u v w : C) : Cplus u (Cplus v w) = Cplus (Cplus u v) w.
Proof. by_components. Qed.

Lemma Cmult_plus_distr_l (u v w : C) :
  Cmult u (Cplus v w) = Cplus (Cmult u v) (Cmult u w).
Proof. by_components. Qed.

Lemma Cmult_plus_distr_r (u v w : C) :
  Cmult (Cplus u v) w = Cplus (Cmult u w) (Cmult v w).
Proof. by_components. Qed.

Lemma Cmult_assoc (u v w : C) : Cmult u (Cmult v w) = Cmult (Cmult u v) w.
Proof. by_components. Qed.

Lemma Cmult_comm (z w : C) : Cmult z w = Cmult w z.
Proof. by_components. Qed.

Lemma Cmult_0_r (z : C) : Cmult z (RtoC 0) = RtoC 0.
Proof. by_components. Qed.

Lemma Cmult_1_r (z : C) : Cmult z (RtoC 1) = z.
Proof. destruct z. by_components. Qed.

Lemma cis_plus (a b : R) : cis (a + b) = Cmult (cis a) (cis b).
Proof.
  unfold cis, Cmult. cbn [fst snd]. rewrite cos_plus, sin_plus.
  f_equal; ring.
Qed.

Lemma cis_0 : cis 0 = RtoC 1.
Proof. unfold cis, RtoC. now rewrite cos_0, sin_0. Qed.

(** Whole turns. *)
Lemma cis_turns (k : nat) : cis (2 * PI * INR k) = RtoC 1.
Proof.
  unfold cis, RtoC.
  replace (2 * PI * INR k) with (0 + 2 * INR k * PI) by ring.
  now rewrite cos_period, sin_period, cos_0, sin_0.
Qed.

Lemma cis_turns_back (k : nat) : cis (- (2 * PI * INR k)) = RtoC 1.
Proof.
  pose proof (cis_turns k) as H. unfold cis, RtoC in *.
  rewrite cos_neg, sin_neg.
  injection H as Hc Hs. rewrite Hc, Hs. f_equal. ring.
Qed.

(** Less than a whole turn away from 0 the point is not 1. *)
Lemma cis_not_1 (t : R) : 0 < t < 2 * PI -> cis t <> RtoC 1.
Proof.
  intros Ht E. unfold cis, RtoC in E. injection E as Hc Hs.
  destruct (sin_eq_O_2PI_0 t) as [H|[H|H]]; try lra.
  rewrite H, cos_PI in Hc. lra.
Qed.

Lemma cis_not_1_neg (t : R) : - (2 * PI) < t < 0 -> cis t <> RtoC 1.
Proof.
  intros Ht E. apply (cis_not_1 (- t)); [lra|].
  unfold cis, RtoC in *. injection E as Hc Hs.
  rewrite cos_neg, sin_neg, Hc, Hs. f_equal. ring.
Qed.

(** No zero divisors. *)
Lemma Cmult_zero_l (z u : C) :
  Cmult z u = RtoC 0 -> u <> RtoC 0 -> z = RtoC 0.
Proof.
  destruct z as [a b], u as [c d]. unfold Cmult, RtoC. cbn [fst snd].
  intros E Hu. injection E as E1 E2.
  pose proof (Rle_0_sqr c) as Hc2. pose proof (Rle_0_sqr d) as Hd2.
  unfold Rsqr in Hc2, Hd2.
  assert (Hn : 0 < c * c + d * d).
  { destruct (Req_dec c 0) as [Hc|Hc].
    - destruct (Req_dec d 0) as [Hd|Hd].
      + subst. contradiction.
      + pose proof (Rsqr_pos_lt d Hd) as H. unfold Rsqr in H. lra.
    - pose proof (Rsqr_pos_lt c Hc) as H. unfold Rsqr in H. lra. }
  assert (Ha : a * (c * c + d * d)
               = c * (a * c - b * d) + d * (a * d + b * c)) by ring.
  assert (Hb : b * (c * c + d * d)
               = c * (a * d + b * c) - d * (a * c - b * d)) by ring.
  rewrite E1, E2 in Ha, Hb.
  replace (c * 0 + d * 0) with 0 in Ha by ring.
  replace (c * 0 - d * 0) with 0 in Hb by ring.
  apply Rmult_integral in Ha, Hb.
  destruct Ha as [->|Ha]; [|lra]. destruct Hb as [->|Hb]; [|lra].
  reflexivity.
Qed.

(** *** Finite sums *)

Lemma csum_ext (f g : nat -> C) (n : nat) :
  (forall k : nat, (k < n)%nat -> f k = g k) -> csum f n = csum g n.
Proof.
  induction n as [|n IH]; intros H; [reflexivity|].
  cbn [csum]. rewrite IH by (intros; apply H; lia).
  rewrite H by lia. reflexivity.
Qed.

Lemma csum_plus (f g : nat -> C) (n : nat) :
  csum (fun k => Cplus (f k) (g k)) n = Cplus (csum f n) (csum g n).
Proof.
  induction n as [|n IH]; cbn [csum]; [by_components|].
  rewrite IH. by_components.
Qed.

Lemma csum_zero (n : nat) : csum (fun _ => RtoC 0) n = RtoC 0.
Proof.
  induction n as [|n IH]; cbn [csum]; [reflexivity|].
  rewrite IH. by_components.
Qed.

Lemma csum_mult_l (c : C) (f : nat -> C) (n : nat) :
  csum (fun k => Cmult c (f k)) n = Cmult c (csum f n).
Proof.
  induction n as [|n IH]; cbn [csum]; [by_components|].
  rewrite IH. by_components.
Qed.

Lemma csum_mult_r (c : C) (f : nat -> C) (n : nat) :
  csum (fun k => Cmult (f k) c) n = Cmult (csum f n) c.
Proof.
  induction n as [|n IH]; cbn [csum]; [by_components|].
  rewrite IH. by_components.
Qed.

Lemma csum_swap (F : nat -> nat -> C) (n m : nat) :
  csum (fun k => csum (fun j => F j k) m) n
    = csum (fun j => csum (fun k => F j k) n) m.
Proof.
  induction n as [|n IH]; cbn [csum].
  - now rewrite csum_zero.
  - rewrite IH. now rewrite <- csum_plus.
Qed.

(** A sum with a single non-zero term. *)
Lemma csum_single (f : nat -> C) (m n : nat) :
  (m < n)%nat ->
  (forall j : nat, (j < n)%nat -> j <> m -> f j = RtoC 0) ->
  csum f n = f m.
Proof.
  induction n as [|n IH]; intros Hm Hz; [lia|].
  cbn [csum]. destruct (decide (m = n)) as [->|Hne].
  - rewrite (csum_ext f (fun _ => RtoC 0)) by (intros; apply Hz; lia).
    rewrite csum_zero. apply Cplus_0_l.
  - rewrite IH by (try lia; intros; apply Hz; lia).
    rewrite (Hz n) by lia. apply Cplus_0_r.
Qed.

Lemma csum_const_1 (n : nat) : csum (fun _ => RtoC 1) n = RtoC (INR n).
Proof.
  induction n as [|n IH]; [reflexivity|].
  cbn [csum]. rewrite IH, S_INR. by_components.
Qed.

(** The geometric sum of the powers of [cis t]. *)
Lemma csum_geometric (t : R) (n : nat) :
  Cmult (csum (fun k => cis (INR k * t)) n) (Cminus (cis t) (RtoC 1))
    = Cminus (cis (INR n * t)) (RtoC 1).
Proof.
  induction n as [|n IH].
  - cbn [csum INR]. rewrite Rmult_0_l, cis_0. by_components.
  - cbn [csum]. rewrite Cmult_plus_distr_r, IH.
    rewrite S_INR.
    replace ((INR n + 1) * t) with (INR n * t + t) by ring.
    rewrite cis_plus.
    destruct (cis (INR n * t)) as [a b], (cis t) as [c d].
    by_components.
Qed.

End SpectralFacts.

Section RoundTrip.

Local Open Scope R_scope.

Lemma lookup_total_fmap_seq_C (f : nat -> C) (n i : nat) :
  (i < n)%nat -> (f <$> seq 0 n) !!! i = f i.
Proof.
  intros Hi. apply list_lookup_total_correct.
  rewrite list_lookup_fmap, lookup_seq_lt by lia. reflexivity.
Qed.

Lemma lookup_total_fmap_C (f : C -> C) (A : list C) (k : nat) :
  (k < length A)%nat -> (f <$> A) !!! k = f (A !!! k).
Proof.
  intros Hk. apply list_lookup_total_correct.
  rewrite list_lookup_fmap, (list_lookup_lookup_total_lt A k) by lia.
  reflexivity.
Qed.

Lemma fmap_seq_eq (f : nat -> C) (a : list C) :
  (forall m : nat, (m < length a)%nat -> f m = a !!! m) ->
  f <$> seq 0 (length a) = a.
Proof.
  intros H. apply list_eq. intros i.
  rewrite list_lookup_fmap.
  destruct (decide (i < length a)%nat) as [Hi|Hi].
  - rewrite lookup_seq_lt by lia. cbn. rewrite H by lia.
    symmetry. apply list_lookup_lookup_total_lt. lia.
  - rewrite lookup_seq_ge by lia. cbn. symmetry.
    apply lookup_ge_None. lia.
Qed.

(** The sum over [k] of the products of the two kernels: [n] on the
    diagonal, 0 off it. *)
Lemma kernel_orthogonal (n m j : nat) :
  (m < n)%nat -> (j < n)%nat ->
  csum (fun k : nat =>
          Cmult (cis (- (2 * PI * INR j * INR k / INR n)))
                (cis (2 * PI * INR m * INR k / INR n))) n
    = if decide (j = m) then RtoC (INR n) else RtoC 0.
Proof.
  intros Hm Hj.
  assert (Hn : INR n <> 0) by (apply not_0_INR; lia).
  assert (Hnpos : 0 < INR n) by (apply lt_0_INR; lia).
  pose proof PI_RGT_0 as Hpi.
  set (t := 2 * PI * (INR m - INR j) / INR n).
  rewrite (csum_ext _ (fun k => cis (INR k * t))).
  2:{ intros k _. rewrite <- cis_plus. f_equal. unfold t. field.
      exact Hn. }
  destruct (decide (j = m)) as [->|Hne].
  - rewrite (csum_ext _ (fun _ => RtoC 1)).
    + apply csum_const_1.
    + intros k _. unfold t.
      replace (INR k * (2 * PI * (INR m - INR m) / INR n)) with 0
        by (field; exact Hn).
      apply cis_0.
  - apply (Cmult_zero_l _ (Cminus (cis t) (RtoC 1))).
    + rewrite csum_geometric.
      replace (INR n * t)
        with (2 * PI * INR m + - (2 * PI * INR j))
        by (unfold t; field; exact Hn).
      rewrite cis_plus, cis_turns, cis_turns_back.
      apply injective_projections; cbn; ring.
    + intros E.
      assert (E1 : cis t = RtoC 1).
      { destruct (cis t) as [c d]. unfold Cminus, RtoC in *.
        cbn [fst snd] in E. injection E as Ec Ed.
        f_equal; lra. }
      revert E1.
      assert (Hq : forall d : R, 0 < d < INR n ->
                0 < 2 * PI * d / INR n < 2 * PI).
      { intros d [Hd1 Hd2]. split.
        - apply Rmult_lt_0_compat; [nra|now apply Rinv_0_lt_compat].
        - apply (Rmult_lt_reg_r (INR n)); [assumption|].
          unfold Rdiv. rewrite Rmult_assoc, Rinv_l by assumption.
          nra. }
      destruct (lt_dec j m) as [Hlt|Hge].
      * apply cis_not_1. apply Hq.
        apply lt_INR in Hlt, Hm.
        pose proof (pos_INR j). lra.
      * assert (Hlt : (m < j)%nat) by lia.
        apply cis_not_1_neg.
        replace t with (- (2 * PI * (INR j - INR m) / INR n))
          by (unfold t; field; exact Hn).
        apply lt_INR in Hlt, Hj. pose proof (pos_INR m).
        specialize (Hq (INR j - INR m) ltac:(lra)). lra.
Qed.

Lemma length_dft (a : list C) : length (dft a) = length a.
Proof. unfold dft. now rewrite length_fmap, length_seq. Qed.

Lemma length_idft (a : list C) : length (idft a) = length a.
Proof. unfold idft. now rewrite length_fmap, length_seq. Qed.

(** The inverse transform undoes the transform. *)
Lemma idft_dft (a : list C) : idft (dft a) = a.
Proof.
  unfold idft. rewrite length_dft.
  apply fmap_seq_eq. intros m Hm.
  set (n := length a) in *.
  assert (Hn : INR n <> 0) by (apply not_0_INR; lia).
  rewrite (csum_ext _
    (fun k => csum (fun j =>
       Cmult (a !!! j)
         (Cmult (cis (- (2 * PI * INR j * INR k / INR n)))
                (cis (2 * PI * INR m * INR k / INR n)))) n)).
  2:{ intros k Hk. unfold dft. fold n.
      rewrite lookup_total_fmap_seq_C by assumption.
      rewrite <- csum_mult_r. apply csum_ext. intros j _.
      now rewrite Cmult_assoc. }
  rewrite csum_swap.
  rewrite (csum_ext _
    (fun j => Cmult (a !!! j)
                (if decide (j = m) then RtoC (INR n) else RtoC 0))).
  2:{ intros j Hj. rewrite csum_mult_l.
      now rewrite kernel_orthogonal. }
  rewrite (csum_single _ m n Hm).
  - destruct (decide (m = m)); [|congruence].
    destruct (a !!! m) as [u v].
    apply injective_projections;
      cbn [fst snd Cmult Cdiv_real RtoC]; field; exact Hn.
  - intros j _ Hne. destruct (decide (j = m)); [congruence|].
    apply Cmult_0_r.
Qed.

(** The inverse transform commutes with a division by a real. *)
Lemma idft_div_real (A : list C) (r : R) :
  idft ((fun z => Cdiv_real z r) <$> A)
    = (fun z => Cdiv_real z r) <$> idft A.
Proof.
  unfold idft. rewrite length_fmap.
  rewrite <- list_fmap_compose. apply list_fmap_ext.
  intros m i Hm. apply lookup_seq in Hm as [-> Hm]. cbn [Nat.add compose].
  set (n := length A) in *.
  rewrite (csum_ext _
    (fun k => Cmult (RtoC (/ r))
       (Cmult (A !!! k) (cis (2 * PI * INR m * INR k / INR n))))).
  2:{ intros k Hk. rewrite lookup_total_fmap_C by assumption.
      destruct (A !!! k) as [u v], (cis _) as [c d].
      apply injective_projections;
        cbn [fst snd Cmult Cdiv_real RtoC]; unfold Rdiv; ring. }
  rewrite csum_mult_l.
  destruct (csum _ n) as [u v].
  apply injective_projections;
    cbn [fst snd Cmult Cdiv_real RtoC]; unfold Rdiv; ring.
Qed.

End RoundTrip.

(** C1: over the reals the round trip is exact: for every complex
    sequence of at least one sample, and so for every real sequence read
    as complex, [ispectrum(spectrum(x))] is [x], where [spectrum] is the
    transform divided by the length and [ispectrum] the inverse transform
    multiplied by the length. *)
Theorem ispectrum_spectrum :
  forall x : list C,
    (1 <= length x)%nat ->
    (s ← spectrum x; ispectrum s) = Returns x
    /\ forall xr : list R,
         x = RtoC <$> xr ->
         (s ← spectrum (RtoC <$> xr); ispectrum s) = Returns (RtoC <$> xr).
Proof.
  intros x Hx.
  assert (H : (s ← spectrum x; ispectrum s) = Returns x).
  { unfold ispectrum, spectrum, fft, ifft.
    destruct (Nat.eqb_spec (length x) 0); [lia|].
    cbn [mbind outcome_bind].
    rewrite length_fmap, length_dft.
    destruct (Nat.eqb_spec (length x) 0); [lia|].
    cbn [mbind outcome_bind]. f_equal.
    rewrite idft_div_real, idft_dft.
    rewrite <- list_fmap_compose.
    transitivity ((fun z : C => z) <$> x); [|apply list_fmap_id].
    apply list_fmap_ext.
    intros _ [u v] _. cbn [compose].
    assert (INR (length x) <> 0)%R by (apply not_0_INR; lia).
    apply injective_projections;
      cbn [fst snd Cmult_real Cdiv_real]; field; assumption. }
  split; [exact H|]. intros xr ->. exact H.
Qed.

(** C1 on the real samples 1, 2, 3. *)
Lemma ispectrum_spectrum_witness :
  (s ← spectrum [RtoC 1; RtoC 2; RtoC 3]; ispectrum s)
    = Returns [RtoC 1; RtoC 2; RtoC 3].
Proof.
  apply (ispectrum_spectrum [RtoC 1; RtoC 2; RtoC 3]).
  cbn [length]. lia.
Defined.

(** * Part III: further properties of the code *)

(** ** [rotate] as a circular shift *)

Section RotateShift.

Lemma mod_window (x L : Z) :
  0 <= x < 2 * L -> x mod L = if x <? L then x else x - L.
Proof.
  intros Hx. destruct (Z.ltb_spec x L).
  - apply Z.mod_small. lia.
  - symmetry. apply (Z.mod_unique x L 1); lia.
Qed.

Lemma rotl_lookup {A} (k i : nat) (l : list A) :
  (k <= length l)%nat -> (i < length l)%nat ->
  rotl k l !! i
    = l !! (if (i + k <? length l)%nat then (i + k)%nat
            else (i + k - length l)%nat).
Proof.
  intros Hk Hi. unfold rotl.
  destruct (Nat.ltb_spec (i + k) (length l)) as [Hlt|Hge].
  - rewrite lookup_app_l by (rewrite length_drop; lia).
    rewrite lookup_drop. f_equal. lia.
  - rewrite lookup_app_r by (rewrite length_drop; lia).
    rewrite length_drop, lookup_take_lt by lia.
    f_equal. lia.
Qed.

Lemma rotl_rotl {A} (k k' : nat) (l : list A) :
  (k < length l)%nat -> (k' < length l)%nat ->
  rotl k' (rotl k l)
    = rotl (if (k + k' <? length l)%nat then (k + k')%nat
            else (k + k' - length l)%nat) l.
Proof.
  intros Hk Hk'. apply list_eq. intros i.
  destruct (decide (i < length l)%nat) as [Hi|Hi].
  - rewrite rotl_lookup by (rewrite ?length_rotl; lia).
    rewrite length_rotl.
    rewrite (rotl_lookup k) by (destruct (Nat.ltb_spec (i + k') (length l)); lia).
    rewrite (rotl_lookup _ i)
      by (destruct (Nat.ltb_spec (k + k') (length l)); lia).
    f_equal.
    destruct (Nat.ltb_spec (i + k') (length l)),
             (Nat.ltb_spec (k + k') (length l));
      repeat match goal with
        | |- context [(?a <? ?b)%nat] => destruct (Nat.ltb_spec a b)
        end; lia.
  - rewrite !lookup_ge_None_2 by (rewrite ?length_rotl; lia).
    reflexivity.
Qed.

Lemma rotl_perm {A} (k : nat) (l : list A) : rotl k l ≡ₚ l.
Proof.
  unfold rotl. rewrite Permutation_app_comm. now rewrite take_drop.
Qed.

End RotateShift.

(** X1: [rotate(seq, n)] is the circular shift of [seq] by [n] places to
    the right: it has the length of [seq], it is a rearrangement of
    [seq], and its element [i] is the element of [seq] at index
    [(i - n) mod len(seq)]. *)
Theorem rotate_circular_shift :
  forall (A : Type) (seq : list A) (n : Z),
    length (rotate seq n) = length seq
    /\ rotate seq n ≡ₚ seq
    /\ forall i : nat,
         (i < length seq)%nat ->
         rotate seq n !! i
           = seq !! Z.to_nat ((Z.of_nat i - n) mod Z.of_nat (length seq)).
Proof.
  intros A seq n. split; [apply length_rotate|].
  destruct seq as [|a seq]; [split; [reflexivity|]; cbn; lia|].
  rewrite rotate_rotl by discriminate.
  split; [apply rotl_perm|]. intros i Hi.
  set (L := Z.of_nat (length (a :: seq))) in *.
  assert (HL : 0 < L) by (unfold L; cbn [length]; lia).
  pose proof (Z.mod_pos_bound (- n) L HL) as Hk.
  assert (Hi' : Z.of_nat i < L) by (unfold L; lia).
  assert (HLn : length (a :: seq) = Z.to_nat L) by (unfold L; lia).
  rewrite rotl_lookup by lia.
  f_equal. rewrite HLn.
  replace (Z.of_nat i - n) with (Z.of_nat i + - n) by lia.
  rewrite <- Z.add_mod_idemp_r by lia.
  set (kn := (- n) mod L) in *.
  rewrite mod_window by lia.
  destruct (Nat.ltb_spec (i + Z.to_nat kn) (Z.to_nat L)),
           (Z.ltb_spec (Z.of_nat i + kn) L); lia.
Qed.

(** X1 on three elements shifted by one place. *)
Lemma rotate_circular_shift_witness :
  rotate [10; 20; 30] 1 !! 0%nat = Some 30.
Proof.
  destruct (rotate_circular_shift Z [10; 20; 30] 1) as (_ & _ & H).
  rewrite (H 0%nat) by (cbn [length]; lia). reflexivity.
Defined.

(** X2: two rotations compose into the rotation by the sum of their
    shifts, and a shift by a multiple of the length changes nothing. *)
Theorem rotate_compose :
  forall (A : Type) (seq : list A) (a b k : Z),
    rotate (rotate seq a) b = rotate seq (a + b)
    /\ rotate seq (a + k * Z.of_nat (length seq)) = rotate seq a.
Proof.
  intros A seq a b k.
  destruct seq as [|x seq]; [split; reflexivity|].
  set (s := x :: seq).
  assert (Hs : s <> []) by discriminate.
  set (L := Z.of_nat (length s)).
  assert (HL : 0 < L) by (unfold L, s; cbn [length]; lia).
  split.
  - assert (Hne : rotate s a <> []).
    { intros E. apply (f_equal length) in E.
      rewrite length_rotate in E. discriminate. }
    rewrite (rotate_rotl _ b Hne), length_rotate.
    rewrite !(rotate_rotl s) by assumption. fold L.
    pose proof (Z.mod_pos_bound (- a) L HL) as Ha.
    pose proof (Z.mod_pos_bound (- b) L HL) as Hb.
    assert (HLn : length s = Z.to_nat L) by (unfold L; lia).
    replace (- (a + b)) with (- a + - b) by lia.
    rewrite (Z.add_mod (- a) (- b)) by lia.
    set (ka := (- a) mod L) in *. set (kb := (- b) mod L) in *.
    rewrite rotl_rotl by lia. f_equal. rewrite HLn.
    rewrite mod_window by lia.
    destruct (Nat.ltb_spec (Z.to_nat ka + Z.to_nat kb) (Z.to_nat L)),
             (Z.ltb_spec (ka + kb) L); lia.
  - rewrite !(rotate_rotl s) by assumption. fold L. do 2 f_equal.
    replace (- (a + k * L)) with (- a + (- k) * L) by lia.
    apply Z.mod_add. lia.
Qed.

(** ** [make_f] *)

Section MakeF.

Local Open Scope R_scope.

Lemma arange_lookup (N : Z) (j : nat) :
  (Z.of_nat j < N)%Z -> arange N !! j = Some (INR j).
Proof.
  intros Hj. unfold arange.
  rewrite list_lookup_fmap, lookup_seq_lt by lia. reflexivity.
Qed.

Lemma length_arange (N : Z) : length (arange N) = Z.to_nat N.
Proof. unfold arange. now rewrite length_fmap, length_seq. Qed.

End MakeF.

(** X3: for an even number [N > 0] of points [make_f(N, fnyquist)] is the
    frequency axis in the order of the transform's bins, with step
    [df = 2*fnyquist/N]: entry [k] is [k*df] in the first half (so entry 0
    is the frequency 0) and [(k-N)*df] in the second half (so entry [N/2]
    is [-fnyquist]).  For [N = 0] the step divides by zero and the call
    raises; for [N < 0] the axis is empty. *)
Theorem make_f_bin_order :
  forall (N : Z) (fnyquist : R),
    (N = 0 -> make_f N fnyquist = Raises ZeroDivisionError)
    /\ (N < 0 -> make_f N fnyquist = Returns [])
    /\ (0 < N -> N mod 2 = 0 ->
        exists f : list R,
          make_f N fnyquist = Returns f
          /\ length f = Z.to_nat N
          /\ forall k : nat,
               Z.of_nat k < N ->
               f !! k = Some (if Z.of_nat k <? N / 2
                              then IZR (Z.of_nat k) * (2 * fnyquist / IZR N)
                              else IZR (Z.of_nat k - N)
                                   * (2 * fnyquist / IZR N))%R).
Proof.
  intros N fn. split; [|split].
  - intros ->. reflexivity.
  - intros HN. unfold make_f, float_div_int.
    destruct (Z.eqb_spec N 0); [lia|]. cbn [mbind outcome_bind].
    unfold arange. rewrite Z2Nat.nonpos by lia. reflexivity.
  - intros HN Heven. unfold make_f, float_div_int.
    destruct (Z.eqb_spec N 0); [lia|]. cbn [mbind outcome_bind].
    set (df := (2 * fn / IZR N)%R).
    set (arr := (fun v : R => (df * v - fn)%R) <$> arange N).
    assert (Hlen : length arr = Z.to_nat N)
      by (unfold arr; now rewrite length_fmap, length_arange).
    exists (rotate arr (- N / 2)).
    split; [reflexivity|]. split; [now rewrite length_rotate|].
    intros k Hk.
    assert (Harr : arr <> [])
      by (intros E; rewrite E in Hlen; cbn in Hlen; lia).
    rewrite rotate_rotl by assumption. rewrite Hlen, Z2Nat.id by lia.
    set (m := N / 2).
    assert (Hm : N = 2 * m)
      by (unfold m; pose proof (Z.div_mod N 2 ltac:(lia)); lia).
    assert (Hshift : (- (- N / 2)) mod N = m).
    { replace (- N) with ((- m) * 2) by lia.
      rewrite Z.div_mul by lia. rewrite Z.opp_involutive.
      apply Z.mod_small. lia. }
    rewrite Hshift, rotl_lookup by lia. rewrite Hlen.
    assert (HNr : IZR N <> 0%R) by (apply not_0_IZR; lia).
    assert (Hmr : IZR N = (2 * IZR m)%R)
      by (rewrite Hm at 1; now rewrite mult_IZR).
    unfold arr. rewrite list_lookup_fmap.
    destruct (Nat.ltb_spec (k + Z.to_nat m) (Z.to_nat N)) as [H1|H1],
             (Z.ltb_spec (Z.of_nat k) m) as [H2|H2]; try lia.
    + rewrite arange_lookup by lia. cbn [fmap option_fmap option_map].
      f_equal. rewrite plus_INR, !INR_IZR_INZ, Z2Nat.id by lia.
      unfold df. rewrite Hmr. field. lra.
    + rewrite arange_lookup by lia. cbn [fmap option_fmap option_map].
      f_equal. rewrite minus_INR, plus_INR by lia.
      rewrite !INR_IZR_INZ, !Z2Nat.id by lia.
      rewrite minus_IZR. unfold df. rewrite Hmr. field. lra.
Qed.

(** X3 on four points up to the Nyquist frequency 2: the axis is
    [[0, 1, -2, -1]]. *)
Lemma make_f_bin_order_witness :
  exists f : list R,
    make_f 4 2 = Returns f
    /\ f !! 0%nat = Some (IZR 0 * (2 * 2 / IZR 4))%R
    /\ f !! 2%nat = Some (IZR (2 - 4) * (2 * 2 / IZR 4))%R.
Proof.
  destruct (make_f_bin_order 4 2) as (_ & _ & H).
  destruct H as (f & Hf & _ & Hk); [lia|reflexivity|].
  exists f. split; [exact Hf|]. split.
  - apply (Hk 0%nat). lia.
  - apply (Hk 2%nat). lia.
Defined.

(** ** [crop2power2] and [centercrop2power2] *)

Section Crop.

Lemma pow2_length_pos (len : nat) :
  (0 < len)%nat -> pow2_length len = Returns (2 ^ Z.log2 (Z.of_nat len)).
Proof.
  intros Hlen. unfold pow2_length.
  rewrite log_ratio by (apply IZR_lt; lia).
  cbn [py_int mbind outcome_bind]. now rewrite trunc_log2 by lia.
Qed.

Lemma pow2_length_0 : pow2_length 0 = Raises OverflowError.
Proof.
  unfold pow2_length. change (Z.of_nat 0) with 0.
  now rewrite log_ratio_zero.
Qed.

End Crop.

(** X4: [crop2power2] keeps the first [2^k] elements of a non-empty array,
    where [2^k] is the largest power of two that is at most the length;
    an array whose length is a power of two is returned whole.  On the
    empty array [log(0)] is [-inf] and [int] raises. *)
Theorem crop2power2_largest_prefix :
  forall (A : Type) (array : list A),
    (array = [] -> crop2power2 array = Raises OverflowError)
    /\ (array <> [] ->
        exists k : Z,
          0 <= k
          /\ 2 ^ k <= Z.of_nat (length array) < 2 ^ (k + 1)
          /\ crop2power2 array = Returns (take (Z.to_nat (2 ^ k)) array)
          /\ length (take (Z.to_nat (2 ^ k)) array) = Z.to_nat (2 ^ k)
          /\ (Z.of_nat (length array) = 2 ^ k ->
              crop2power2 array = Returns array)).
Proof.
  intros A array. split.
  - intros ->. unfold crop2power2. cbn [length].
    now rewrite pow2_length_0.
  - intros Hne.
    assert (Hlen : (0 < length array)%nat)
      by (destruct array; [congruence|cbn; lia]).
    pose proof (Z.log2_spec (Z.of_nat (length array)) ltac:(lia)) as Hs.
    pose proof (Z.log2_nonneg (Z.of_nat (length array))) as Hk.
    set (k := Z.log2 (Z.of_nat (length array))) in *.
    rewrite <- Z.add_1_r in Hs.
    assert (Hp : 0 < 2 ^ k) by (apply Z.pow_pos_nonneg; lia).
    assert (Hc : crop2power2 array = Returns (take (Z.to_nat (2 ^ k)) array)).
    { unfold crop2power2. rewrite pow2_length_pos by assumption.
      cbn [mbind outcome_bind]. fold k. f_equal.
      rewrite slice_take_drop by lia. now rewrite Z.sub_0_r. }
    exists k. split; [assumption|]. split; [assumption|].
    split; [exact Hc|]. split; [rewrite length_take; lia|].
    intros E. rewrite Hc. f_equal. apply take_ge. lia.
Qed.

(** X4 on five elements, of which four are kept. *)
Lemma crop2power2_largest_prefix_witness :
  exists k : Z,
    2 ^ k <= 5 < 2 ^ (k + 1)
    /\ crop2power2 [1; 2; 3; 4; 5]
       = Returns (take (Z.to_nat (2 ^ k)) [1; 2; 3; 4; 5]).
Proof.
  destruct (crop2power2_largest_prefix Z [1; 2; 3; 4; 5]) as [_ H].
  destruct H as (k & _ & H1 & H2 & _); [discriminate|].
  exists k. split; [exact H1|exact H2].
Defined.

(** X5: for an array of at least two elements [centercrop2power2] returns
    [2^k] consecutive elements, [2^k] the largest power of two that is at
    most the length, taken from the middle: the elements left out in
    front are as many as those left out behind, or one fewer.  An array
    of one element is cropped to the empty array ([l/2] is 0), and the
    empty array raises. *)
Theorem centercrop2power2_window :
  forall (A : Type) (array : list A),
    (array = [] -> centercrop2power2 array = Raises OverflowError)
    /\ (length array = 1%nat -> centercrop2power2 array = Returns [])
    /\ ((2 <= length array)%nat ->
        exists (k : Z) (front : nat),
          1 <= k
          /\ 2 ^ k <= Z.of_nat (length array) < 2 ^ (k + 1)
          /\ centercrop2power2 array
             = Returns (take (Z.to_nat (2 ^ k)) (drop front array))
          /\ length (take (Z.to_nat (2 ^ k)) (drop front array))
             = Z.to_nat (2 ^ k)
          /\ let behind := (length array - front - Z.to_nat (2 ^ k))%nat in
             (front + Z.to_nat (2 ^ k) + behind = length array)%nat
             /\ (behind = front \/ behind = S front)).
Proof.
  intros A array. split; [|split].
  - intros ->. unfold centercrop2power2. cbn [length].
    now rewrite pow2_length_0.
  - intros H1. unfold centercrop2power2. rewrite H1.
    rewrite pow2_length_pos by lia. cbn [mbind outcome_bind]. f_equal.
    change (Z.log2 (Z.of_nat 1)) with 0.
    replace (Z.of_nat 1 / 2 - 2 ^ 0 / 2) with 0 by reflexivity.
    replace (Z.of_nat 1 / 2 + 2 ^ 0 / 2) with 0 by reflexivity.
    rewrite slice_take_drop by lia. reflexivity.
  - intros Hlen.
    set (L := Z.of_nat (length array)).
    assert (HL : 2 <= L) by (unfold L; lia).
    pose proof (Z.log2_spec L ltac:(lia)) as Hs.
    assert (Hk : 1 <= Z.log2 L).
    { change 1 with (Z.log2 2). apply Z.log2_le_mono. lia. }
    set (k := Z.log2 L) in *.
    rewrite <- Z.add_1_r in Hs.
    assert (Hhalf : 2 ^ k = 2 * 2 ^ (k - 1)).
    { rewrite <- Z.pow_succ_r by lia. f_equal. lia. }
    assert (Hp : 0 < 2 ^ (k - 1)) by (apply Z.pow_pos_nonneg; lia).
    assert (Hd : 2 ^ k / 2 = 2 ^ (k - 1)).
    { rewrite Hhalf, Z.mul_comm. apply Z.div_mul. lia. }
    pose proof (Z.mul_div_le L 2 ltac:(lia)) as Hq1.
    pose proof (Z.mul_succ_div_gt L 2 ltac:(lia)) as Hq2.
    exists k, (Z.to_nat (L / 2 - 2 ^ (k - 1))).
    split; [assumption|]. split; [assumption|].
    assert (Hc : centercrop2power2 array
                 = Returns (take (Z.to_nat (2 ^ k))
                              (drop (Z.to_nat (L / 2 - 2 ^ (k - 1))) array))).
    { unfold centercrop2power2. rewrite pow2_length_pos by lia.
      cbn [mbind outcome_bind]. fold L. fold k. rewrite Hd. f_equal.
      rewrite slice_take_drop by (fold L; lia).
      do 2 f_equal. lia. }
    split; [exact Hc|].
    split; [rewrite length_take, length_drop; fold L; lia|].
    cbv zeta. fold L. split; lia.
Qed.

(** X5 on five elements: the four in the middle window. *)
Lemma centercrop2power2_window_witness :
  exists (k : Z) (front : nat),
    centercrop2power2 [1; 2; 3; 4; 5]
      = Returns (take (Z.to_nat (2 ^ k)) (drop front [1; 2; 3; 4; 5]))
    /\ 2 ^ k <= 5 < 2 ^ (k + 1).
Proof.
  destruct (centercrop2power2_window Z [1; 2; 3; 4; 5]) as (_ & _ & H).
  destruct H as (k & front & _ & H1 & H2 & _); [cbn [length]; lia|].
  exists k, front. split; [exact H2|exact H1].
Defined.

(** ** [integrate] *)

Section Integrate.

Local Open Scope R_scope.

Lemma foldl_alter_step (f : list R -> nat -> list R) (h : heap) (l : loc)
    (p : list R) (idx : list nat) :
  h !! l = Some p ->
  foldl (fun h i => alter (fun a => f a i) l h) h idx
    = <[l := foldl f p idx]> h.
Proof.
  revert h p. induction idx as [|i idx IH]; intros h p Hp.
  - cbn. symmetry. now apply insert_id.
  - cbn [foldl]. rewrite (alter_allocated _ h l p Hp).
    rewrite (IH _ (f p i)) by apply lookup_insert_eq.
    apply insert_insert_eq.
Qed.

Lemma add_reduce_snoc (l : list R) (a : R) :
  add_reduce (l ++ [a]) = add_reduce l + a.
Proof.
  unfold add_reduce. induction l as [|b l IH]; cbn [foldr app]; [lra|].
  rewrite IH. lra.
Qed.

Lemma add_reduce_take_S (l : list R) (k : nat) :
  (k < length l)%nat ->
  add_reduce (take (S k) l) = add_reduce (take k l) + l !!! k.
Proof.
  intros Hk.
  rewrite (take_S_r l k (l !!! k))
    by (apply list_lookup_lookup_total_lt; lia).
  apply add_reduce_snoc.
Qed.

Lemma diff_lookup (l : list R) (i : nat) :
  (S i < length l)%nat -> diff l !! i = Some (l !!! S i - l !!! i).
Proof.
  revert i. induction l as [|a l IH]; intros i Hi; [cbn in Hi; lia|].
  destruct l as [|b l]; [cbn in Hi; lia|].
  destruct i as [|i]; [reflexivity|].
  change (diff (a :: b :: l)) with ((b - a) :: diff (b :: l)).
  cbn [lookup list_lookup]. rewrite IH by (cbn [length] in *; lia).
  reflexivity.
Qed.

Lemma length_diff (l : list R) : length (diff l) = (length l - 1)%nat.
Proof.
  induction l as [|a l IH]; [reflexivity|].
  destruct l as [|b l]; [reflexivity|].
  change (diff (a :: b :: l)) with ((b - a) :: diff (b :: l)).
  cbn [length] in *. rewrite IH. lia.
Qed.

(** The array after [k] iterations. *)
Lemma integrate_scan (p : list R) (k j : nat) :
  (k < length p)%nat -> (j < length p)%nat ->
  foldl integrate_step p (seq 0 k) !!! j
    = if (j <=? k)%nat then add_reduce (take (S j) p) else p !!! j.
Proof.
  revert j. induction k as [|k IH]; intros j Hk Hj.
  - cbn [seq foldl]. destruct (Nat.leb_spec j 0); [|reflexivity].
    assert (j = 0%nat) as -> by lia.
    rewrite add_reduce_take_S by lia. rewrite take_0.
    unfold add_reduce. cbn [foldr]. lra.
  - rewrite seq_S, foldl_app. cbn [foldl Nat.add].
    set (a := foldl integrate_step p (seq 0 k)) in *.
    assert (Hlen : length a = length p).
    { unfold a. clear. induction k as [|k IHk]; [reflexivity|].
      rewrite seq_S, foldl_app. cbn [foldl Nat.add].
      unfold integrate_step at 1. now rewrite length_insert. }
    unfold integrate_step.
    destruct (decide (j = S k)) as [->|Hne].
    + rewrite list_lookup_total_insert_eq by lia.
      rewrite !IH by lia.
      destruct (Nat.leb_spec k k); [|lia].
      destruct (Nat.leb_spec (S k) k); [lia|].
      destruct (Nat.leb_spec (S k) (S k)); [|lia].
      rewrite (add_reduce_take_S p (S k)) by lia. reflexivity.
    + rewrite list_lookup_total_insert_ne by lia.
      rewrite IH by lia.
      destruct (Nat.leb_spec j k), (Nat.leb_spec j (S k)); try lia;
        reflexivity.
Qed.

Lemma length_integrate_scan (p : list R) (k : nat) :
  length (foldl integrate_step p (seq 0 k)) = length p.
Proof.
  induction k as [|k IHk]; [reflexivity|].
  rewrite seq_S, foldl_app. cbn [foldl Nat.add].
  unfold integrate_step at 1. now rewrite length_insert.
Qed.

End Integrate.

(** X6: [integrate] returns a new array of the running sums of its
    input: the array has the length of the input, its entry [k] is the
    sum of the input's entries [0..k], and numpy's [diff] of it gives the
    input back without its first entry.  The input array, like every
    array that existed before the call, keeps its contents. *)
Theorem integrate_running_sums :
  forall (h : heap) (input : loc) (d : list R),
    h !! input = Some d ->
    exists (h' : heap) (x : loc) (r : list R),
      integrate h input = Some (h', x)
      /\ h !! x = None
      /\ h' !! x = Some r
      /\ length r = length d
      /\ (forall k : nat, (k < length d)%nat ->
            r !! k = Some (add_reduce (take (S k) d)))
      /\ diff r = drop 1 d
      /\ (forall l : loc, is_Some (h !! l) -> h' !! l = h !! l).
Proof.
  intros h input d Hd.
  set (x := fresh (dom h)).
  set (r := foldl integrate_step d (seq 0 (length d - 1))).
  assert (Hx : h !! x = None) by apply fresh_not_allocated.
  assert (Hr : length r = length d) by apply length_integrate_scan.
  assert (Hk : forall k : nat, (k < length d)%nat ->
             r !!! k = add_reduce (take (S k) d)).
  { intros k Hk. unfold r. rewrite integrate_scan by lia.
    destruct (Nat.leb_spec k (length d - 1)); [reflexivity|lia]. }
  exists (<[x := r]> h), x, r.
  split.
  { unfold integrate, alloc. rewrite Hd. cbn. fold x.
    rewrite lookup_insert_eq. cbn. rewrite map_Rmult_1.
    rewrite (foldl_alter_step integrate_step _ x d)
      by apply lookup_insert_eq.
    fold r. now rewrite insert_insert_eq. }
  split; [exact Hx|]. split; [apply lookup_insert_eq|].
  split; [exact Hr|]. split.
  { intros k Hlt. rewrite <- Hk by assumption.
    apply list_lookup_lookup_total_lt. lia. }
  split.
  { apply list_eq. intros i.
    destruct (decide (S i < length d)%nat) as [Hi|Hi].
    - rewrite diff_lookup by lia. rewrite !Hk by lia.
      rewrite (add_reduce_take_S d (S i)) by lia.
      rewrite lookup_drop. cbn [Nat.add].
      rewrite (list_lookup_lookup_total_lt d (S i)) by lia.
      f_equal. lra.
    - rewrite !lookup_ge_None_2;
        [reflexivity|rewrite length_drop; lia|rewrite length_diff; lia]. }
  intros l [v Hv]. apply lookup_insert_ne. intros E. subst l.
  rewrite Hx in Hv. discriminate.
Qed.

(** X6 on the samples 1, 2, 3, 4. *)
Lemma integrate_running_sums_witness :
  exists (h' : heap) (x : loc) (r : list R),
    integrate {[1%positive := [1; 2; 3; 4]%R]} 1%positive = Some (h', x)
    /\ h' !! x = Some r
    /\ diff r = [2; 3; 4]%R
    /\ h' !! 1%positive = Some [1; 2; 3; 4]%R.
Proof.
  destruct (integrate_running_sums
              {[1%positive := [1; 2; 3; 4]%R]} 1%positive [1; 2; 3; 4]%R
              (lookup_singleton_eq _ _))
    as (h' & x & r & H1 & _ & H2 & _ & _ & H3 & H4).
  exists h', x, r. repeat split; try assumption.
  rewrite H4 by (rewrite lookup_singleton_eq; eauto).
  apply lookup_singleton_eq.
Defined.

(** ** More on [make_phase_continuous] *)

Section Unwrap.

Local Open Scope R_scope.



(** The new value of a cell differs from the old one by whole turns. *)
Lemma unwrap_step_turns (a : list R) (i : nat) :
  (S i < length a)%nat ->
  exists q : Z, unwrap_step a i !!! S i = a !!! S i + 2 * PI * IZR q.
Proof.
  intros Hi. unfold unwrap_step.
  rewrite list_lookup_total_insert_eq by lia.
  unfold float_mod.
  set (q := Int_part ((a !!! S i - a !!! i) / (2 * PI))).
  destruct (Rlt_dec PI _).
  - exists (- q - 1)%Z. rewrite minus_IZR, opp_IZR. lra.
  - exists (- q)%Z. rewrite opp_IZR. lra.
Qed.

Lemma unwrap_scan_turns (p : list R) (k j : nat) :
  (k < length p)%nat -> (j < length p)%nat ->
  exists q : Z, unwrap_scan p k !!! j = p !!! j + 2 * PI * IZR q.
Proof.
  revert j. induction k as [|k IH]; intros j Hk Hj.
  - exists 0%Z. unfold unwrap_scan. cbn [seq foldl]. lra.
  - rewrite unwrap_scan_S.
    destruct (decide (j = S k)) as [->|Hne].
    + destruct (unwrap_step_turns (unwrap_scan p k) k) as [q Hq];
        [rewrite length_unwrap_scan; lia|].
      destruct (IH (S k)) as [q' Hq']; [lia|lia|].
      exists (q' + q)%Z. rewrite Hq, Hq', plus_IZR. lra.
    + rewrite unwrap_step_total_other by lia. apply IH; lia.
Qed.




End Unwrap.

(** X7: [make_phase_continuous] changes each phase by whole turns only:
    every entry of the array after the call is the entry before the call
    plus an integer multiple of [2*pi]. *)
Theorem make_phase_continuous_whole_turns :
  forall (h : heap) (phi : loc) (p : list R),
    h !! phi = Some p ->
    exists (h' : heap) (p' : list R),
      make_phase_continuous h phi = Some h'
      /\ h' !! phi = Some p'
      /\ length p' = length p
      /\ forall j : nat, (j < length p)%nat ->
           exists q : Z, (p' !!! j = p !!! j + 2 * PI * IZR q)%R.
Proof.
  intros h phi p Hp.
  exists (<[phi := unwrap_scan p (length p - 1)]> h),
         (unwrap_scan p (length p - 1)).
  split; [now apply make_phase_continuous_eq|].
  split; [apply lookup_insert_eq|].
  split; [apply length_unwrap_scan|].
  intros j Hj. apply unwrap_scan_turns; lia.
Qed.

(** X7 on phases that wrap between the second and the third sample. *)
Lemma make_phase_continuous_whole_turns_witness :
  exists (h' : heap) (p' : list R),
    make_phase_continuous {[1%positive := [0; 3; -3]%R]} 1%positive = Some h'
    /\ h' !! 1%positive = Some p'
    /\ exists q : Z, (p' !!! 2%nat = -3 + 2 * PI * IZR q)%R.
Proof.
  destruct (make_phase_continuous_whole_turns
              {[1%positive := [0; 3; -3]%R]} 1%positive [0; 3; -3]%R
              (lookup_singleton_eq _ _))
    as (h' & p' & H1 & H2 & _ & H3).
  exists h', p'. split; [exact H1|]. split; [exact H2|].
  apply (H3 2%nat). cbn [length]. lia.
Defined.



(** ** More on [resamp] and [resample] *)

Section ResampLog.

Local Open Scope R_scope.

Lemma trunc_nonneg_bounds (r : R) :
  0 <= r -> IZR (trunc r) <= r < IZR (trunc r) + 1.
Proof.
  intros Hr. unfold trunc. destruct (Rle_dec 0 r); [|contradiction].
  destruct (base_Int_part r). lra.
Qed.

Lemma trunc_mono (r s : R) : 0 <= r -> r <= s -> (trunc r <= trunc s)%Z.
Proof.
  intros Hr Hrs.
  pose proof (trunc_nonneg_bounds r Hr).
  pose proof (trunc_nonneg_bounds s ltac:(lra)).
  assert (trunc r < trunc s + 1)%Z; [|lia].
  apply lt_IZR. rewrite plus_IZR. lra.
Qed.

Lemma trunc_below (r : R) (z : Z) : 0 <= r -> r < IZR z -> (trunc r < z)%Z.
Proof.
  intros Hr Hz. pose proof (trunc_nonneg_bounds r Hr).
  apply lt_IZR. lra.
Qed.

Lemma trunc_IZR (z : Z) : (0 <= z)%Z -> trunc (IZR z) = z.
Proof.
  intros Hz. apply trunc_spec; [apply IZR_le; lia|lra].
Qed.

Section Edges.

Variables (L : nat) (N : Z).
Hypothesis HN : (0 < N)%Z.
Hypothesis HL : (0 < L)%nat.

Let dlog : R := (ln (IZR (Z.of_nat L + 1)) - ln 1) / IZR N.

Lemma dlog_pos : 0 < dlog.
Proof.
  unfold dlog. rewrite ln_1, Rminus_0_r.
  apply Rmult_lt_0_compat.
  - rewrite <- ln_1. apply ln_increasing; [lra|]. apply IZR_lt. lia.
  - apply Rinv_0_lt_compat. apply IZR_lt. lia.
Qed.

Lemma log_edge_arg (i : nat) : 0 <= INR i * dlog + ln 1.
Proof.
  rewrite ln_1, Rplus_0_r. apply Rmult_le_pos; [apply pos_INR|].
  left. apply dlog_pos.
Qed.

Lemma exp_ge_1 (t : R) : 0 <= t -> 1 <= exp t.
Proof.
  intros [Ht|<-]; [|rewrite exp_0; lra].
  rewrite <- exp_0. left. now apply exp_increasing.
Qed.

Lemma log_edge_0 : log_edge L N 0 = 0%Z.
Proof.
  unfold log_edge. cbn [INR]. rewrite Rmult_0_l, Rplus_0_l, ln_1, exp_0.
  now rewrite (trunc_IZR 1) by lia.
Qed.

Lemma log_edge_last : log_edge L N (Z.to_nat N) = Z.of_nat L.
Proof.
  unfold log_edge.
  replace (INR (Z.to_nat N) * ((ln (IZR (Z.of_nat L + 1)) - ln 1) / IZR N)
           + ln 1)
    with (ln (IZR (Z.of_nat L + 1))).
  - rewrite exp_ln by (apply IZR_lt; lia).
    rewrite trunc_IZR by lia. lia.
  - rewrite INR_IZR_INZ, Z2Nat.id by lia. field.
    apply not_0_IZR. lia.
Qed.

Lemma log_edge_mono (i j : nat) :
  (i <= j)%nat -> (log_edge L N i <= log_edge L N j)%Z.
Proof.
  intros Hij. unfold log_edge. fold dlog.
  assert (trunc (exp (INR i * dlog + ln 1))
          <= trunc (exp (INR j * dlog + ln 1)))%Z; [|lia].
  apply trunc_mono.
  - left. apply exp_pos.
  - apply le_INR in Hij. pose proof dlog_pos.
    destruct (Req_dec (INR i) (INR j)) as [->|Hne]; [lra|].
    left. apply exp_increasing. nra.
Qed.

Lemma log_edge_nonneg (i : nat) : (0 <= log_edge L N i)%Z.
Proof.
  rewrite <- log_edge_0. apply log_edge_mono. lia.
Qed.

Lemma log_edge_below (i : nat) :
  (Z.of_nat i < N)%Z -> (log_edge L N i < Z.of_nat L)%Z.
Proof.
  intros Hi. unfold log_edge. fold dlog.
  assert (trunc (exp (INR i * dlog + ln 1)) < Z.of_nat L + 1)%Z; [|lia].
  apply trunc_below; [left; apply exp_pos|].
  rewrite <- (exp_ln (IZR (Z.of_nat L + 1))) by (apply IZR_lt; lia).
  apply exp_increasing.
  replace (ln (IZR (Z.of_nat L + 1))) with (IZR N * dlog + ln 1)
    by (unfold dlog; field; apply not_0_IZR; lia).
  pose proof dlog_pos.
  assert (INR i < IZR N) by (rewrite INR_IZR_INZ; now apply IZR_lt).
  nra.
Qed.

Lemma log_index_eq :
  log_index L N = Returns (log_edge L N <$> seq 0 (Z.to_nat (N + 1))).
Proof.
  unfold log_index, arange.
  assert (Hext :
    (fun v : R => (trunc (exp v) - 1)%Z) <$>
      ((fun v : R => v * ((ln (IZR (Z.of_nat L + 1)) - ln 1) / IZR N) + ln 1)
         <$> ((fun i : nat => INR i) <$> seq 0 (Z.to_nat (N + 1))))
    = log_edge L N <$> seq 0 (Z.to_nat (N + 1))).
  { rewrite <- !list_fmap_compose. apply list_fmap_ext. reflexivity. }
  rewrite Hext, set_last_nonempty.
  - f_equal. apply list_insert_id.
    rewrite length_fmap, length_seq, list_lookup_fmap.
    replace (Z.to_nat (N + 1) - 1)%nat with (Z.to_nat N) by lia.
    rewrite lookup_seq_lt by lia. cbn.
    now rewrite log_edge_last.
  - intros E. apply (f_equal length) in E.
    rewrite length_fmap, length_seq in E. cbn in E. lia.
Qed.

End Edges.

(** The loop of logarithmic mode never leaves the array. *)
Lemma fill_log_steps (y : list R) (logindex : list Z) (g : nat -> R)
    (idx : list nat) (acc : list R) :
  (forall i : nat, i ∈ idx ->
     forall result : list R,
       (if Z.eq_dec (logindex !!! i) (logindex !!! S i) then
          v ← getitem y (logindex !!! i);
          Returns (<[i := v]> result)
        else
          Returns (<[i := average
                     (slice (logindex !!! i) (logindex !!! S i) y)]>
                     result))
       = Returns (<[i := g i]> result)) ->
  foldl (fun acc i =>
           result ← acc;
           if Z.eq_dec (logindex !!! i) (logindex !!! S i) then
             v ← getitem y (logindex !!! i);
             Returns (<[i := v]> result)
           else
             Returns (<[i := average
                        (slice (logindex !!! i) (logindex !!! S i) y)]>
                        result))
        (Returns acc) idx
    = Returns (foldl (fun result i => <[i := g i]> result) acc idx).
Proof.
  revert acc. induction idx as [|i idx IH]; intros acc Hstep.
  - reflexivity.
  - cbn [foldl]. cbn [mbind outcome_bind].
    rewrite (Hstep i) by apply list_elem_of_here.
    apply IH. intros j Hj. apply Hstep. now apply list_elem_of_further.
Qed.

Lemma fill_log_eq (y : list R) (N : Z) :
  (0 < N < Z.of_nat (length y))%Z ->
  fill_log y (log_edge (length y) N <$> seq 0 (Z.to_nat (N + 1))) N
           (replicate (Z.to_nat N) 0)
    = Returns (log_bin_value y N <$> seq 0 (Z.to_nat N)).
Proof.
  intros HN. unfold fill_log.
  assert (HL : (0 < length y)%nat) by lia.
  rewrite (fill_log_steps y _ (log_bin_value y N)).
  - f_equal. rewrite foldl_insert_seq by (rewrite length_replicate; lia).
    rewrite drop_ge by (rewrite length_replicate; lia).
    apply app_nil_r.
  - intros i Hi result. apply elem_of_seq in Hi.
    rewrite !lookup_total_fmap_seq by lia.
    unfold log_bin_value.
    pose proof (log_edge_nonneg (length y) N ltac:(lia) HL i) as H0.
    pose proof (log_edge_mono (length y) N ltac:(lia) HL i (S i)
                  ltac:(lia)) as H1.
    destruct (Z.eq_dec _ _) as [E|E].
    + pose proof (log_edge_below (length y) N ltac:(lia) HL i
                    ltac:(lia)) as H2.
      rewrite <- (Z2Nat.id (log_edge (length y) N i)) at 1 by lia.
      rewrite getitem_nat by lia. reflexivity.
    + rewrite slice_take_drop; [reflexivity|lia|].
      rewrite <- (log_edge_last (length y) N) by lia.
      apply log_edge_mono; lia.
Qed.

Lemma resamp_log_eq (x : list R) (N : Z) :
  (0 < N < Z.of_nat (length x))%Z ->
  resamp x N "log" = Returns (log_bin_value x N <$> seq 0 (Z.to_nat N)).
Proof.
  intros HN. unfold resamp.
  destruct (Z.leb_spec (Z.of_nat (length x)) N); [lia|].
  cbn [String.eqb Ascii.eqb Bool.eqb].
  rewrite log_index_eq by lia. cbn [mbind outcome_bind].
  unfold zeros. destruct (Z.ltb_spec N 0); [lia|].
  cbn [mbind outcome_bind]. now apply fill_log_eq.
Qed.

(** The mean of a non-empty array lies between its bounds. *)
Lemma add_reduce_bounds (l : list R) (lo hi : R) :
  (forall v : R, v ∈ l -> lo <= v <= hi) ->
  INR (length l) * lo <= add_reduce l <= INR (length l) * hi.
Proof.
  induction l as [|a l IH]; intros H.
  - unfold add_reduce. cbn. lra.
  - change (add_reduce (a :: l)) with (a + add_reduce l).
    cbn [length]. rewrite S_INR.
    pose proof (H a (list_elem_of_here _ _)).
    specialize (IH (fun v Hv => H v (list_elem_of_further _ _ _ Hv))).
    lra.
Qed.

Lemma average_bounds (l : list R) (lo hi : R) :
  l <> [] ->
  (forall v : R, v ∈ l -> lo <= v <= hi) ->
  lo <= average l <= hi.
Proof.
  intros Hne H. pose proof (add_reduce_bounds l lo hi H) as Hs.
  assert (Hn : 0 < INR (length l)).
  { apply lt_0_INR. destruct l; [congruence|cbn; lia]. }
  unfold average. split.
  - apply (Rmult_le_reg_r (INR (length l))); [assumption|].
    unfold Rdiv. rewrite Rmult_assoc, Rinv_l by lra. lra.
  - apply (Rmult_le_reg_r (INR (length l))); [assumption|].
    unfold Rdiv. rewrite Rmult_assoc, Rinv_l by lra. lra.
Qed.

Lemma window_bounds (x : list R) (a n : nat) (lo hi : R) :
  (0 < n)%nat -> (a + n <= length x)%nat ->
  (forall v : R, v ∈ x -> lo <= v <= hi) ->
  lo <= average (take n (drop a x)) <= hi.
Proof.
  intros Hn Ha H. apply average_bounds.
  - intros E. apply (f_equal length) in E.
    rewrite length_take, length_drop in E. cbn in E. lia.
  - intros v Hv. apply H.
    apply subseteq_take, subseteq_drop in Hv. exact Hv.
Qed.

End ResampLog.

(** X9: [resample] resamples [y] exactly as [resamp] does: whenever
    [resample(x, y, N, type)] returns a pair [[rx, ry]] of arrays whose
    entries are all numbers, for whatever lengths, [N] and mode,
    [resamp(y, N, type)] returns [ry].  The calls in mode 'log' whose x
    axis comes out with [nan] (a logarithm of an x value that is not
    positive) are not covered: there the embedding ends in [NonFinite]. *)
Theorem resample_agrees_with_resamp :
  forall (x y : list R) (N : Z) (type : string) (rx ry : list R),
    snd (resample x y N type) = Returns [rx; ry] ->
    resamp y N type = Returns ry.
Proof.
  intros x y N type rx ry. unfold resample, resamp.
  destruct (negb (length x =? length y)%nat); [discriminate|].
  destruct (Z.leb_spec (Z.of_nat (length y)) N).
  { cbn [snd]. intros E. now injection E as _ ->. }
  destruct (String.eqb type "lin").
  { cbn [snd].
    destruct (getitem x (-1)); cbn [mbind outcome_bind]; try discriminate.
    destruct (getitem x 0); cbn [mbind outcome_bind]; try discriminate.
    destruct (zeros N); cbn [mbind outcome_bind]; try discriminate.
    destruct (float_div_int _ N); cbn [mbind outcome_bind];
      try discriminate.
    destruct (lin_index _ N _); cbn [mbind outcome_bind];
      try discriminate.
    intros E. now injection E as _ ->. }
  destruct (String.eqb type "log").
  { cbn [snd].
    destruct (log_index _ N); cbn [mbind outcome_bind]; try discriminate.
    destruct (zeros N); cbn [mbind outcome_bind]; try discriminate.
    destruct (fill_log y _ N _) as [r| |]; cbn [mbind outcome_bind];
      try discriminate.
    destruct (getitem x 0) as [x0| |]; cbn [mbind outcome_bind];
      try discriminate.
    destruct (Rlt_dec 0 x0); cbn [mbind outcome_bind].
    - destruct (getitem x (-1)); cbn [mbind outcome_bind];
        try discriminate.
      destruct (log_axis _ _ N); cbn [mbind outcome_bind];
        try discriminate.
      intros E. now injection E as _ ->.
    - destruct (getitem x 1); cbn [mbind outcome_bind];
        try discriminate.
      destruct (getitem x (-1)); cbn [mbind outcome_bind];
        try discriminate.
      destruct (log_axis _ _ N); cbn [mbind outcome_bind];
        try discriminate.
      intros E. now injection E as _ ->. }
  cbn [snd]. discriminate.
Qed.

(** X9 on four samples resampled to two. *)
Lemma resample_agrees_with_resamp_witness :
  exists ry : list R,
    resamp [1; 3; 5; 7]%R 2 "lin" = Returns ry.
Proof.
  exists (bin_mean [1; 3; 5; 7]%R 2 <$> seq 0 (Z.to_nat 2)).
  apply (resample_agrees_with_resamp
           [0; 1; 2; 3]%R [1; 3; 5; 7]%R 2 "lin"
           (lin_axis [0; 1; 2; 3]%R 2)).
  rewrite resample_lin_eq; [reflexivity|reflexivity|cbn [length]; lia].
Defined.

(** X10: what [resamp] does below the source length when the request
    cannot be served.  An unknown mode raises [RuntimeError].  A negative
    target length raises, [ValueError] from [zeros] in linear mode and
    [IndexError] from [logindex[-1]] in logarithmic mode.  The target
    length 0 divides by zero in linear mode, while logarithmic mode
    returns the empty array. *)
Theorem resamp_unserved_requests :
  forall (x : list R) (N : Z) (type : string),
    N < Z.of_nat (length x) ->
    (type <> "lin"%string -> type <> "log"%string ->
       resamp x N type = Raises RuntimeError)
    /\ (N < 0 -> resamp x N "lin" = Raises ValueError)
    /\ (N < 0 -> resamp x N "log" = Raises IndexError)
    /\ (N = 0 -> resamp x N "lin" = Raises ZeroDivisionError)
    /\ (N = 0 -> resamp x N "log" = Returns []).
Proof.
  intros x N type HN. unfold resamp.
  destruct (Z.leb_spec (Z.of_nat (length x)) N); [lia|].
  split; [|split; [|split; [|split]]].
  - intros Hlin Hlog.
    destruct (String.eqb_spec type "lin"); [contradiction|].
    destruct (String.eqb_spec type "log"); [contradiction|].
    reflexivity.
  - intros Hneg. cbn [String.eqb Ascii.eqb Bool.eqb]. unfold zeros.
    destruct (Z.ltb_spec N 0); [reflexivity|lia].
  - intros Hneg. cbn [String.eqb Ascii.eqb Bool.eqb].
    unfold log_index, arange.
    rewrite Z2Nat.nonpos by lia. reflexivity.
  - intros ->. reflexivity.
  - intros ->. cbn [String.eqb Ascii.eqb Bool.eqb].
    unfold log_index, arange. reflexivity.
Qed.

(** X10 on one sample and the target length 0. *)
Lemma resamp_unserved_requests_witness :
  resamp [1]%R 0 "lin" = Raises ZeroDivisionError
  /\ resamp [1]%R 0 "log" = Returns [].
Proof.
  destruct (resamp_unserved_requests [1]%R 0 "lin") as (_ & _ & _ & H1 & H2).
  - cbn [length]. lia.
  - split; [now apply H1|now apply H2].
Defined.

(** X11: resampling stays within the range of the source.  For
    [1 <= N < len(x)], in linear and in logarithmic mode, [resamp] returns
    [N] values (logarithmic mode never indexes outside the array), and
    each of them lies between any two bounds that enclose all samples of
    [x]. *)
Theorem resamp_within_source_range :
  forall (x : list R) (N : Z) (type : string) (lo hi : R),
    1 <= N < Z.of_nat (length x) ->
    type = "lin"%string \/ type = "log"%string ->
    (forall v : R, v ∈ x -> (lo <= v <= hi)%R) ->
    exists r : list R,
      resamp x N type = Returns r
      /\ length r = Z.to_nat N
      /\ forall v : R, v ∈ r -> (lo <= v <= hi)%R.
Proof.
  intros x N type lo hi HN Htype Hx.
  assert (HL : (0 < length x)%nat) by lia.
  destruct Htype as [-> | ->].
  - exists (bin_mean x N <$> seq 0 (Z.to_nat N)).
    split; [apply resamp_lin_eq; lia|].
    split; [now rewrite length_fmap, length_seq|].
    intros v Hv. apply list_elem_of_fmap in Hv as (i & -> & Hi).
    apply elem_of_seq in Hi. unfold bin_mean.
    pose proof (lin_edge_step (length x) N i ltac:(lia)) as H1.
    assert (H0 : 0 <= lin_edge (length x) N i).
    { rewrite <- (lin_edge_0 (length x) N). apply lin_edge_mono; lia. }
    assert (H2 : lin_edge (length x) N (S i) <= Z.of_nat (length x)).
    { rewrite <- (lin_edge_last (length x) N) by lia.
      apply lin_edge_mono; lia. }
    apply window_bounds; [lia|lia|exact Hx].
  - exists (log_bin_value x N <$> seq 0 (Z.to_nat N)).
    split; [apply resamp_log_eq; lia|].
    split; [now rewrite length_fmap, length_seq|].
    intros v Hv. apply list_elem_of_fmap in Hv as (i & -> & Hi).
    apply elem_of_seq in Hi. unfold log_bin_value.
    pose proof (log_edge_nonneg (length x) N ltac:(lia) HL i) as H0.
    pose proof (log_edge_mono (length x) N ltac:(lia) HL i (S i)
                  ltac:(lia)) as H1.
    assert (H2 : log_edge (length x) N (S i) <= Z.of_nat (length x)).
    { rewrite <- (log_edge_last (length x) N) by lia.
      apply log_edge_mono; lia. }
    destruct (Z.eq_dec _ _) as [E|E].
    + pose proof (log_edge_below (length x) N ltac:(lia) HL i
                    ltac:(lia)) as H3.
      apply Hx. apply list_elem_of_lookup_total_2. lia.
    + apply window_bounds; [lia|lia|exact Hx].
Qed.

(** X11 on six samples between 0 and 1, in logarithmic mode. *)
Lemma resamp_within_source_range_witness :
  exists r : list R,
    resamp [0; 1; 0; 1; 0; 1]%R 3 "log" = Returns r
    /\ length r = 3%nat
    /\ forall v : R, v ∈ r -> (0 <= v <= 1)%R.
Proof.
  apply (resamp_within_source_range [0; 1; 0; 1; 0; 1]%R 3 "log" 0 1).
  - cbn [length]. lia.
  - right. reflexivity.
  - intros v Hv.
    repeat (apply elem_of_cons in Hv as [-> | Hv]; [lra|]).
    apply elem_of_nil in Hv. contradiction.
Defined.

Section ResampMean.

Local Open Scope R_scope.

Lemma add_reduce_app (l1 l2 : list R) :
  add_reduce (l1 ++ l2) = add_reduce l1 + add_reduce l2.
Proof.
  unfold add_reduce. induction l1 as [|a l1 IH]; cbn [foldr app]; [lra|].
  rewrite IH. lra.
Qed.

Lemma add_reduce_scaled (f : nat -> R) (c : R) (idx : list nat) :
  add_reduce ((fun i => f i / c) <$> idx) = add_reduce (f <$> idx) / c.
Proof.
  unfold add_reduce.
  induction idx as [|i idx IH]; cbn [fmap list_fmap foldr].
  - unfold Rdiv. now rewrite Rmult_0_l.
  - change (foldr Rplus 0 (list_fmap nat R (fun i => f i / c) idx))
      with (foldr Rplus 0 ((fun i => f i / c) <$> idx)).
    rewrite IH. unfold Rdiv. change (list_fmap nat R f idx) with (f <$> idx).
    ring.
Qed.

(** The sums of [n] consecutive chunks of [k] samples add up to the sum
    of the array. *)
Lemma add_reduce_chunks (k n : nat) (x : list R) :
  length x = (n * k)%nat ->
  add_reduce ((fun i : nat => add_reduce (take k (drop (i * k) x)))
                <$> seq 0 n)
    = add_reduce x.
Proof.
  revert x. induction n as [|n IH]; intros x Hlen.
  - destruct x; [reflexivity|discriminate].
  - cbn [seq]. rewrite <- fmap_S_seq, fmap_cons, <- list_fmap_compose.
    change (add_reduce (?a :: ?l)) with (a + add_reduce l).
    rewrite (list_fmap_ext _
               (fun i : nat => add_reduce (take k (drop (i * k) (drop k x))))
               (seq 0 n)).
    2:{ intros _ i _. cbn [compose]. rewrite drop_drop.
        reflexivity. }
    rewrite IH by (rewrite length_drop; lia).
    cbn [Nat.mul drop]. rewrite <- add_reduce_app, take_drop.
    reflexivity.
Qed.

Lemma lin_edge_multiple (N : Z) (k i : nat) :
  (0 < N)%Z ->
  lin_edge (Z.to_nat N * k) N i = Z.of_nat (i * k).
Proof.
  intros HN. unfold lin_edge.
  rewrite Nat2Z.inj_mul, Z2Nat.id by lia.
  replace (Z.of_nat i * (N * Z.of_nat k))%Z
    with (Z.of_nat (i * k) * N)%Z by lia.
  apply Z.div_mul. lia.
Qed.

End ResampMean.

(** X12: when the target length divides the source length,
    [len(x) = N*k] with [k >= 2], linear mode averages consecutive chunks
    of [k] samples, entry [i] being the mean of [x[i*k:(i+1)*k]], and the
    mean of the resampled array is the mean of the source. *)
Theorem resamp_lin_preserves_mean :
  forall (x : list R) (N : Z) (k : nat),
    1 <= N -> (2 <= k)%nat -> length x = (Z.to_nat N * k)%nat ->
    exists r : list R,
      resamp x N "lin" = Returns r
      /\ (forall i : nat, (i < Z.to_nat N)%nat ->
            r !! i = Some (average (take k (drop (i * k) x))))
      /\ average r = average x.
Proof.
  intros x N k HN Hk Hlen.
  assert (Hr : resamp x N "lin"
               = Returns ((fun i : nat => average (take k (drop (i * k) x)))
                            <$> seq 0 (Z.to_nat N))).
  { rewrite resamp_lin_eq by nia.
    f_equal. apply list_fmap_ext. intros _ i _. unfold bin_mean.
    rewrite Hlen, !lin_edge_multiple by lia.
    f_equal. f_equal; [lia|f_equal; lia]. }
  eexists. split; [exact Hr|]. split.
  - intros i Hi. rewrite list_lookup_fmap, lookup_seq_lt by lia.
    reflexivity.
  - assert (Hchunk : forall i : nat, (i < Z.to_nat N)%nat ->
              length (take k (drop (i * k) x)) = k).
    { intros i Hi. rewrite length_take, length_drop. nia. }
    unfold average at 1. rewrite length_fmap, length_seq.
    rewrite (list_fmap_ext _
               (fun i : nat => (add_reduce (take k (drop (i * k) x))
                                / INR k)%R) (seq 0 (Z.to_nat N))).
    2:{ intros j i Hi. apply lookup_seq in Hi as [-> Hi].
        unfold average. now rewrite Hchunk by lia. }
    rewrite add_reduce_scaled, add_reduce_chunks by assumption.
    unfold average. rewrite Hlen, mult_INR.
    assert (INR k <> 0)%R by (apply not_0_INR; lia).
    assert (INR (Z.to_nat N) <> 0)%R by (apply not_0_INR; lia).
    field. split; assumption.
Qed.

(** X12 on six samples resampled to three. *)
Lemma resamp_lin_preserves_mean_witness :
  exists r : list R,
    resamp [1; 2; 3; 4; 5; 6]%R 3 "lin" = Returns r
    /\ average r = average [1; 2; 3; 4; 5; 6]%R.
Proof.
  destruct (resamp_lin_preserves_mean [1; 2; 3; 4; 5; 6]%R 3 2)
    as (r & H1 & _ & H2); [lia|lia|reflexivity|].
  exists r. split; [exact H1|exact H2].
Defined.

(** ** More on [spectrum] and [ispectrum] *)

Section TransformBack.

Local Open Scope R_scope.

Lemma csum_div_real (F : nat -> C) (r : R) (n : nat) :
  Cdiv_real (csum F n) r = csum (fun j => Cdiv_real (F j) r) n.
Proof.
  induction n as [|n IH]; cbn [csum].
  - apply injective_projections; cbn [fst snd RtoC Cdiv_real];
      unfold Rdiv; ring.
  - rewrite <- IH.
    apply injective_projections;
      cbn [fst snd Cplus Cdiv_real]; unfold Rdiv; ring.
Qed.

(** The transform undoes the inverse transform. *)
Lemma dft_idft (A : list C) : dft (idft A) = A.
Proof.
  unfold dft. rewrite length_idft.
  apply fmap_seq_eq. intros k Hk.
  set (n := length A) in *.
  assert (Hn : INR n <> 0) by (apply not_0_INR; lia).
  rewrite (csum_ext _
    (fun m => csum (fun j =>
       Cmult (Cdiv_real (A !!! j) (INR n))
         (Cmult (cis (- (2 * PI * INR k * INR m / INR n)))
                (cis (2 * PI * INR j * INR m / INR n)))) n)).
  2:{ intros m Hm. unfold idft. fold n.
      rewrite lookup_total_fmap_seq_C by assumption.
      rewrite csum_div_real, <- csum_mult_r.
      apply csum_ext. intros j _.
      replace (2 * PI * INR k * INR m / INR n)
        with (2 * PI * INR m * INR k / INR n) by (field; exact Hn).
      replace (2 * PI * INR j * INR m / INR n)
        with (2 * PI * INR m * INR j / INR n) by (field; exact Hn).
      destruct (A !!! j) as [u v], (cis (2 * PI * INR m * INR j / INR n))
        as [e f], (cis (- (2 * PI * INR m * INR k / INR n))) as [c d].
      apply injective_projections;
        cbn [fst snd Cmult Cdiv_real]; unfold Rdiv; ring. }
  rewrite csum_swap.
  rewrite (csum_ext _
    (fun j => Cmult (Cdiv_real (A !!! j) (INR n))
                (if decide (k = j) then RtoC (INR n) else RtoC 0))).
  2:{ intros j Hj. rewrite csum_mult_l.
      now rewrite kernel_orthogonal. }
  rewrite (csum_single _ k n Hk).
  - destruct (decide (k = k)); [|congruence].
    destruct (A !!! k) as [u v].
    apply injective_projections;
      cbn [fst snd Cmult Cdiv_real RtoC]; field; exact Hn.
  - intros j _ Hne. destruct (decide (k = j)); [congruence|].
    apply Cmult_0_r.
Qed.

(** The transform commutes with a multiplication by a real. *)
Lemma dft_mult_real (a : list C) (r : R) :
  dft ((fun z => Cmult_real z r) <$> a)
    = (fun z => Cmult_real z r) <$> dft a.
Proof.
  unfold dft. rewrite length_fmap.
  rewrite <- list_fmap_compose. apply list_fmap_ext.
  intros k i Hk. apply lookup_seq in Hk as [-> Hk]. cbn [Nat.add compose].
  set (n := length a) in *.
  rewrite (csum_ext _
    (fun m => Cmult (RtoC r)
       (Cmult (a !!! m) (cis (- (2 * PI * INR m * INR k / INR n)))))).
  2:{ intros m Hm. rewrite lookup_total_fmap_C by assumption.
      destruct (a !!! m) as [u v], (cis _) as [c d].
      apply injective_projections;
        cbn [fst snd Cmult Cmult_real RtoC]; ring. }
  rewrite csum_mult_l.
  destruct (csum _ n) as [u v].
  apply injective_projections;
    cbn [fst snd Cmult Cmult_real RtoC]; ring.
Qed.

End TransformBack.

(** X13: [spectrum] also undoes [ispectrum]: for every sequence of
    coefficients of at least one entry, [spectrum(ispectrum(spec))] is
    [spec], exactly over the reals. *)
Theorem spectrum_ispectrum :
  forall spec : list C,
    (1 <= length spec)%nat ->
    (x ← ispectrum spec; spectrum x) = Returns spec.
Proof.
  intros spec Hs. unfold ispectrum, spectrum, fft, ifft.
  destruct (Nat.eqb_spec (length spec) 0); [lia|].
  cbn [mbind outcome_bind].
  rewrite length_fmap, length_idft.
  destruct (Nat.eqb_spec (length spec) 0); [lia|].
  cbn [mbind outcome_bind]. f_equal.
  rewrite dft_mult_real, dft_idft.
  rewrite <- list_fmap_compose.
  transitivity ((fun z : C => z) <$> spec); [|apply list_fmap_id].
  apply list_fmap_ext.
  intros _ [u v] _. cbn [compose].
  assert (INR (length spec) <> 0)%R by (apply not_0_INR; lia).
  apply injective_projections;
    cbn [fst snd Cmult_real Cdiv_real]; field; assumption.
Qed.

(** X13 on two coefficients. *)
Lemma spectrum_ispectrum_witness :
  (x ← ispectrum [RtoC 1; RtoC 0]; spectrum x) = Returns [RtoC 1; RtoC 0].
Proof.
  apply (spectrum_ispectrum [RtoC 1; RtoC 0]). cbn [length]. lia.
Defined.

Section Power.

Local Open Scope R_scope.

(** The squared magnitude. *)
Lemma Cmod_sq (z : C) : Cmod z ^ 2 = fst z * fst z + snd z * snd z.
Proof.
  unfold Cmod. cbn [pow]. rewrite Rmult_1_r. apply sqrt_sqrt.
  pose proof (Rle_0_sqr (fst z)). pose proof (Rle_0_sqr (snd z)).
  unfold Rsqr in *. lra.
Qed.

Lemma Cmult_conj (z : C) : Cmult z (Cconj z) = RtoC (Cmod z ^ 2).
Proof.
  rewrite Cmod_sq. destruct z as [u v].
  apply injective_projections; cbn [fst snd Cmult Cconj RtoC]; ring.
Qed.

Lemma Cconj_mult (z w : C) : Cconj (Cmult z w) = Cmult (Cconj z) (Cconj w).
Proof.
  destruct z, w.
  apply injective_projections; cbn [fst snd Cmult Cconj]; ring.
Qed.

Lemma Cconj_cis (t : R) : Cconj (cis (- t)) = cis t.
Proof.
  unfold Cconj, cis. cbn [fst snd]. rewrite cos_neg, sin_neg.
  f_equal. ring.
Qed.

Lemma Cconj_csum (f : nat -> C) (n : nat) :
  Cconj (csum f n) = csum (fun k => Cconj (f k)) n.
Proof.
  induction n as [|n IH]; cbn [csum].
  - apply injective_projections; cbn [fst snd Cconj RtoC]; ring.
  - rewrite <- IH. destruct (csum f n), (f n).
    apply injective_projections; cbn [fst snd Cplus Cconj]; ring.
Qed.

(** A sum over the entries of an array, as a complex number. *)
Lemma csum_list {B : Type} `{!Inhabited B} (G : B -> R) (l : list B) :
  csum (fun k => RtoC (G (l !!! k))) (length l)
    = RtoC (add_reduce (G <$> l)).
Proof.
  induction l as [|a l IH] using rev_ind; [reflexivity|].
  rewrite length_app. cbn [length]. rewrite Nat.add_1_r. cbn [csum].
  rewrite (csum_ext _ (fun k => RtoC (G (l !!! k)))).
  - rewrite IH, fmap_app. change (G <$> [a]) with [G a].
    rewrite add_reduce_snoc.
    rewrite lookup_total_app_r by lia. rewrite Nat.sub_diag.
    change ([a] !!! 0%nat) with a.
    apply injective_projections; cbn [fst snd Cplus RtoC]; ring.
  - intros k Hk. now rewrite lookup_total_app_l by lia.
Qed.

Lemma add_reduce_fmap_div {B : Type} (G : B -> R) (c : R) (l : list B) :
  add_reduce ((fun z => G z / c) <$> l) = add_reduce (G <$> l) / c.
Proof.
  induction l as [|a l IH].
  - unfold add_reduce. cbn. unfold Rdiv. ring.
  - rewrite !fmap_cons.
    change (add_reduce (?a :: ?l)) with (a + add_reduce l).
    rewrite IH. unfold Rdiv. ring.
Qed.

Lemma add_reduce_nonneg (l : list R) :
  (forall v : R, v ∈ l -> 0 <= v) -> 0 <= add_reduce l.
Proof.
  induction l as [|a l IH]; intros H.
  - unfold add_reduce. cbn. lra.
  - change (add_reduce (a :: l)) with (a + add_reduce l).
    pose proof (H a (list_elem_of_here _ _)).
    specialize (IH (fun v Hv => H v (list_elem_of_further _ _ _ Hv))).
    lra.
Qed.

(** The energy of the transform is [n] times the energy of the array. *)
Lemma dft_energy (x : list C) :
  add_reduce ((fun z => Cmod z ^ 2) <$> dft x)
    = INR (length x) * add_reduce ((fun z => Cmod z ^ 2) <$> x).
Proof.
  set (n := length x).
  destruct (decide (n = 0%nat)) as [H0|H0].
  { unfold n in H0. destruct x; [|discriminate]. cbn. unfold add_reduce.
    cbn. ring. }
  assert (Hn : INR n <> 0) by (apply not_0_INR; lia).
  assert (Hc : RtoC (add_reduce ((fun z => Cmod z ^ 2) <$> dft x))
               = RtoC (INR n * add_reduce ((fun z => Cmod z ^ 2) <$> x))).
  2:{ now injection Hc. }
  rewrite <- (csum_list (fun z => Cmod z ^ 2) (dft x)).
  rewrite length_dft. fold n.
  rewrite (csum_ext _
    (fun k => csum (fun j => csum (fun m =>
       Cmult (Cmult (x !!! j) (Cconj (x !!! m)))
         (Cmult (cis (- (2 * PI * INR j * INR k / INR n)))
                (cis (2 * PI * INR m * INR k / INR n)))) n) n)).
  2:{ intros k Hk. rewrite <- Cmult_conj. unfold dft. fold n.
      rewrite lookup_total_fmap_seq_C by assumption.
      rewrite Cconj_csum, <- csum_mult_r. apply csum_ext. intros j _.
      rewrite <- csum_mult_l. apply csum_ext. intros m _.
      rewrite Cconj_mult, Cconj_cis.
      destruct (x !!! j), (Cconj (x !!! m)), (cis _), (cis _).
      apply injective_projections; cbn [fst snd Cmult]; ring. }
  rewrite csum_swap.
  rewrite (csum_ext _
    (fun j => Cmult (RtoC (INR n)) (RtoC (Cmod (x !!! j) ^ 2)))).
  2:{ intros j Hj. rewrite csum_swap.
      rewrite (csum_ext _
        (fun m => Cmult (Cmult (x !!! j) (Cconj (x !!! m)))
                    (if decide (j = m) then RtoC (INR n) else RtoC 0))).
      2:{ intros m Hm. rewrite csum_mult_l.
          now rewrite kernel_orthogonal. }
      rewrite (csum_single _ j n Hj).
      - destruct (decide (j = j)); [|congruence].
        rewrite Cmult_conj.
        apply injective_projections; cbn [fst snd Cmult RtoC]; ring.
      - intros m _ Hne. destruct (decide (j = m)); [congruence|].
        apply Cmult_0_r. }
  rewrite csum_mult_l. unfold n at 2.
  rewrite (csum_list (fun z => Cmod z ^ 2) x).
  apply injective_projections; cbn [fst snd Cmult RtoC]; ring.
Qed.

Lemma Cmod_sq_div_real (z : C) (r : R) :
  r <> 0 -> Cmod (Cdiv_real z r) ^ 2 = Cmod z ^ 2 / (r * r).
Proof.
  intros Hr. rewrite !Cmod_sq. cbn [fst snd Cdiv_real]. field. exact Hr.
Qed.

(** The sum of the squared magnitudes of the coefficients is the mean
    of the squared magnitudes of the samples. *)
Lemma coefficients_energy (x : list C) :
  x <> [] ->
  add_reduce ((fun z => Cmod z ^ 2) <$>
                ((fun z => Cdiv_real z (INR (length x))) <$> dft x))
    = average ((fun z => Cmod z ^ 2) <$> x).
Proof.
  intros Hx.
  assert (Hn : INR (length x) <> 0).
  { apply not_0_INR. destruct x; [congruence|discriminate]. }
  rewrite <- list_fmap_compose.
  rewrite (list_fmap_ext _
    (fun z => Cmod z ^ 2 / (INR (length x) * INR (length x))) (dft x)).
  2:{ intros _ z _. cbn [compose]. now apply Cmod_sq_div_real. }
  rewrite add_reduce_fmap_div, dft_energy.
  unfold average. rewrite length_fmap. field. exact Hn.
Qed.

End Power.

(** X14: the first Fourier-series coefficient of a real signal is its
    mean: for a signal of at least one sample, [spectrum(signal)] has the
    length of the signal and its entry 0 is [average(signal)]. *)
Theorem spectrum_first_is_mean :
  forall xr : list R,
    (1 <= length xr)%nat ->
    exists S : list C,
      spectrum (RtoC <$> xr) = Returns S
      /\ length S = length xr
      /\ S !! 0%nat = Some (RtoC (average xr)).
Proof.
  intros xr Hx.
  set (x := RtoC <$> xr).
  assert (Hlen : length x = length xr) by apply length_fmap.
  exists ((fun z => Cdiv_real z (INR (length x))) <$> dft x).
  split.
  { unfold spectrum, fft.
    destruct (Nat.eqb_spec (length x) 0); [lia|]. reflexivity. }
  split; [now rewrite length_fmap, length_dft|].
  rewrite list_lookup_fmap. unfold dft.
  rewrite list_lookup_fmap, lookup_seq_lt by lia.
  cbn [fmap option_fmap option_map Nat.add]. f_equal.
  rewrite (csum_ext _ (fun m => RtoC ((fun v : R => v) (xr !!! m)))).
  - rewrite Hlen, (csum_list (fun v : R => v) xr), list_fmap_id.
    unfold average.
    apply injective_projections; cbn [fst snd Cdiv_real RtoC];
      unfold Rdiv; ring.
  - intros m Hm. cbn [INR]. unfold x.
    rewrite (list_lookup_total_fmap RtoC xr m) by lia.
    replace (- (2 * PI * INR m * 0 / INR (length (RtoC <$> xr))))%R
      with 0%R by (unfold Rdiv; ring).
    rewrite cis_0. apply Cmult_1_r.
Qed.

(** X14 on the samples 1, 2, 3. *)
Lemma spectrum_first_is_mean_witness :
  exists S : list C,
    spectrum (RtoC <$> [1; 2; 3]%R) = Returns S
    /\ S !! 0%nat = Some (RtoC (average [1; 2; 3]%R)).
Proof.
  destruct (spectrum_first_is_mean [1; 2; 3]%R) as (S & H1 & _ & H2).
  - cbn [length]. lia.
  - exists S. split; [exact H1|exact H2].
Defined.

(** X15: the coefficients carry the power of the signal: for a signal of
    at least one sample the squared magnitudes of the entries of
    [spectrum(signal)] add up to the mean of the squared magnitudes of
    the samples. *)
Theorem spectrum_conserves_power :
  forall x : list C,
    (1 <= length x)%nat ->
    exists S : list C,
      spectrum x = Returns S
      /\ add_reduce ((fun z => Cmod z ^ 2)%R <$> S)
         = average ((fun z => Cmod z ^ 2)%R <$> x).
Proof.
  intros x Hx.
  exists ((fun z => Cdiv_real z (INR (length x))) <$> dft x).
  split.
  - unfold spectrum, fft.
    destruct (Nat.eqb_spec (length x) 0); [lia|]. reflexivity.
  - apply coefficients_energy. intros ->. cbn in Hx. lia.
Qed.

(** X15 on the samples 1, 2, 3. *)
Lemma spectrum_conserves_power_witness :
  exists S : list C,
    spectrum [RtoC 1; RtoC 2; RtoC 3] = Returns S
    /\ add_reduce ((fun z => Cmod z ^ 2)%R <$> S)
       = average ((fun z => Cmod z ^ 2)%R <$> [RtoC 1; RtoC 2; RtoC 3]).
Proof.
  apply (spectrum_conserves_power [RtoC 1; RtoC 2; RtoC 3]).
  cbn [length]. lia.
Defined.

(** X16: [powerspectrum] of a signal of at least one sample has
    [len(signal)/2] entries, none of them negative, and their sum is at
    most the mean of the squared magnitudes of the samples. *)
Theorem powerspectrum_bounded_by_power :
  forall x : list C,
    (1 <= length x)%nat ->
    exists P : list R,
      powerspectrum x = Returns P
      /\ length P = Z.to_nat (Z.of_nat (length x) / 2)
      /\ (forall v : R, v ∈ P -> (0 <= v)%R)
      /\ (add_reduce P <= average ((fun z => Cmod z ^ 2)%R <$> x))%R.
Proof.
  intros x Hx.
  set (S := (fun z => Cdiv_real z (INR (length x))) <$> dft x).
  set (h := Z.to_nat (Z.of_nat (length x) / 2)).
  assert (HS : length S = length x)
    by (unfold S; now rewrite length_fmap, length_dft).
  pose proof (Z.mul_div_le (Z.of_nat (length x)) 2 ltac:(lia)) as Hq.
  assert (Hh : (h <= length x)%nat) by (unfold h; lia).
  assert (Hnn : forall l : list C, forall v : R,
            v ∈ (fun z => Cmod z ^ 2)%R <$> l -> (0 <= v)%R).
  { intros l v Hv. apply list_elem_of_fmap in Hv as (z & -> & _).
    rewrite Cmod_sq. pose proof (Rle_0_sqr (fst z)).
    pose proof (Rle_0_sqr (snd z)). unfold Rsqr in *. lra. }
  exists ((fun z => Cmod z ^ 2)%R <$> take h S).
  split.
  { unfold powerspectrum, spectrum, fft.
    destruct (Nat.eqb_spec (length x) 0); [lia|].
    cbn [mbind outcome_bind]. fold S. do 2 f_equal.
    unfold h. rewrite <- slice_to_take by (rewrite HS; lia).
    rewrite Z2Nat.id by (apply Z.div_pos; lia). reflexivity. }
  split; [rewrite length_fmap, length_take; lia|].
  split; [apply Hnn|].
  rewrite <- (coefficients_energy x) by (intros ->; cbn in Hx; lia).
  fold S. rewrite <- (take_drop h S) at 2.
  rewrite fmap_app, add_reduce_app.
  pose proof (add_reduce_nonneg _ (Hnn (drop h S))). lra.
Qed.

(** X16 on the samples 1, 2, 3, 4. *)
Lemma powerspectrum_bounded_by_power_witness :
  exists P : list R,
    powerspectrum [RtoC 1; RtoC 2; RtoC 3; RtoC 4] = Returns P
    /\ length P = 2%nat.
Proof.
  destruct (powerspectrum_bounded_by_power [RtoC 1; RtoC 2; RtoC 3; RtoC 4])
    as (P & H1 & H2 & _).
  - cbn [length]. lia.
  - exists P. split; [exact H1|exact H2].
Defined.

(** ** [phasor] *)

Section Phasor.

Local Open Scope R_scope.

Lemma length_zero_from (lo : Z) (spec : list C) :
  (0 <= lo <= Z.of_nat (length spec))%Z ->
  length (zero_from lo spec) = length spec.
Proof.
  intros H. unfold zero_from.
  rewrite length_app, length_take, length_replicate. lia.
Qed.

(** Zeroing the upper part twice is zeroing it once. *)
Lemma zero_from_twice (lo : Z) (spec : list C) :
  (0 <= lo <= Z.of_nat (length spec))%Z ->
  zero_from lo (zero_from lo spec) = zero_from lo spec.
Proof.
  intros H. unfold zero_from at 1.
  rewrite length_zero_from by assumption.
  unfold zero_from.
  rewrite take_app_le by (rewrite length_take; lia).
  rewrite take_take. f_equal. f_equal. lia.
Qed.

Lemma phasor_eq (x : list C) :
  x <> [] ->
  phasor x =
    Returns (idft ((fun z => Cmult_real z (INR (length x))) <$>
                     zero_from ((Z.of_nat (length x) + 1) / 2)
                       ((fun z => Cdiv_real z (INR (length x))) <$> dft x))).
Proof.
  intros Hx.
  assert (Hlen : (0 < length x)%nat)
    by (destruct x; [congruence|cbn; lia]).
  unfold phasor, spectrum, fft.
  destruct (Nat.eqb_spec (length x) 0); [lia|].
  cbn [mbind outcome_bind].
  rewrite !length_fmap, !length_dft.
  assert (Hh : (0 <= (Z.of_nat (length x) + 1) / 2 <= Z.of_nat (length x))%Z).
  { split; [apply Z.div_pos; lia|].
    apply Z.lt_succ_r, Z.div_lt_upper_bound; lia. }
  rewrite length_zero_from by (rewrite length_fmap, length_dft; exact Hh).
  rewrite length_fmap, length_dft.
  unfold ifft. rewrite length_fmap, length_zero_from
    by (rewrite length_fmap, length_dft; exact Hh).
  rewrite length_fmap, length_dft.
  destruct (Nat.eqb_spec (length x) 0); [lia|]. reflexivity.
Qed.

End Phasor.

(** X17: [phasor] is a projection: for a signal of at least one sample
    it returns a complex array of the same length, and applying [phasor]
    to that array returns it unchanged (its negative-frequency
    coefficients are zero already). *)
Theorem phasor_idempotent :
  forall x : list C,
    (1 <= length x)%nat ->
    exists P : list C,
      phasor x = Returns P
      /\ length P = length x
      /\ phasor P = Returns P.
Proof.
  intros x Hx.
  assert (Hne : x <> []) by (intros ->; cbn in Hx; lia).
  set (n := length x) in *.
  set (h := ((Z.of_nat n + 1) / 2)%Z).
  set (S := (fun z => Cdiv_real z (INR n)) <$> dft x).
  set (Zs := zero_from h S).
  assert (Hh : (0 <= h <= Z.of_nat n)%Z).
  { unfold h. split; [apply Z.div_pos; lia|].
    apply Z.lt_succ_r, Z.div_lt_upper_bound; lia. }
  assert (HS : length S = n)
    by (unfold S; now rewrite length_fmap, length_dft).
  assert (HZ : length Zs = n)
    by (unfold Zs; rewrite length_zero_from; lia).
  set (P := idft ((fun z => Cmult_real z (INR n)) <$> Zs)).
  assert (HP : length P = n)
    by (unfold P; now rewrite length_idft, length_fmap).
  assert (Hn : (INR n <> 0)%R) by (apply not_0_INR; lia).
  exists P. split; [apply phasor_eq; assumption|].
  split; [exact HP|].
  rewrite phasor_eq by (intros E; rewrite E in HP; cbn in HP; lia).
  rewrite HP. fold h.
  assert (HSP : (fun z => Cdiv_real z (INR n)) <$> dft P = Zs).
  { unfold P. rewrite dft_idft, <- list_fmap_compose.
    rewrite (list_fmap_ext _ (fun z : C => z) Zs); [apply list_fmap_id|].
    intros _ [u v] _. cbn [compose].
    apply injective_projections;
      cbn [fst snd Cmult_real Cdiv_real]; field; exact Hn. }
  rewrite HSP. unfold Zs at 1.
  rewrite zero_from_twice by lia. reflexivity.
Qed.

(** X17 on the real samples 1, 2, 3, 4. *)
Lemma phasor_idempotent_witness :
  exists P : list C,
    phasor [RtoC 1; RtoC 2; RtoC 3; RtoC 4] = Returns P
    /\ phasor P = Returns P.
Proof.
  destruct (phasor_idempotent [RtoC 1; RtoC 2; RtoC 3; RtoC 4])
    as (P & H1 & _ & H2).
  - cbn [length]. lia.
  - exists P. split; [exact H1|exact H2].
Defined.

(** ** [phase] and [amplitude] *)

Section PolarFacts.

Local Open Scope R_scope.

Lemma Cmod_factor (z : C) :
  fst z <> 0 ->
  Cmod z = Rabs (fst z) * sqrt (1 + (snd z / fst z)²).
Proof.
  intros Hz. destruct z as [u v]. cbn [fst snd] in *. unfold Cmod.
  cbn [fst snd].
  replace (u * u + v * v) with (u² * (1 + (v / u)²))
    by (unfold Rsqr; field; exact Hz).
  rewrite sqrt_mult.
  - now rewrite sqrt_Rsqr_abs.
  - apply Rle_0_sqr.
  - pose proof (Rle_0_sqr (v / u)). lra.
Qed.

Lemma sqrt_1_sqr_pos (t : R) : 0 < sqrt (1 + t²).
Proof. apply sqrt_lt_R0. pose proof (Rle_0_sqr t). lra. Qed.

(** The value of [phase] at an entry with a non-zero real part is an
    argument of that entry. *)
Lemma phase_entry_polar (z : C) :
  fst z <> 0 ->
  exists t : R,
    phase_entry z = Returns t
    /\ z = Cmult_real (cis t) (Cmod z)
    /\ (0 < fst z -> - PI / 2 < t < PI / 2)
    /\ (fst z < 0 -> - (3 * PI / 2) < t < - PI / 2).
Proof.
  intros Hz. unfold phase_entry.
  destruct (Req_dec_T (fst z) 0) as [E|_]; [contradiction|].
  eexists. split; [reflexivity|].
  pose proof (atan_bound (snd z / fst z)) as Hb.
  pose proof (sqrt_1_sqr_pos (snd z / fst z)) as Hs.
  rewrite (Cmod_factor z Hz).
  destruct z as [u v]. cbn [fst snd] in *.
  unfold sign.
  destruct (Rlt_dec 0 u) as [Hu|Hu].
  - replace (atan (v / u) + 0.5 * (1 - 1) * PI) with (atan (v / u)) by lra.
    split; [|split; [intros _; exact Hb|intros; lra]].
    unfold cis, Cmult_real. cbn [fst snd].
    rewrite cos_atan, sin_atan, Rabs_right by lra.
    apply injective_projections; cbn [fst snd]; field; repeat split; lra.
  - destruct (Rlt_dec u 0) as [Hu'|Hu']; [|lra].
    replace (atan (v / u) + 0.5 * (-1 - 1) * PI) with (atan (v / u) - PI)
      by lra.
    split; [|split; [intros; lra|intros _; lra]].
    unfold cis, Cmult_real. cbn [fst snd].
    rewrite cos_minus, sin_minus, cos_PI, sin_PI, cos_atan, sin_atan,
      Rabs_left by lra.
    apply injective_projections; cbn [fst snd]; field; repeat split; lra.
Qed.

Lemma each_lookup {A B} (f : A -> outcome B) (P : A -> Prop)
    (Q : A -> B -> Prop) (l : list A) :
  (forall a, P a -> exists b, f a = Returns b /\ Q a b) ->
  (forall a, a ∈ l -> P a) ->
  exists bs,
    each f l = Returns bs
    /\ length bs = length l
    /\ forall (i : nat) a, l !! i = Some a ->
         exists b, bs !! i = Some b /\ Q a b.
Proof.
  intros Hf. induction l as [|a l IH]; intros Hl.
  - exists []. split; [reflexivity|]. split; [reflexivity|].
    intros i a Hi. now rewrite lookup_nil in Hi.
  - destruct (Hf a) as (b & Hb & Hq); [apply Hl, list_elem_of_here|].
    destruct IH as (bs & Hbs & Hlen & Hall).
    { intros a' Ha'. apply Hl, list_elem_of_further, Ha'. }
    exists (b :: bs). cbn [each]. rewrite Hb. cbn [mbind outcome_bind].
    rewrite Hbs. cbn [mbind outcome_bind].
    split; [reflexivity|]. split; [cbn; now rewrite Hlen|].
    intros [|i] a' Hi; cbn in Hi |- *.
    + injection Hi as <-. now exists b.
    + now apply Hall.
Qed.

End PolarFacts.

(** X18: [amplitude] and [phase] are polar coordinates.  For an array
    whose entries all have a non-zero real part, [phase] returns one
    angle per entry, between -3*pi/2 and pi/2, and every entry equals
    [amplitude * exp(1j * phase)] taken at its index. *)
Theorem phase_amplitude_polar :
  forall phasordata : list C,
    (forall z, z ∈ phasordata -> fst z <> 0%R) ->
    exists phi : list R,
      phase phasordata = Returns phi
      /\ length phi = length phasordata
      /\ forall (i : nat) (z : C),
           phasordata !! i = Some z ->
           exists t a : R,
             phi !! i = Some t
             /\ amplitude phasordata !! i = Some a
             /\ z = Cmult_real (cis t) a
             /\ (- (3 * PI / 2) < t < PI / 2)%R.
Proof.
  intros data Hdata.
  destruct (each_lookup phase_entry (fun z => fst z <> 0%R)
              (fun z t => z = Cmult_real (cis t) (Cmod z)
                          /\ (- (3 * PI / 2) < t < PI / 2)%R) data)
    as (phi & Hphi & Hlen & Hall).
  - intros z Hz. destruct (phase_entry_polar z Hz) as (t & Ht & Hp & Hr & Hl).
    exists t. split; [exact Ht|]. split; [exact Hp|].
    pose proof PI_RGT_0.
    destruct (Rlt_dec 0 (fst z)) as [H0|H0].
    + specialize (Hr H0). lra.
    + assert (fst z < 0)%R as H1 by lra. specialize (Hl H1). lra.
  - exact Hdata.
  - exists phi. split; [exact Hphi|]. split; [exact Hlen|].
    intros i z Hi. destruct (Hall i z Hi) as (t & Ht & Hp & Hr).
    exists t, (Cmod z). split; [exact Ht|].
    split; [unfold amplitude; now rewrite list_lookup_fmap, Hi|].
    split; assumption.
Qed.

(** X18 on the array [1+1j, -1+1j]. *)
Lemma phase_amplitude_polar_witness :
  exists phi : list R,
    phase [(1, 1); (-1, 1)]%R = Returns phi /\ length phi = 2%nat.
Proof.
  destruct (phase_amplitude_polar [(1, 1); (-1, 1)]%R)
    as (phi & H1 & H2 & _).
  - intros z Hz. apply elem_of_cons in Hz as [->|Hz].
    + cbn [fst]. lra.
    + apply list_elem_of_singleton in Hz as ->. cbn [fst]. lra.
  - exists phi. split; [exact H1|exact H2].
Defined.

(** ** [center_of_gravity] *)

Section Gravity.

Local Open Scope R_scope.

Lemma Cmod_zero (z : C) : Cmod z = 0 <-> z = RtoC 0.
Proof.
  destruct z as [u v]. unfold Cmod, RtoC. cbn [fst snd]. split.
  - intros H. apply sqrt_eq_0 in H; [|nra].
    assert (u = 0) by nra. assert (v = 0) by nra. congruence.
  - intros [= -> ->]. replace (0 * 0 + 0 * 0) with 0 by ring.
    apply sqrt_0.
Qed.

Lemma center_of_gravity_eq (array : list C) :
  center_of_gravity array =
    py_int (fdiv
              (Fin (add_reduce
                      (zip_with Rmult (Cmod <$> array)
                         ((fun i : nat => INR i)
                            <$> seq 0 (length (Cmod <$> array))))))
              (Fin (add_reduce (Cmod <$> array)))).
Proof.
  unfold center_of_gravity, arange.
  now rewrite Nat2Z.id, length_fmap.
Qed.

End Gravity.

(** X20: without a non-zero entry there is no centre of gravity.  For an
    array of zeros, and for the empty array, the quotient is [nan] and
    [center_of_gravity] raises [ValueError]. *)
Theorem center_of_gravity_all_zero_raises :
  forall array : list C,
    (forall z : C, z ∈ array -> z = RtoC 0) ->
    center_of_gravity array = Raises ValueError.
Proof.
  intros array Hz.
  assert (Hw : Cmod <$> array = replicate (length array) 0%R).
  { induction array as [|z array IH]; [reflexivity|].
    rewrite fmap_cons. cbn [length replicate]. apply (f_equal2 cons).
    - apply Cmod_zero, Hz, list_elem_of_here.
    - apply IH. intros z' Hz'. apply Hz, list_elem_of_further, Hz'. }
  rewrite center_of_gravity_eq, Hw, length_replicate.
  clear Hw Hz. generalize (length array) as n. intros n.
  assert (Hden : add_reduce (replicate n 0%R) = 0%R).
  { induction n as [|n IH]; [reflexivity|].
    cbn [replicate add_reduce foldr]. fold (add_reduce (replicate n 0%R)).
    rewrite IH. lra. }
  assert (Hnum : forall s : nat,
             add_reduce
               (zip_with Rmult (replicate n 0%R)
                  ((fun i : nat => INR i) <$> seq s n)) = 0%R).
  { clear Hden. induction n as [|n IH]; intros s; [reflexivity|].
    cbn [replicate seq fmap list_fmap zip_with add_reduce foldr].
    fold (add_reduce
            (zip_with Rmult (replicate n 0%R)
               ((fun i : nat => INR i) <$> seq (S s) n))).
    rewrite IH. lra. }
  rewrite Hden, Hnum. cbn [fdiv].
  destruct (Req_dec_T 0 0) as [_|E]; [|contradiction].
  reflexivity.
Qed.

(** X20 on two zero samples. *)
Lemma center_of_gravity_all_zero_raises_witness :
  center_of_gravity [RtoC 0; RtoC 0] = Raises ValueError.
Proof.
  apply center_of_gravity_all_zero_raises.
  intros z Hz. apply elem_of_cons in Hz as [->|Hz]; [reflexivity|].
  now apply list_elem_of_singleton in Hz as ->.
Defined.

(** ** [peak_centered_spectrum] *)

Section PeakWindow.

(** What a half width returned by [halfwidth] satisfies: it is at least
    one, and as many bins lie on either side of the peak inside the
    lower half of the spectrum. *)
Lemma halfwidth_returns (spec : list C) (out : list string) (h : Z) :
  halfwidth spec = (out, Returns h) ->
  exists maxpos : nat,
    argmax (Cmod <$> slice 0 ((Z.of_nat (length spec) + 1) / 2) spec)
      = Returns maxpos
    /\ 1 <= h <= Z.of_nat maxpos
    /\ Z.of_nat maxpos + h <= Z.of_nat (length spec) / 2 - 1.
Proof.
  intros H.
  destruct (argmax (Cmod <$> slice 0 ((Z.of_nat (length spec) + 1) / 2) spec))
    as [maxpos| |] eqn:Hmax.
  - exists maxpos. split; [reflexivity|].
    rewrite (halfwidth_eq spec maxpos Hmax) in H. cbv zeta in H.
    set (x := Z.min (Z.of_nat maxpos)
                (Z.of_nat (length spec) / 2 - 1 - Z.of_nat maxpos)) in *.
    destruct (Z.lt_trichotomy x 0) as [Hx|[Hx|Hx]].
    + rewrite log_ratio_negative in H by (apply IZR_lt; exact Hx).
      cbn in H. congruence.
    + rewrite Hx, log_ratio_zero in H. cbn in H. congruence.
    + rewrite log_ratio in H by (apply IZR_lt; exact Hx).
      cbn [py_int mbind outcome_bind] in H.
      rewrite trunc_log2 in H by exact Hx.
      injection H as _ <-.
      pose proof (Z.log2_spec x Hx) as [Hlo _].
      pose proof (Z.log2_nonneg x).
      assert (0 < 2 ^ Z.log2 x) by (apply Z.pow_pos_nonneg; lia).
      unfold x in *. lia.
  - unfold halfwidth in H. rewrite Hmax in H. congruence.
  - unfold halfwidth in H. rewrite Hmax in H. congruence.
Qed.

(** The window cut around a peak that has [h] bins on either side. *)
Lemma peak_centered_spectrum_window (spec : list C) (h : Z) (maxpos : nat) :
  argmax (Cmod <$> slice 0 ((Z.of_nat (length spec) + 1) / 2) spec)
    = Returns maxpos ->
  1 <= h <= Z.of_nat maxpos ->
  Z.of_nat maxpos + h <= Z.of_nat (length spec) ->
  h <= Z.of_nat (length spec) / 2 ->
  peak_centered_spectrum spec h =
    ([], Returns (take (Z.to_nat h) (drop maxpos spec)
                    ++ take (Z.to_nat h)
                         (drop (maxpos - Z.to_nat h) spec))).
Proof.
  intros Hmax Hh Hfit Hhalf. unfold peak_centered_spectrum.
  destruct (Z.ltb_spec (Z.of_nat (length spec) / 2) h); [lia|].
  rewrite Hmax. f_equal. f_equal.
  rewrite slice_take_drop by lia.
  replace (Z.to_nat (Z.of_nat maxpos + h - (Z.of_nat maxpos - h)))
    with (Z.to_nat h + Z.to_nat h)%nat by lia.
  replace (Z.to_nat (Z.of_nat maxpos - h)) with (maxpos - Z.to_nat h)%nat
    by lia.
  set (hn := Z.to_nat h). set (X := drop (maxpos - hn) spec).
  assert (HX : (hn + hn <= length X)%nat).
  { unfold X. rewrite length_drop. lia. }
  assert (Hlen : length (take (hn + hn) X) = (hn + hn)%nat)
    by (rewrite length_take; lia).
  rewrite rotate_rotl
    by (intros E; rewrite E in Hlen; cbn in Hlen; lia).
  rewrite Hlen, Z.opp_involutive.
  replace (Z.to_nat (h mod Z.of_nat (hn + hn))) with hn
    by (rewrite Z.mod_small; lia).
  unfold rotl. rewrite skipn_firstn_comm, take_take.
  replace (hn + hn - hn)%nat with hn by lia.
  replace (hn `min` (hn + hn))%nat with hn by lia.
  unfold X. rewrite drop_drop.
  replace (maxpos - hn + hn)%nat with maxpos by lia.
  reflexivity.
Qed.

End PeakWindow.

(** X21: [peak_centered_spectrum] with the half width that [halfwidth]
    returns.  Whenever [halfwidth(spec)] returns [h], the call
    [peak_centered_spectrum(spec, h)] prints nothing and returns the
    [2*h] bins around the peak, rotated so that the peak comes first:
    [spec[maxpos:maxpos+h]] followed by [spec[maxpos-h:maxpos]]. *)
Theorem peak_centered_spectrum_of_halfwidth :
  forall (spec : list C) (out : list string) (h : Z),
    halfwidth spec = (out, Returns h) ->
    exists (maxpos : nat) (w : list C),
      argmax (Cmod <$> slice 0 ((Z.of_nat (length spec) + 1) / 2) spec)
        = Returns maxpos
      /\ peak_centered_spectrum spec h = ([], Returns w)
      /\ w = slice (Z.of_nat maxpos) (Z.of_nat maxpos + h) spec
               ++ slice (Z.of_nat maxpos - h) (Z.of_nat maxpos) spec
      /\ Z.of_nat (length w) = 2 * h
      /\ w !! 0%nat = spec !! maxpos.
Proof.
  intros spec out h H.
  destruct (halfwidth_returns spec out h H) as (maxpos & Hmax & Hh & Hfit).
  assert (Hhalf : Z.of_nat (length spec) / 2 <= Z.of_nat (length spec))
    by (apply Z.div_le_upper_bound; lia).
  exists maxpos. eexists. split; [exact Hmax|].
  split; [apply peak_centered_spectrum_window; [exact Hmax|lia..]|].
  rewrite !slice_take_drop by lia.
  replace (Z.to_nat (Z.of_nat maxpos + h - Z.of_nat maxpos))
    with (Z.to_nat h) by lia.
  replace (Z.to_nat (Z.of_nat maxpos - (Z.of_nat maxpos - h)))
    with (Z.to_nat h) by lia.
  replace (Z.to_nat (Z.of_nat maxpos - h)) with (maxpos - Z.to_nat h)%nat
    by lia.
  rewrite Nat2Z.id.
  split; [reflexivity|]. split.
  - rewrite length_app, !length_take, !length_drop. lia.
  - rewrite lookup_app_l by (rewrite length_take, length_drop; lia).
    rewrite lookup_take_lt by lia. rewrite lookup_drop. f_equal. lia.
Qed.

(** Evaluation of [argmax] on an array of numerals. *)
Ltac eval_argmax :=
  cbn [argmax argmax_cons];
  repeat (cbn [lookup_total list_lookup_total];
          match goal with
          | |- context [Rlt_dec ?a ?b] =>
              first [ assert (a < b)%R by lra;
                      destruct (Rlt_dec a b); [|contradiction]
                    | assert (~ (a < b)%R) by lra;
                      destruct (Rlt_dec a b); [contradiction|] ]
          end);
  try reflexivity.

(** A spectrum of eight bins with its peak at bin 2: one bin lies on
    either side of the peak inside the lower half. *)
Lemma halfwidth_eight_bins :
  halfwidth (RtoC <$> [0; 0; 1; 0; 0; 0; 0; 0]%R) = ([], Returns 1).
Proof.
  assert (Ha : argmax (Cmod <$> slice 0
                 ((Z.of_nat (length (RtoC <$> [0; 0; 1; 0; 0; 0; 0; 0]%R))
                   + 1) / 2)
                 (RtoC <$> [0; 0; 1; 0; 0; 0; 0; 0]%R)) = Returns 2%nat).
  { rewrite searched_half. cbn [fmap list_fmap length].
    eval_indices. cbn [take firstn fmap list_fmap].
    rewrite !Cmod_RtoC by lra.
    eval_argmax. }
  rewrite (halfwidth_eq _ _ Ha). cbn [fmap list_fmap length].
  change (Z.min (Z.of_nat 2) (Z.of_nat 8 / 2 - 1 - Z.of_nat 2)) with 1.
  cbn [Z.eqb]. rewrite log_ratio by lra.
  cbn [py_int mbind outcome_bind].
  rewrite (trunc_log2 1) by lia. reflexivity.
Qed.

(** X21 on that spectrum: the window is the peak followed by the bin
    before it. *)
Lemma peak_centered_spectrum_of_halfwidth_witness :
  exists w : list C,
    peak_centered_spectrum (RtoC <$> [0; 0; 1; 0; 0; 0; 0; 0]%R) 1
      = ([], Returns w)
    /\ Z.of_nat (length w) = 2 * 1.
Proof.
  destruct (peak_centered_spectrum_of_halfwidth
              (RtoC <$> [0; 0; 1; 0; 0; 0; 0; 0]%R) [] 1
              halfwidth_eight_bins)
    as (maxpos & w & _ & Hw & _ & Hlen & _).
  exists w. split; [exact Hw|exact Hlen].
Defined.

(** X22: a peak closer to bin 0 than the half width gives an empty
    window without any message.  When the requested half width is at
    most [len(spec)/2] but larger than the position of the peak, the
    slice starts at a negative index, which Python counts from the end
    of the array: the slice is empty, nothing is printed, and the empty
    array is returned. *)
Theorem peak_centered_spectrum_peak_near_zero_empty :
  forall (spec : list C) (h : Z) (maxpos : nat),
    argmax (Cmod <$> slice 0 ((Z.of_nat (length spec) + 1) / 2) spec)
      = Returns maxpos ->
    Z.of_nat maxpos < h <= Z.of_nat (length spec) / 2 ->
    peak_centered_spectrum spec h = ([], Returns []).
Proof.
  intros spec h maxpos Hmax Hh. unfold peak_centered_spectrum.
  destruct (Z.ltb_spec (Z.of_nat (length spec) / 2) h); [lia|].
  rewrite Hmax. f_equal. f_equal.
  set (len := Z.of_nat (length spec)) in *.
  pose proof (Z.mul_div_le len 2 ltac:(lia)) as Hq.
  assert (Hempty : slice (Z.of_nat maxpos - h) (Z.of_nat maxpos + h) spec
                   = []).
  { unfold slice, slice_bound. fold len.
    destruct (Z.ltb_spec (Z.of_nat maxpos - h) 0); [|lia].
    destruct (Z.ltb_spec (Z.of_nat maxpos + h) 0); [lia|].
    replace (Z.to_nat
               (Z.min (Z.of_nat maxpos + h) len
                - Z.max (Z.of_nat maxpos - h + len) 0))
      with 0%nat by lia.
    reflexivity. }
  rewrite Hempty. reflexivity.
Qed.

(** X22 on the spectrum of eight bins with its peak at bin 1 and a half
    width of 2. *)
Lemma peak_centered_spectrum_peak_near_zero_empty_witness :
  peak_centered_spectrum (RtoC <$> [0; 1; 0; 0; 0; 0; 0; 0]%R) 2
    = ([], Returns []).
Proof.
  apply (peak_centered_spectrum_peak_near_zero_empty _ 2 1).
  - rewrite searched_half. cbn [fmap list_fmap length].
    eval_indices. cbn [take firstn fmap list_fmap].
    rewrite !Cmod_RtoC by lra.
    eval_argmax.
  - cbn [fmap list_fmap length]. split; [lia|].
    change (Z.of_nat 8 / 2) with 4. lia.
Defined.

(** ** [rms] *)

Section Rms.

Local Open Scope R_scope.

Lemma add_reduce_shift (c : R) (l : list R) :
  add_reduce ((fun v => v + c) <$> l) = add_reduce l + c * INR (length l).
Proof.
  induction l as [|v l IH]; [cbn; lra|].
  rewrite fmap_cons. cbn [add_reduce foldr length].
  fold (add_reduce l). fold (add_reduce ((fun v => v + c) <$> l)).
  rewrite IH, S_INR. lra.
Qed.

Lemma add_reduce_gain (c : R) (l : list R) :
  add_reduce ((fun v => c * v) <$> l) = c * add_reduce l.
Proof.
  induction l as [|v l IH]; [cbn; lra|].
  rewrite fmap_cons. cbn [add_reduce foldr].
  fold (add_reduce l). fold (add_reduce ((fun v => c * v) <$> l)).
  rewrite IH. lra.
Qed.

Lemma INR_length_pos {A} (l : list A) : l <> [] -> 0 < INR (length l).
Proof.
  intros H. destruct l; [congruence|]. apply lt_0_INR. cbn. lia.
Qed.

Lemma average_shift (c : R) (l : list R) :
  l <> [] -> average ((fun v => v + c) <$> l) = average l + c.
Proof.
  intros H. pose proof (INR_length_pos l H). unfold average.
  rewrite add_reduce_shift, length_fmap. field. lra.
Qed.

Lemma average_gain (c : R) (l : list R) :
  average ((fun v => c * v) <$> l) = c * average l.
Proof.
  unfold average. rewrite add_reduce_gain, length_fmap.
  unfold Rdiv. ring.
Qed.

Lemma rms_eq (l : list R) :
  l <> [] -> rms l = Returns (sqrt (mean_square_deviation l)).
Proof. intros H. destruct l; [congruence|reflexivity]. Qed.

Lemma mean_square_deviation_nonneg (l : list R) :
  l <> [] -> 0 <= mean_square_deviation l.
Proof.
  intros H. pose proof (INR_length_pos l H) as Hn.
  unfold mean_square_deviation, average. rewrite length_fmap.
  apply Rmult_le_pos; [|left; now apply Rinv_0_lt_compat].
  apply add_reduce_nonneg. intros v Hv.
  apply list_elem_of_fmap in Hv as (u & -> & _).
  apply pow2_ge_0.
Qed.

Lemma mean_square_deviation_shift (c : R) (l : list R) :
  l <> [] ->
  mean_square_deviation ((fun v => v + c) <$> l) = mean_square_deviation l.
Proof.
  intros H. unfold mean_square_deviation.
  rewrite average_shift by assumption.
  rewrite <- list_fmap_compose. f_equal.
  apply list_fmap_ext. intros _ v _. cbn [compose]. ring.
Qed.

Lemma mean_square_deviation_gain (c : R) (l : list R) :
  mean_square_deviation ((fun v => c * v) <$> l)
    = c² * mean_square_deviation l.
Proof.
  unfold mean_square_deviation.
  rewrite average_gain, <- list_fmap_compose.
  rewrite <- (average_gain c² ((fun v => (v - average l) ^ 2) <$> l)).
  rewrite <- list_fmap_compose.
  f_equal. apply list_fmap_ext. intros _ v _. cbn [compose].
  unfold Rsqr. ring.
Qed.

End Rms.

(** X23: [rms] measures the fluctuation around the mean.  For a signal
    of at least one sample it returns a number [r >= 0]; adding a
    constant offset to every sample leaves [r] unchanged, multiplying
    every sample by a gain [c] gives [|c| * r], and a signal whose
    samples are all equal has [r = 0]. *)
Theorem rms_offset_and_gain :
  forall (signal : list R) (c : R),
    signal <> [] ->
    exists r : R,
      rms signal = Returns r
      /\ (0 <= r)%R
      /\ rms ((fun v => v + c)%R <$> signal) = Returns r
      /\ rms ((fun v => c * v)%R <$> signal) = Returns (Rabs c * r)%R
      /\ ((forall v : R, v ∈ signal -> v = c) -> r = 0%R).
Proof.
  intros signal c H.
  assert (Hmap : forall f : R -> R, f <$> signal <> []).
  { intros f E. apply fmap_nil_inv in E. contradiction. }
  exists (sqrt (mean_square_deviation signal)).
  split; [now apply rms_eq|]. split; [apply sqrt_pos|].
  split; [|split].
  - rewrite rms_eq by apply Hmap.
    now rewrite mean_square_deviation_shift.
  - rewrite rms_eq by apply Hmap.
    rewrite mean_square_deviation_gain, sqrt_mult, sqrt_Rsqr_abs.
    + reflexivity.
    + apply Rle_0_sqr.
    + now apply mean_square_deviation_nonneg.
  - intros Hconst.
    assert (Hs : signal = replicate (length signal) c).
    { clear - Hconst. induction signal as [|v l IH]; [reflexivity|].
      cbn [length replicate]. f_equal.
      - apply Hconst, list_elem_of_here.
      - apply IH. intros u Hu. apply Hconst, list_elem_of_further, Hu. }
    assert (Havg : average signal = c).
    { destruct (average_bounds signal c c H) as [H1 H2].
      - intros v Hv. rewrite (Hconst v Hv). lra.
      - lra. }
    assert (Hmsd : mean_square_deviation signal = 0%R).
    { unfold mean_square_deviation.
      destruct (average_bounds
                  ((fun v => (v - average signal) ^ 2)%R <$> signal)
                  0%R 0%R (Hmap _)) as [H1 H2].
      - intros v Hv. apply list_elem_of_fmap in Hv as (u & -> & Hu).
        rewrite Havg, (Hconst u Hu). lra.
      - lra. }
    rewrite Hmsd. apply sqrt_0.
Qed.

(** X23 on the samples 1, 2, 3 with the constant 10. *)
Lemma rms_offset_and_gain_witness :
  exists r : R,
    rms [1; 2; 3]%R = Returns r
    /\ rms [1 + 10; 2 + 10; 3 + 10]%R = Returns r.
Proof.
  destruct (rms_offset_and_gain [1; 2; 3]%R 10%R)
    as (r & H1 & _ & H2 & _).
  - discriminate.
  - exists r. split; [exact H1|exact H2].
Defined.

(** ** [ADC_SNR] and [ADC_NoiseFloor] *)

Section Converter.

Local Open Scope R_scope.

Lemma ln_10_pos : 0 < ln 10.
Proof. rewrite <- ln_1. apply ln_increasing; lra. Qed.

Lemma log10_pos (x : R) : 0 < x -> log10 x = Fin (ln x / ln 10).
Proof. intros H. unfold log10. destruct (Rlt_dec 0 x); [reflexivity|lra]. Qed.

Lemma ADC_NoiseFloor_eq (Nbits fsampling : R) :
  0 < fsampling ->
  ADC_NoiseFloor Nbits fsampling
    = Fin (- ADC_SNR Nbits - 10 * (ln (0.5 * fsampling) / ln 10)).
Proof.
  intros H. unfold ADC_NoiseFloor, ADC_SNR.
  rewrite log10_pos by lra. cbn [minus_ten_times]. f_equal.
  set (q := ln (0.5 * fsampling) / ln 10). lra.
Qed.

End Converter.

(** X24: the noise floor of the ideal converter.  For a positive
    sampling rate [ADC_NoiseFloor] returns a number [x] with
    [x + ADC_SNR(Nbits) = -10*log10(fsampling/2)]: the noise of the
    converter spread over the Nyquist band.  Doubling the sampling rate
    lowers [x] by [10*log10(2)], and one more bit lowers it by 6.02.
    At a sampling rate of zero the result is [+inf]. *)
Theorem ADC_NoiseFloor_spreads_noise :
  forall Nbits fsampling : R,
    (0 < fsampling)%R ->
    exists x : R,
      ADC_NoiseFloor Nbits fsampling = Fin x
      /\ (x + ADC_SNR Nbits = - 10 * (ln (fsampling / 2) / ln 10))%R
      /\ ADC_NoiseFloor Nbits (2 * fsampling)
         = Fin (x - 10 * (ln 2 / ln 10))%R
      /\ ADC_NoiseFloor (Nbits + 1) fsampling = Fin (x - 6.02)%R
      /\ ADC_NoiseFloor Nbits 0 = PosInf.
Proof.
  intros Nbits fs Hfs. pose proof ln_10_pos as H10.
  exists (- ADC_SNR Nbits - 10 * (ln (0.5 * fs) / ln 10))%R.
  split; [now apply ADC_NoiseFloor_eq|].
  split.
  { replace (fs / 2)%R with (0.5 * fs)%R by lra.
    set (q := (ln (0.5 * fs) / ln 10)%R). lra. }
  split; [|split].
  - rewrite ADC_NoiseFloor_eq by lra. f_equal.
    replace (0.5 * (2 * fs))%R with (2 * (0.5 * fs))%R by lra.
    rewrite ln_mult by lra. field. lra.
  - rewrite ADC_NoiseFloor_eq by lra. f_equal. unfold ADC_SNR.
    set (q := (ln (0.5 * fs) / ln 10)%R). lra.
  - unfold ADC_NoiseFloor, log10.
    replace (0.5 * 0)%R with 0%R by ring.
    destruct (Rlt_dec 0 0); [lra|].
    destruct (Req_dec_T 0 0); [reflexivity|lra].
Qed.

(** X24 for 12 bits at a sampling rate of 2: the band is 1 wide and the
    noise floor is minus the signal-to-noise ratio. *)
Lemma ADC_NoiseFloor_spreads_noise_witness :
  exists x : R,
    ADC_NoiseFloor 12 2 = Fin x
    /\ (x + ADC_SNR 12 = - 10 * (ln (2 / 2) / ln 10))%R.
Proof.
  destruct (ADC_NoiseFloor_spreads_noise 12 2) as (x & H1 & H2 & _).
  - lra.
  - exists x. split; [exact H1|exact H2].
Defined.

(** ** [LP] and [HP] *)

Section Filters.

Local Open Scope R_scope.

Lemma LP_eq (f f3db : R) :
  f3db <> 0 -> LP f f3db = Returns (Rdiv_C 1 (1, f / f3db)).
Proof.
  intros H. unfold LP. destruct (Req_dec_T f3db 0); [contradiction|].
  reflexivity.
Qed.

Lemma HP_eq (f f3db : R) :
  f <> 0 -> HP f f3db = Returns (Rdiv_C 1 (1, - (f3db / f))).
Proof.
  intros H. unfold HP. destruct (Req_dec_T f 0); [contradiction|].
  reflexivity.
Qed.

Lemma one_plus_sqr_pos (t : R) : 0 < 1 * 1 + t * t.
Proof. pose proof (Rle_0_sqr t) as H. unfold Rsqr in H. lra. Qed.

End Filters.

(** X25: the two filters split the signal.  For non-zero [f] and
    [f3db] the transfer functions add up to one,
    [LP(f, f3db) + HP(f, f3db) = 1], their powers are
    [|LP|^2 = 1/(1 + (f/f3db)^2)] and [|HP|^2 = 1/(1 + (f3db/f)^2)],
    which add up to one as well. *)
Theorem LP_HP_complementary :
  forall f f3db : R,
    f <> 0%R -> f3db <> 0%R ->
    exists l h : C,
      LP f f3db = Returns l
      /\ HP f f3db = Returns h
      /\ Cplus l h = RtoC 1
      /\ (Cmod l ^ 2 = 1 / (1 + (f / f3db) ^ 2))%R
      /\ (Cmod h ^ 2 = 1 / (1 + (f3db / f) ^ 2))%R
      /\ (Cmod l ^ 2 + Cmod h ^ 2 = 1)%R.
Proof.
  intros f f3db Hf H3.
  exists (Rdiv_C 1 (1, f / f3db)%R), (Rdiv_C 1 (1, - (f3db / f))%R).
  split; [now apply LP_eq|]. split; [now apply HP_eq|].
  pose proof (one_plus_sqr_pos (f / f3db)) as Hl.
  pose proof (one_plus_sqr_pos (- (f3db / f))) as Hh.
  assert (Hff : (0 < f * f + f3db * f3db)%R).
  { pose proof (Rsqr_pos_lt f Hf) as H1.
    pose proof (Rle_0_sqr f3db) as H2. unfold Rsqr in *. lra. }
  assert (Hml : (Cmod (Rdiv_C 1 (1, f / f3db)) ^ 2
                 = 1 / (1 + (f / f3db) ^ 2))%R).
  { rewrite Cmod_sq. unfold Rdiv_C. cbn [fst snd]. field.
    split; [assumption|]. lra. }
  assert (Hmh : (Cmod (Rdiv_C 1 (1, - (f3db / f))) ^ 2
                 = 1 / (1 + (f3db / f) ^ 2))%R).
  { rewrite Cmod_sq. unfold Rdiv_C. cbn [fst snd]. field.
    split; [assumption|]. lra. }
  split; [|split; [exact Hml|split; [exact Hmh|]]].
  - unfold Cplus, Rdiv_C, RtoC. cbn [fst snd].
    apply injective_projections; cbn [fst snd]; field;
      repeat split; lra.
  - rewrite Hml, Hmh. field. repeat split; try assumption; lra.
Qed.

(** X26: at the cut-off frequency both filters pass half of the power
    (the 3 dB point): [|LP(f3db, f3db)|^2 = |HP(f3db, f3db)|^2 = 1/2]
    for a non-zero [f3db]. *)
Theorem LP_HP_half_power_at_cutoff :
  forall f3db : R,
    f3db <> 0%R ->
    exists l h : C,
      LP f3db f3db = Returns l
      /\ HP f3db f3db = Returns h
      /\ (Cmod l ^ 2 = 1 / 2)%R
      /\ (Cmod h ^ 2 = 1 / 2)%R.
Proof.
  intros f3db H3.
  exists (Rdiv_C 1 (1, f3db / f3db)%R), (Rdiv_C 1 (1, - (f3db / f3db))%R).
  split; [now apply LP_eq|]. split; [now apply HP_eq|].
  replace (f3db / f3db)%R with 1%R by (field; assumption).
  rewrite !Cmod_sq. unfold Rdiv_C. cbn [fst snd]. split; field.
Qed.

(** X25 at [f = 1], [f3db = 2]. *)
Lemma LP_HP_complementary_witness :
  exists l h : C,
    LP 1 2 = Returns l /\ HP 1 2 = Returns h /\ Cplus l h = RtoC 1.
Proof.
  destruct (LP_HP_complementary 1 2) as (l & h & H1 & H2 & H3 & _).
  - lra.
  - lra.
  - exists l, h. split; [exact H1|]. split; [exact H2|exact H3].
Defined.

(** X26 at a cut-off frequency of 5. *)
Lemma LP_HP_half_power_at_cutoff_witness :
  exists l h : C,
    LP 5 5 = Returns l /\ HP 5 5 = Returns h
    /\ (Cmod l ^ 2 = 1 / 2)%R /\ (Cmod h ^ 2 = 1 / 2)%R.
Proof.
  apply (LP_HP_half_power_at_cutoff 5). lra.
Defined.

(** ** [NumberOfBitsUsed] on any number of levels *)

Section BitsOfLevels.

Local Open Scope R_scope.

(** The number of values [unique] returns: one less than the number of
    distinct values of the input, and none for an empty input. *)
Lemma unique_length (d vs : list R) :
  NoDup vs -> (forall v, v ∈ d <-> v ∈ vs) ->
  length (keep_before_larger (sort d)) = (length vs - 1)%nat.
Proof.
  intros Hvs Hiff. destruct d as [|v d].
  - destruct vs as [|u vs]; [reflexivity|].
    exfalso. apply (elem_of_nil u), Hiff, list_elem_of_here.
  - pose proof (unique_count (v :: d) vs ltac:(discriminate) Hvs Hiff).
    lia.
Qed.

Lemma log_ratio_power (b : nat) :
  fdiv (log (1 * INR (2 ^ b))) (log 2) = Fin (INR b).
Proof.
  pose proof ln_2_pos as H2.
  assert (Hp : 0 < 2 ^ b) by (apply pow_lt; lra).
  rewrite Rmult_1_l, pow_INR. change (INR 2) with 2.
  rewrite log_ratio by exact Hp. f_equal.
  rewrite ln_pow by lra. field. lra.
Qed.

End BitsOfLevels.

(** X27: [NumberOfBitsUsed] in general.  On data with [k] distinct
    values the result is [log(k-1)/log(2)] for [k >= 2] and [-inf] for
    constant or empty data ([k <= 1]): [unique] leaves out the largest
    value.  Hence data need [2**b + 1] distinct values for the result to
    be [b].  The input array is left as it was. *)
Theorem NumberOfBitsUsed_counts_all_but_one_level :
  forall (h : heap) (data : loc) (d vs : list R),
    h !! data = Some d ->
    NoDup vs -> (forall v : R, v ∈ d <-> v ∈ vs) ->
    exists (h' : heap) (r : float),
      NumberOfBitsUsed h data = Some (h', r)
      /\ h' !! data = Some d
      /\ ((2 <= length vs)%nat ->
          r = Fin (ln (INR (length vs - 1)) / ln 2)%R)
      /\ ((length vs <= 1)%nat -> r = NegInf)
      /\ (forall b : nat, length vs = (2 ^ b + 1)%nat -> r = Fin (INR b)).
Proof.
  intros h data d vs Hd Hvs Hiff.
  rewrite (NumberOfBitsUsed_eq h data d Hd).
  rewrite (unique_length d vs Hvs Hiff).
  eexists _, _. split; [reflexivity|]. split; [|split; [|split]].
  - rewrite lookup_insert_ne; [exact Hd|].
    intros E. rewrite <- E, fresh_not_allocated in Hd. discriminate.
  - intros Hk. rewrite Rmult_1_l. apply log_ratio.
    apply lt_0_INR. lia.
  - intros Hk. replace (length vs - 1)%nat with 0%nat by lia.
    change (INR 0) with 0%R. rewrite Rmult_0_r. apply log_ratio_zero.
  - intros b Hb. replace (length vs - 1)%nat with (2 ^ b)%nat by lia.
    apply log_ratio_power.
Qed.

(** X27 on data with the five values 0, 1, 2, 3, 4: two bits. *)
Lemma NumberOfBitsUsed_counts_all_but_one_level_witness :
  exists h' : heap,
    NumberOfBitsUsed {[1%positive := [0; 1; 2; 3; 4; 0]%R]} 1%positive
      = Some (h', Fin 2%R).
Proof.
  destruct (NumberOfBitsUsed_counts_all_but_one_level
              {[1%positive := [0; 1; 2; 3; 4; 0]%R]} 1%positive
              [0; 1; 2; 3; 4; 0]%R [0; 1; 2; 3; 4]%R
              (lookup_singleton_eq _ _))
    as (h' & r & Hr & _ & _ & _ & Hb).
  - repeat (apply NoDup_cons; split;
            [rewrite ?elem_of_cons, elem_of_nil; intros H;
             repeat (destruct H as [H|H]); lra|]).
    apply NoDup_nil_2.
  - intros v. rewrite !elem_of_cons, !elem_of_nil. tauto.
  - exists h'. rewrite Hr. f_equal. f_equal.
    rewrite (Hb 2%nat eq_refl). reflexivity.
Defined.

(** ** [pc_hanning] *)

Section Hanning.

Local Open Scope R_scope.

Lemma fst_csum (f : nat -> C) (n : nat) :
  fst (csum f n) = add_reduce ((fun k => fst (f k)) <$> seq 0 n).
Proof.
  induction n as [|n IH]; [reflexivity|].
  rewrite seq_S, fmap_app, add_reduce_app. cbn [csum Cplus fst].
  rewrite IH. cbn. lra.
Qed.

(** The cosines of [m] full turns sampled at [N] points add up to zero. *)
Lemma cos_sum_zero (N m : nat) :
  (0 < m < N)%nat ->
  add_reduce ((fun k : nat => cos (2 * PI * INR m * INR k / INR N))
                <$> seq 0 N) = 0.
Proof.
  intros Hm.
  pose proof (kernel_orthogonal N m 0 ltac:(lia) ltac:(lia)) as H.
  destruct (decide (0%nat = m)) as [E|_]; [lia|].
  apply (f_equal fst) in H. rewrite fst_csum in H. cbn [fst RtoC] in H.
  rewrite <- H. f_equal. apply list_fmap_ext. intros _ k _.
  replace (- (2 * PI * INR 0 * INR k / INR N)) with 0
    by (change (INR 0) with 0; unfold Rdiv; ring).
  rewrite cis_0. unfold Cmult, RtoC, cis. cbn [fst snd]. ring.
Qed.

Lemma add_reduce_affine (f g : nat -> R) (a b c : R) (idx : list nat) :
  add_reduce ((fun k => a + b * f k + c * g k) <$> idx)
    = a * INR (length idx) + b * add_reduce (f <$> idx)
      + c * add_reduce (g <$> idx).
Proof.
  induction idx as [|k idx IH]; [cbn; lra|].
  rewrite !fmap_cons. cbn [add_reduce foldr length].
  fold (add_reduce (f <$> idx)). fold (add_reduce (g <$> idx)).
  fold (add_reduce ((fun k => a + b * f k + c * g k) <$> idx)).
  rewrite IH, S_INR. lra.
Qed.

Lemma sqrt_0375_sq : sqrt 0.375 * sqrt 0.375 = 0.375.
Proof. apply sqrt_sqrt. lra. Qed.

Lemma sqrt_0375_pos : 0 < sqrt 0.375.
Proof. apply sqrt_lt_R0. lra. Qed.

(** One point of the scaled window, with the constants as fractions. *)
Lemma pc_point_eq (t : R) :
  1.0 / sqrt 0.375 * (0.5 - 0.5 * cos t) = (1 - cos t) / (2 * sqrt 0.375).
Proof.
  pose proof sqrt_0375_pos as Hp.
  replace 1.0 with 1 by lra. replace 0.5 with (1 / 2) by lra.
  set (s := sqrt 0.375) in *. field. lra.
Qed.

(** The square of one point of the scaled window. *)
Lemma pc_point_sq (t : R) :
  (1.0 / sqrt 0.375 * (0.5 - 0.5 * cos t)) ^ 2
    = 1 + - (4 / 3) * cos t + 1 / 3 * cos (2 * t).
Proof.
  pose proof sqrt_0375_pos as Hp. pose proof sqrt_0375_sq as Hs.
  rewrite pc_point_eq, cos_2a_cos.
  replace 0.375 with (3 / 8) in * by lra.
  set (s := sqrt (3 / 8)) in *.
  replace (((1 - cos t) / (2 * s)) ^ 2)
    with ((1 - cos t) ^ 2 / (4 * (s * s))) by (field; lra).
  rewrite Hs. field.
Qed.

Lemma pc_hanning_eq (Npoints : Z) :
  (2 <= Npoints)%Z ->
  pc_hanning Npoints =
    (fun n : nat =>
       1.0 / sqrt 0.375
       * (0.5 - 0.5 * cos (2 * PI * INR n / INR (Z.to_nat (Npoints - 1)))))
      <$> seq 0 (S (Z.to_nat (Npoints - 1))).
Proof.
  intros H. unfold pc_hanning, numpy_hanning.
  destruct (Z.ltb_spec Npoints 1); [lia|].
  destruct (Z.eqb_spec Npoints 1); [lia|].
  rewrite <- list_fmap_compose.
  replace (Z.to_nat Npoints) with (S (Z.to_nat (Npoints - 1))) by lia.
  rewrite INR_IZR_INZ, Z2Nat.id by lia. reflexivity.
Qed.

End Hanning.

(** X28: the power of the window.  For at least four points
    [pc_hanning] returns [Npoints] values that start and end with 0, and
    whose squares add up to [Npoints - 1]: the mean square of the window
    is [(Npoints-1)/Npoints], just below one. *)
Theorem pc_hanning_power :
  forall Npoints : Z,
    4 <= Npoints ->
    Z.of_nat (length (pc_hanning Npoints)) = Npoints
    /\ pc_hanning Npoints !! 0%nat = Some 0%R
    /\ pc_hanning Npoints !! Z.to_nat (Npoints - 1) = Some 0%R
    /\ add_reduce ((fun w => w ^ 2)%R <$> pc_hanning Npoints)
       = IZR (Npoints - 1)
    /\ (average ((fun w => w ^ 2)%R <$> pc_hanning Npoints)
        = IZR (Npoints - 1) / IZR Npoints)%R.
Proof.
  intros M HM. rewrite pc_hanning_eq by lia.
  set (N := Z.to_nat (M - 1)).
  assert (HN : (3 <= N)%nat) by (unfold N; lia).
  assert (HNr : (INR N <> 0)%R) by (apply not_0_INR; lia).
  assert (Hlast : (1.0 / sqrt 0.375
                   * (0.5 - 0.5 * cos (2 * PI * INR N / INR N)) = 0)%R).
  { replace (2 * PI * INR N / INR N)%R with (2 * PI)%R by (field; exact HNr).
    rewrite pc_point_eq, cos_2PI. unfold Rdiv. ring. }
  assert (Hsum :
    add_reduce
      ((fun w => w ^ 2)%R <$>
         ((fun n : nat =>
             1.0 / sqrt 0.375
             * (0.5 - 0.5 * cos (2 * PI * INR n / INR N)))%R
            <$> seq 0 (S N)))
    = INR N).
  { rewrite seq_S, !fmap_app, add_reduce_app.
    cbn [fmap list_fmap add_reduce foldr Nat.add].
    fold (add_reduce
            ((fun w => w ^ 2)%R <$>
               ((fun n : nat =>
                   1.0 / sqrt 0.375
                   * (0.5 - 0.5 * cos (2 * PI * INR n / INR N)))%R
                  <$> seq 0 N))).
    rewrite Hlast, <- list_fmap_compose.
    rewrite (list_fmap_ext _
               (fun k : nat =>
                  1 + - (4 / 3) * cos (2 * PI * INR 1 * INR k / INR N)
                  + 1 / 3 * cos (2 * PI * INR 2 * INR k / INR N))%R
               (seq 0 N)).
    - rewrite (add_reduce_affine
                 (fun k : nat => cos (2 * PI * INR 1 * INR k / INR N))
                 (fun k : nat => cos (2 * PI * INR 2 * INR k / INR N))).
      rewrite !cos_sum_zero by lia. rewrite length_seq. lra.
    - intros _ k _. cbn [compose]. rewrite pc_point_sq.
      change (INR 1) with 1%R. change (INR 2) with 2%R.
      f_equal; [f_equal; f_equal; f_equal; field; exact HNr|].
      f_equal. f_equal. field. exact HNr. }
  split; [rewrite length_fmap, length_seq; unfold N; lia|].
  split.
  { cbn [seq fmap list_fmap lookup list_lookup]. f_equal.
    change (INR 0) with 0%R.
    replace (2 * PI * 0 / INR N)%R with 0%R by (field; exact HNr).
    rewrite pc_point_eq, cos_0. unfold Rdiv. ring. }
  split.
  { rewrite list_lookup_fmap, lookup_seq_lt by lia.
    cbn [fmap option_fmap option_map Nat.add]. f_equal. exact Hlast. }
  split.
  { rewrite Hsum. unfold N. rewrite INR_IZR_INZ, Z2Nat.id by lia.
    reflexivity. }
  unfold average. rewrite Hsum, !length_fmap, length_seq.
  rewrite !INR_IZR_INZ. unfold N.
  replace (Z.of_nat (S (Z.to_nat (M - 1)))) with M by lia.
  rewrite Z2Nat.id by lia. reflexivity.
Qed.

(** X28 for a window of eight points. *)
Lemma pc_hanning_power_witness :
  add_reduce ((fun w => w ^ 2)%R <$> pc_hanning 8) = 7%R.
Proof.
  destruct (pc_hanning_power 8) as (_ & _ & _ & H & _); [lia|].
  exact H.
Defined.

(** ** The x axis that [resample] returns *)

Section Axes.

Local Open Scope R_scope.

(** The start of the logarithmic x axis: [x[0]] when it is positive,
    [x[1]] otherwise. *)
Lemma resample_log_eq (x y : list R) (N : Z) (s : R) :
  length x = length y ->
  (0 < N < Z.of_nat (length y))%Z ->
  s = (if Rlt_dec 0 (x !!! 0%nat) then x !!! 0%nat else x !!! 1%nat) ->
  0 < s -> 0 < x !!! (length x - 1)%nat ->
  resample x y N "log"
    = ([], Returns
             [(fun v => exp (v * ((ln (x !!! (length x - 1)%nat) - ln s)
                                  / IZR N)
                             + ln s
                             + (ln (x !!! (length x - 1)%nat) - ln s)
                               / IZR N / 2))
                <$> arange N;
              log_bin_value y N <$> seq 0 (Z.to_nat N)]).
Proof.
  intros Hxy HN Hs Hpos Hlast. unfold resample.
  destruct (Nat.eqb_spec (length x) (length y)); [|contradiction].
  cbn [negb].
  destruct (Z.leb_spec (Z.of_nat (length y)) N); [lia|].
  cbn [String.eqb Ascii.eqb Bool.eqb]. f_equal.
  assert (Hx : x <> []) by (intros ->; cbn in Hxy; lia).
  rewrite log_index_eq by lia. cbn [mbind outcome_bind].
  unfold zeros. destruct (Z.ltb_spec N 0); [lia|].
  cbn [mbind outcome_bind].
  rewrite fill_log_eq by lia. cbn [mbind outcome_bind].
  rewrite (getitem_nat x 0) by lia. cbn [mbind outcome_bind].
  rewrite getitem_last by assumption.
  replace (getitem x 1) with (Returns (x !!! 1%nat))
    by (symmetry; apply (getitem_nat x 1); lia).
  destruct (Rlt_dec 0 (x !!! 0%nat)) as [Hfirst|Hfirst];
    cbn [mbind outcome_bind]; subst s;
    rewrite (log_of_pos _ Hlast), (log_of_pos _ Hpos);
    unfold log_axis; reflexivity.
Qed.

Lemma half_step_inside (i : nat) (N : Z) :
  (0 < N)%Z -> (Z.of_nat i < N)%Z ->
  0 < (INR i + 1 / 2) / IZR N < 1.
Proof.
  intros HN Hi.
  assert (HNr : 0 < IZR N) by (apply IZR_lt; lia).
  assert (Hi' : INR i + 1 <= IZR N).
  { rewrite INR_IZR_INZ, <- plus_IZR. apply IZR_le. lia. }
  pose proof (pos_INR i). split.
  - apply Rdiv_lt_0_compat; lra.
  - apply (Rmult_lt_reg_r (IZR N)); [assumption|].
    unfold Rdiv. rewrite Rmult_assoc, Rinv_l by lra. lra.
Qed.

End Axes.

(** X29: the x axis of the resampled data lies inside the old one.  For
    arrays of equal length, [1 <= N < len(y)], and a start value below
    [x[-1]] (the start is [x[0]] in mode 'lin'; in mode 'log' it is
    [x[0]] when that is positive and [x[1]] otherwise, and has to be
    positive), [resample] prints nothing and returns two arrays of [N]
    entries; the entries of the new x axis are strictly increasing and
    lie strictly between the start value and [x[-1]]. *)
Theorem resample_axis_inside_range :
  forall (x y : list R) (N : Z) (type : string) (start : R),
    length x = length y ->
    0 < N < Z.of_nat (length y) ->
    (type = "lin"%string /\ start = x !!! 0%nat)
    \/ (type = "log"%string /\ (0 < start)%R
        /\ start = if Rlt_dec 0 (x !!! 0%nat) then x !!! 0%nat
                   else x !!! 1%nat) ->
    (start < x !!! (length x - 1)%nat)%R ->
    exists rx ry : list R,
      resample x y N type = ([], Returns [rx; ry])
      /\ length rx = Z.to_nat N
      /\ length ry = Z.to_nat N
      /\ (forall (i : nat) (v : R),
            rx !! i = Some v ->
            (start < v < x !!! (length x - 1)%nat)%R)
      /\ (forall (i : nat) (v w : R),
            rx !! i = Some v -> rx !! S i = Some w -> (v < w)%R).
Proof.
  intros x y N type start Hxy HN Hmode Hlt.
  set (last := x !!! (length x - 1)%nat) in *.
  assert (HNr : (0 < IZR N)%R) by (apply IZR_lt; lia).
  destruct Hmode as [[-> ->]|(-> & Hpos & Hs)].
  - (* linear mode *)
    set (first := x !!! 0%nat) in *.
    exists (lin_axis x N), (bin_mean y N <$> seq 0 (Z.to_nat N)).
    split; [now apply resample_lin_eq|].
    split; [unfold lin_axis; now rewrite length_fmap, length_arange|].
    split; [now rewrite length_fmap, length_seq|].
    assert (Hent : forall (i : nat) (v : R),
              lin_axis x N !! i = Some v ->
              (Z.of_nat i < N)%Z
              /\ v = (first + (INR i + 1 / 2) / IZR N * (last - first))%R).
    { intros i v Hi. unfold lin_axis in Hi. fold first last in Hi.
      rewrite list_lookup_fmap in Hi.
      destruct (arange N !! i) as [u|] eqn:Hu; [|discriminate].
      assert (Hlen : (Z.of_nat i < N)%Z).
      { apply lookup_lt_Some in Hu. rewrite length_arange in Hu. lia. }
      rewrite arange_lookup in Hu by assumption.
      injection Hu as <-. injection Hi as <-.
      split; [assumption|]. field. lra. }
    split.
    + intros i v Hi. apply Hent in Hi as [Hi ->].
      pose proof (half_step_inside i N ltac:(lia) Hi) as [H1 H2].
      split; nra.
    + intros i v w Hv Hw.
      apply Hent in Hv as [_ ->]. apply Hent in Hw as [_ ->].
      rewrite S_INR.
      apply Rplus_lt_compat_l, Rmult_lt_compat_r; [lra|].
      apply Rmult_lt_compat_r; [now apply Rinv_0_lt_compat|lra].
  - (* logarithmic mode *)
    assert (Hlast : (0 < last)%R) by lra.
    eexists _, _.
    split; [apply (resample_log_eq x y N start); assumption|].
    split; [now rewrite length_fmap, length_arange|].
    split; [now rewrite length_fmap, length_seq|].
    assert (Hln : (ln start < ln last)%R) by (apply ln_increasing; lra).
    assert (Hent : forall (i : nat) (v : R),
              ((fun v => exp (v * ((ln last - ln start) / IZR N)
                              + ln start
                              + (ln last - ln start) / IZR N / 2))%R
                 <$> arange N) !! i = Some v ->
              (Z.of_nat i < N)%Z
              /\ v = exp (ln start
                          + (INR i + 1 / 2) / IZR N
                            * (ln last - ln start))%R).
    { intros i v Hi. rewrite list_lookup_fmap in Hi.
      destruct (arange N !! i) as [u|] eqn:Hu; [|discriminate].
      assert (Hlen : (Z.of_nat i < N)%Z).
      { apply lookup_lt_Some in Hu. rewrite length_arange in Hu. lia. }
      rewrite arange_lookup in Hu by assumption.
      injection Hu as <-. injection Hi as <-.
      split; [assumption|]. f_equal. field. lra. }
    split.
    + intros i v Hi. apply Hent in Hi as [Hi ->].
      pose proof (half_step_inside i N ltac:(lia) Hi) as [H1 H2].
      set (q := ((INR i + 1 / 2) / IZR N)%R) in *.
      assert (Hlo : (exp (ln start)
                     < exp (ln start + q * (ln last - ln start)))%R)
        by (apply exp_increasing; nra).
      assert (Hhi : (exp (ln start + q * (ln last - ln start))
                     < exp (ln last))%R)
        by (apply exp_increasing; nra).
      rewrite exp_ln in Hlo, Hhi by assumption.
      split; assumption.
    + intros i v w Hv Hw.
      apply Hent in Hv as [_ ->]. apply Hent in Hw as [_ ->].
      apply exp_increasing. rewrite S_INR.
      apply Rplus_lt_compat_l, Rmult_lt_compat_r; [lra|].
      apply Rmult_lt_compat_r; [now apply Rinv_0_lt_compat|lra].
Qed.

(** X29 on four points resampled to two, in linear mode. *)
Lemma resample_axis_inside_range_witness :
  exists rx ry : list R,
    resample [0; 1; 2; 3]%R [1; 3; 5; 7]%R 2 "lin" = ([], Returns [rx; ry])
    /\ length rx = 2%nat.
Proof.
  destruct (resample_axis_inside_range
              [0; 1; 2; 3]%R [1; 3; 5; 7]%R 2 "lin" 0%R)
    as (rx & ry & H1 & H2 & _).
  - reflexivity.
  - cbn [length]. lia.
  - left. split; reflexivity.
  - cbn. lra.
  - exists rx, ry. split; [exact H1|exact H2].
Defined.
